(** * Ruffle-player: URL redirector, catalog resolver and navigation glue

    A shallow embedding of the JavaScript sources
    [redirector.js], [assets/js/game-url-loader.js] (the loader and the
    enhancer that follows it in the same file) and [assets/js/script.js],
    together with the properties that the design document states for them.

    JavaScript strings are sequences of 16-bit code units; they are
    modelled as lists of numbers.  Objects that the code uses as
    dictionaries keep their own properties in creation order, as the
    engine does, and fall back on what [Object.prototype] provides. *)

From Stdlib Require Import String Ascii.
From Stdlib Require Import List NArith ZArith Bool Lia Arith.
Import ListNotations.

(* ------------------------------------------------------------------ *)
(** ** JavaScript strings *)
(* ------------------------------------------------------------------ *)

Module JsString.

Definition codeunit := N.
Definition jsstring := list codeunit.

(** Literals: [js "abc"] is the JavaScript string ['abc']. *)
Definition js (s : string) : jsstring :=
  map N_of_ascii (list_ascii_of_string s).

Fixpoint eqb (s t : jsstring) : bool :=
  match s, t with
  | [], [] => true
  | c :: s', d :: t' => N.eqb c d && eqb s' t'
  | _, _ => false
  end.

(** [!str] on a string: only the empty string is falsy. *)
Definition truthy (s : jsstring) : bool :=
  match s with [] => false | _ :: _ => true end.

(** [s.startsWith(p)] *)
Fixpoint startsWith (s p : jsstring) : bool :=
  match p, s with
  | [], _ => true
  | c :: p', d :: s' => N.eqb c d && startsWith s' p'
  | _ :: _, [] => false
  end.

(** [s.indexOf(p)], [None] standing for -1. *)
Fixpoint indexOf (s p : jsstring) : option nat :=
  if startsWith s p then Some 0
  else match s with
       | [] => None
       | _ :: s' => option_map S (indexOf s' p)
       end.

(** [s.includes(p)] *)
Definition includes (s p : jsstring) : bool :=
  match indexOf s p with Some _ => true | None => false end.

Definition DOLLAR : codeunit := 36%N.
Definition AMPERSAND : codeunit := 38%N.
Definition QUOTE : codeunit := 39%N.
Definition BACKTICK : codeunit := 96%N.
Definition HYPHEN : codeunit := 45%N.
Definition UNDERSCORE : codeunit := 95%N.

(** The replacement template of [String.prototype.replace] when the
    pattern is a string (no capture groups): [$$], [$&], [$`] and [$']
    are expanded, every other code unit is copied. *)
Fixpoint getSubstitution (matched before after template : jsstring)
  : jsstring :=
  match template with
  | [] => []
  | c :: t =>
      if N.eqb c DOLLAR then
        match t with
        | d :: t' =>
            if N.eqb d DOLLAR then
              DOLLAR :: getSubstitution matched before after t'
            else if N.eqb d AMPERSAND then
              matched ++ getSubstitution matched before after t'
            else if N.eqb d BACKTICK then
              before ++ getSubstitution matched before after t'
            else if N.eqb d QUOTE then
              after ++ getSubstitution matched before after t'
            else c :: getSubstitution matched before after t
        | [] => [c]
        end
      else c :: getSubstitution matched before after t
  end.

(** [s.replace(p, r)] with a string pattern: only the first occurrence
    is rewritten. *)
Definition replace (s p r : jsstring) : jsstring :=
  match indexOf s p with
  | None => s
  | Some pos =>
      let before := firstn pos s in
      let after := skipn (pos + length p) s in
      before ++ getSubstitution p before after r ++ after
  end.

(** [p] occurs in [s]; and [a], [b] are what surrounds its leftmost
    occurrence. *)
Definition occursIn (p s : jsstring) : Prop :=
  exists a b, s = a ++ p ++ b.

Definition firstOccurrence (p s a b : jsstring) : Prop :=
  s = a ++ p ++ b /\
  forall a' b', s = a' ++ p ++ b' -> length a <= length a'.

(** No [$] in a replacement template. *)
Definition dollarFree (r : jsstring) : bool :=
  forallb (fun c => negb (N.eqb c DOLLAR)) r.

(** A border of [p] is a proper, non-empty prefix that is also a
    suffix; a string without one cannot overlap itself. *)
Definition borderFree (p : jsstring) : bool :=
  forallb (fun k => negb (eqb (firstn k p) (skipn (length p - k) p)))
          (seq 1 (length p - 1)).

End JsString.

Import JsString.

(* ------------------------------------------------------------------ *)
(** ** redirector.js *)
(* ------------------------------------------------------------------ *)

Module Redirector.

Record mapping := { from : jsstring; to : jsstring }.

Definition urlMappings : list mapping :=
  [ {| from := js "https://cdn.nitrome.com/components/NitromeAPI.pkg";
       to := js "https://cdn.xperia.pt/NitromeAPI.pkg" |};
    {| from := js "https://jogos.ipv7.pt/txtGDE.swf";
       to := js "https://cdn.xperia.pt/laserquest/txtGDE.swf" |};
    {| from := js "https://jogos.ipv7.pt/faq.swf";
       to := js "https://cdn.xperia.pt/laserquest/faq.swf" |};
    {| from := js "https://jogos.ipv7.pt/hora.swf";
       to := js "https://cdn.xperia.pt/laserquest/hora.swf" |};
    {| from := js "https://jogos.ipv7.pt/nov.swf";
       to := js "https://cdn.xperia.pt/laserquest/nov.swf" |} ].

(** The [for ... of] loop of [redirectUrl] over a rule table. *)
Fixpoint redirectWith (mappings : list mapping) (url : jsstring) : jsstring :=
  match mappings with
  | [] => url
  | m :: rest =>
      if includes url (from m) then replace url (from m) (to m)
      else redirectWith rest url
  end.

(** What a caller may hand to [redirectUrl]: a string, or anything else
    (a [Request], [undefined], a [URL] object ...), which is returned as
    it came. *)
Inductive address :=
| Str (s : jsstring)
| NotAString (tag : N).

Definition redirectUrl (url : address) : address :=
  match url with
  | NotAString _ => url
  | Str s => Str (redirectWith urlMappings s)
  end.

End Redirector.

(* ------------------------------------------------------------------ *)
(** ** What the host provides: case mapping, white space, regular
       expressions *)
(* ------------------------------------------------------------------ *)

Module Host.

Local Open Scope N_scope.

Definition inRange (lo hi c : codeunit) : bool :=
  N.leb lo c && N.leb c hi.

Definition isUpperAscii (c : codeunit) : bool := inRange 65 90 c.
Definition isLowerAscii (c : codeunit) : bool := inRange 97 122 c.
Definition isDigit (c : codeunit) : bool := inRange 48 57 c.
Definition isAscii (c : codeunit) : bool := N.ltb c 128.
Definition isHyphen (c : codeunit) : bool := N.eqb c HYPHEN.

(** The class [[a-z0-9]]. *)
Definition isLowerAlnum (c : codeunit) : bool :=
  isLowerAscii c || isDigit c.

(** The class [\w] (no [u] or [i] flag): [[A-Za-z0-9_]]. *)
Definition isWord (c : codeunit) : bool :=
  isUpperAscii c || isLowerAscii c || isDigit c || N.eqb c UNDERSCORE.

(** The class [\s], which is also what [trim] strips: the WhiteSpace
    and LineTerminator code points. *)
Definition isSpace (c : codeunit) : bool :=
  inRange 9 13 c || N.eqb c 32 || N.eqb c 160 || N.eqb c 5760
  || inRange 8192 8202 c || N.eqb c 8232 || N.eqb c 8233
  || N.eqb c 8239 || N.eqb c 8287 || N.eqb c 12288 || N.eqb c 65279.

Definition asciiLower (c : codeunit) : codeunit :=
  if isUpperAscii c then c + 32 else c.

(** The class that [createSlug] keeps, and what is left of it once
    white space has become hyphens. *)
Definition kept (c : codeunit) : bool := isWord c || isSpace c || isHyphen c.

Definition slugUnit (c : codeunit) : bool :=
  (isWord c || isHyphen c) && negb (isUpperAscii c).

Definition nonAlnum (c : codeunit) : bool := negb (isLowerAlnum c).

Definition normalUnit (c : codeunit) : bool := isLowerAlnum c || isHyphen c.

Local Close Scope N_scope.

(** [String.prototype.toLowerCase] follows the Unicode case tables of
    the engine, which are no part of this repository.  The development
    is parametric in it and relies on three facts only: on strings made
    of ASCII and white-space code units it lower-cases [A-Z] and copies
    the rest; it never produces [A-Z]; and lower-casing twice is
    lower-casing once. *)
Class CaseMapping := {
  toLowerCase : jsstring -> jsstring;
  toLowerCase_plain :
    forall s, forallb (fun c => isAscii c || isSpace c) s = true ->
              toLowerCase s = map asciiLower s;
  toLowerCase_no_upper :
    forall s, forallb (fun c => negb (isUpperAscii c)) (toLowerCase s) = true;
  toLowerCase_idem :
    forall s, toLowerCase (toLowerCase s) = toLowerCase s
}.

(** Length of the longest prefix of [s] within the class [p]. *)
Fixpoint runLength (p : codeunit -> bool) (s : jsstring) : nat :=
  match s with
  | c :: s' => if p c then S (runLength p s') else 0
  | [] => 0
  end.

(** [s.trim()] *)
Fixpoint trimStart (s : jsstring) : jsstring :=
  match s with
  | c :: s' => if isSpace c then trimStart s' else s
  | [] => []
  end.

Definition trimEnd (s : jsstring) : jsstring := rev (trimStart (rev s)).

Definition trim (s : jsstring) : jsstring := trimEnd (trimStart s).

(** The regular expressions that the sources use, without flags other
    than [g]: a character class, a class under [+], the anchors,
    sequence and alternation. *)
Inductive regex :=
| Class (p : codeunit -> bool)
| Plus (p : codeunit -> bool)
| Bol
| Eol
| Seq (r1 r2 : regex)
| Alt (r1 r2 : regex).

(** Greedy [+] with backtracking: take as many code units of the class
    as possible, and give back one at a time while the rest of the
    pattern, the continuation [k], fails.  [pos] is the index of the
    next code unit in the whole subject string. *)
Fixpoint plusK (p : codeunit -> bool) (pos : nat) (s : jsstring)
         (k : nat -> jsstring -> option nat) : option nat :=
  match s with
  | c :: s' =>
      if p c then
        match plusK p (S pos) s' k with
        | Some e => Some e
        | None => k (S pos) s'
        end
      else None
  | [] => None
  end.

(** Backtracking matcher; the result is the index where the match
    ends. *)
Fixpoint matchK (r : regex) (pos : nat) (s : jsstring)
         (k : nat -> jsstring -> option nat) : option nat :=
  match r with
  | Class p =>
      match s with
      | c :: s' => if p c then k (S pos) s' else None
      | [] => None
      end
  | Plus p => plusK p pos s k
  | Bol => match pos with 0 => k pos s | S _ => None end
  | Eol => match s with [] => k pos s | _ :: _ => None end
  | Seq r1 r2 => matchK r1 pos s (fun pos' s' => matchK r2 pos' s' k)
  | Alt r1 r2 =>
      match matchK r1 pos s k with
      | Some e => Some e
      | None => matchK r2 pos s k
      end
  end.

(** Length of the match of [r] that starts at index [pos], where [s] is
    the rest of the subject from there. *)
Definition matchLength (r : regex) (pos : nat) (s : jsstring) : option nat :=
  option_map (fun e => e - pos) (matchK r pos s (fun e _ => Some e)).

(** The scan of [subject.replace(/r/g, rep)] from index [pos] on, with
    [skip] code units of the previous match still to pass over.  The
    replacement strings of the sources hold no [$]. *)
Fixpoint replaceFrom (r : regex) (rep : jsstring) (pos skip : nat)
         (s : jsstring) : jsstring :=
  match s with
  | [] =>
      match matchLength r pos [] with
      | Some _ => rep
      | None => []
      end
  | c :: s' =>
      match skip with
      | S n => replaceFrom r rep (S pos) n s'
      | 0 =>
          match matchLength r pos s with
          | Some (S n) => rep ++ replaceFrom r rep (S pos) n s'
          | Some 0 => rep ++ c :: replaceFrom r rep (S pos) 0 s'
          | None => c :: replaceFrom r rep (S pos) 0 s'
          end
      end
  end.

Definition replaceAll (r : regex) (rep : jsstring) (s : jsstring) : jsstring :=
  replaceFrom r rep 0 0 s.

End Host.

Import Host.

(* ------------------------------------------------------------------ *)
(** ** game-url-loader.js: the normalizers *)
(* ------------------------------------------------------------------ *)

Module Normalizer.

Section WithCaseMapping.
Context {CM : CaseMapping}.

(** [/[^a-z0-9]+/g] *)
Definition reNonAlnumRun : regex := Plus (fun c => negb (isLowerAlnum c)).

(** [/^-+|-+$/g] *)
Definition reEdgeHyphens : regex :=
  Alt (Seq Bol (Plus isHyphen)) (Seq (Plus isHyphen) Eol).

(** [/[^\w\s-]/g] *)
Definition reSpecial : regex :=
  Class (fun c => negb (isWord c || isSpace c || isHyphen c)).

(** [/\s+/g] *)
Definition reSpaceRun : regex := Plus isSpace.

(** [/-+/g] *)
Definition reHyphenRun : regex := Plus isHyphen.

Definition makeUrlFriendly (str : jsstring) : jsstring :=
  if negb (truthy str) then []
  else
    trim
      (replaceAll reEdgeHyphens []
         (replaceAll reNonAlnumRun [HYPHEN]
            (toLowerCase str))).

Definition createSlug (str : jsstring) : jsstring :=
  if negb (truthy str) then []
  else
    replaceAll reEdgeHyphens []
      (replaceAll reHyphenRun [HYPHEN]
         (replaceAll reSpaceRun [HYPHEN]
            (replaceAll reSpecial []
               (trim (toLowerCase str))))).

End WithCaseMapping.

End Normalizer.

(* ------------------------------------------------------------------ *)
(** ** game-url-loader.js: the catalog table and the resolver *)
(* ------------------------------------------------------------------ *)

Module Catalog.

(** A game object as [JSON.parse] delivers it: its own string-valued
    properties in creation order.  (Properties that hold numbers or
    nested objects, such as [flashVars], are passed through by the code
    and are not represented.) *)
Definition game := list (jsstring * jsstring).

Fixpoint lookup {A : Type} (k : jsstring) (l : list (jsstring * A))
  : option A :=
  match l with
  | [] => None
  | (k', v) :: l' => if eqb k k' then Some v else lookup k l'
  end.

(** Defining an own property: an existing key keeps its place, a new
    key goes last. *)
Fixpoint update {A : Type} (k : jsstring) (v : A) (l : list (jsstring * A))
  : list (jsstring * A) :=
  match l with
  | [] => [(k, v)]
  | (k', v') :: l' =>
      if eqb k k' then (k', v) :: l' else (k', v') :: update k v l'
  end.

Definition ID : jsstring := js "id".
Definition NAME : jsstring := js "name".
Definition PROTO : jsstring := js "__proto__".
Definition NITROME_GAMES : jsstring := js "nitromeGames".

(** [if (game.id)], [if (game.name)]: present and not empty. *)
Definition truthyProp (g : game) (k : jsstring) : option jsstring :=
  match lookup k g with
  | Some s => if truthy s then Some s else None
  | None => None
  end.

(** Own property names that every ordinary object inherits from
    [Object.prototype] as functions; [__proto__] is inherited as an
    accessor. *)
Definition objectPrototypeMethods : list jsstring :=
  [ js "constructor"; js "__defineGetter__"; js "__defineSetter__";
    js "hasOwnProperty"; js "__lookupGetter__"; js "__lookupSetter__";
    js "isPrototypeOf"; js "propertyIsEnumerable"; js "toString";
    js "valueOf"; js "toLocaleString" ].

(** What [gamesData[key]] can evaluate to. *)
Inductive value :=
| VNull
| VUndefined
| VGame (g : game)
| VString (s : jsstring)
| VFunction (name : jsstring)
| VObjectPrototype.

Definition valueTruthy (v : value) : bool :=
  match v with
  | VNull | VUndefined => false
  | VString s => truthy s
  | VGame _ | VFunction _ | VObjectPrototype => true
  end.

(** The object [processedGames]: own properties in creation order, and
    its prototype, which is [Object.prototype] ([None]) unless an
    assignment to [__proto__] replaced it by a game object. *)
Record table := { own : list (jsstring * game); proto : option game }.

(** [{}] *)
Definition emptyTable : table := {| own := []; proto := None |}.

(** Property lookup on [Object.prototype] on behalf of an object whose
    prototype slot is [receiverProto]. *)
Definition objectPrototypeGet (receiverProto : option game) (k : jsstring)
  : value :=
  if eqb k PROTO then
    match receiverProto with
    | Some g => VGame g
    | None => VObjectPrototype
    end
  else if existsb (eqb k) objectPrototypeMethods then VFunction k
  else VUndefined.

(** [t[k]] *)
Definition tableGet (t : table) (k : jsstring) : value :=
  match lookup k (own t) with
  | Some g => VGame g
  | None =>
      match proto t with
      | Some p =>
          match lookup k p with
          | Some s => VString s
          | None => objectPrototypeGet (proto t) k
          end
      | None => objectPrototypeGet None k
      end
  end.

(** [t[k] = g]: an own property is overwritten in place; otherwise the
    property is created, except that the inherited [__proto__] setter
    takes the assignment and replaces the prototype. *)
Definition tableSet (t : table) (k : jsstring) (g : game) : table :=
  match lookup k (own t) with
  | Some _ => {| own := update k g (own t); proto := proto t |}
  | None =>
      let shadowed :=
        match proto t with
        | Some p => match lookup PROTO p with Some _ => true | None => false end
        | None => false
        end in
      if eqb k PROTO && negb shadowed
      then {| own := own t; proto := Some g |}
      else {| own := own t ++ [(k, g)]; proto := proto t |}
  end.

(** What an assignment to the table does to the entry filed under
    [k]: it is found among the own properties, or, for [__proto__], in
    the prototype slot. *)
Definition filed (t : table) (k : jsstring) (g : game) : Prop :=
  lookup k (own t) = Some g
  \/ (k = PROTO /\ lookup k (own t) = None /\ proto t = Some g).

(** A key is an array index when it is the canonical decimal form of an
    integer below 2^32 - 1; such keys are enumerated first, in numeric
    order. *)
Definition arrayIndex (k : jsstring) : option N :=
  match k with
  | [] => None
  | c :: rest =>
      if forallb isDigit k
         && (negb (N.eqb c 48) || match rest with [] => true | _ => false end)
      then
        let n := fold_left (fun acc d => (acc * 10 + (d - 48))%N) k 0%N in
        if N.leb n 4294967294 then Some n else None
      else None
  end.

Fixpoint insertIndexed {A : Type} (i : N) (e : A) (l : list (N * A))
  : list (N * A) :=
  match l with
  | [] => [(i, e)]
  | (j, e') :: l' =>
      if N.leb i j then (i, e) :: l else (j, e') :: insertIndexed i e l'
  end.

Fixpoint indexedEntries {A : Type} (l : list (jsstring * A))
  : list (N * (jsstring * A)) :=
  match l with
  | [] => []
  | (k, v) :: l' =>
      match arrayIndex k with
      | Some i => insertIndexed i (k, v) (indexedEntries l')
      | None => indexedEntries l'
      end
  end.

(** [Object.entries(o)] for the own properties [l] of [o]. *)
Definition entries {A : Type} (l : list (jsstring * A))
  : list (jsstring * A) :=
  map snd (indexedEntries l)
  ++ filter (fun e => match arrayIndex (fst e) with
                      | Some _ => false
                      | None => true
                      end) l.

(** The parsed [games.json].  An object document lists its members in
    enumeration order; a member is an array of games, a single object,
    [null], or a primitive, of which only the truthiness matters. *)
Inductive member :=
| MArray (games : list game)
| MObject (g : game)
| MNull
| MPrimitive (isTruthy : bool).

Inductive document :=
| DocArray (games : list game)
| DocObject (members : list (jsstring * member)).

(** The outcome of [fetch] followed by [response.json()]. *)
Inductive response :=
| Failed
| Ok (jsonData : document).

Definition memberTruthy (m : member) : bool :=
  match m with
  | MArray _ | MObject _ => true
  | MNull => false
  | MPrimitive b => b
  end.

(** [jsonData.nitromeGames] being truthy. *)
Definition hasNitromeGames (jsonData : document) : bool :=
  match jsonData with
  | DocArray _ => false
  | DocObject ms =>
      match lookup NITROME_GAMES ms with
      | Some m => memberTruthy m
      | None => false
      end
  end.

(** [{ id: id, ...game }] when [typeof game === 'object'].  Spreading an
    array copies its elements under index keys; they are objects, not
    strings, and are left out here. *)
Definition withId (id : jsstring) (m : member) : option game :=
  match m with
  | MObject g =>
      Some (fold_left (fun acc kv => update (fst kv) (snd kv) acc) g [(ID, id)])
  | MArray _ | MNull => Some [(ID, id)]
  | MPrimitive _ => None
  end.

Section WithCaseMapping.
Context {CM : CaseMapping}.

(** [if (game.id) processedGames[game.id.toLowerCase()] = game] *)
Definition addGame (t : table) (g : game) : table :=
  match truthyProp g ID with
  | Some i => tableSet t (toLowerCase i) g
  | None => t
  end.

Definition addGames (t : table) (games : list game) : table :=
  fold_left addGame games t.

(** Case 1: direct object with game ids as keys. *)
Definition case1 (jsonData : document) (t : table) : table :=
  match jsonData with
  | DocArray _ => t
  | DocObject ms =>
      if hasNitromeGames jsonData then t
      else
        fold_left
          (fun acc kv =>
             match withId (fst kv) (snd kv) with
             | Some g => tableSet acc (toLowerCase (fst kv)) g
             | None => acc
             end)
          ms t
  end.

(** Case 2: the [nitromeGames] array. *)
Definition case2 (jsonData : document) (t : table) : table :=
  match jsonData with
  | DocArray _ => t
  | DocObject ms =>
      match lookup NITROME_GAMES ms with
      | Some (MArray games) => addGames t games
      | _ => t
      end
  end.

(** Case 3: the other arrays of the document.  The elements of an array
    document are games, not arrays, so nothing is added for it. *)
Definition case3 (jsonData : document) (t : table) : table :=
  match jsonData with
  | DocArray _ => t
  | DocObject ms =>
      fold_left
        (fun acc collectionKey =>
           if negb (eqb collectionKey NITROME_GAMES) then
             match lookup collectionKey ms with
             | Some (MArray games) => addGames acc games
             | _ => acc
             end
           else acc)
        (map fst ms) t
  end.

(** Case 4: the document is an array of games. *)
Definition case4 (jsonData : document) (t : table) : table :=
  match jsonData with
  | DocArray games => addGames t games
  | DocObject _ => t
  end.

Definition processGames (jsonData : document) : table :=
  case4 jsonData (case3 jsonData (case2 jsonData (case1 jsonData emptyTable))).

Definition loadGamesData (r : response) : option table :=
  match r with
  | Failed => None
  | Ok jsonData =>
      let processedGames := processGames jsonData in
      match length (own processedGames) with
      | 0 => None
      | S _ => Some processedGames
      end
  end.

Definition idMatches (g : game) (searchName : jsstring) : bool :=
  match truthyProp g ID with
  | Some i => eqb (toLowerCase i) searchName
  | None => false
  end.

Definition nameMatches (g : game) (searchName : jsstring) : bool :=
  match truthyProp g NAME with
  | Some n => eqb (Normalizer.makeUrlFriendly n) searchName
  | None => false
  end.

(** The [for ... of Object.entries(gamesData)] loop. *)
Fixpoint findLoop (searchName : jsstring) (es : list (jsstring * game))
  : value :=
  match es with
  | [] => VNull
  | (_, g) :: rest =>
      if idMatches g searchName then VGame g
      else if nameMatches g searchName then VGame g
      else findLoop searchName rest
  end.

Definition findGameByUrlName (gamesData : option table) (urlName : jsstring)
  : value :=
  match gamesData with
  | None => VNull
  | Some t =>
      if negb (truthy urlName) then VNull
      else
        let searchName := toLowerCase urlName in
        if valueTruthy (tableGet t searchName) then tableGet t searchName
        else findLoop searchName (entries (own t))
  end.

(** The key under which a game is filed, if it has an id. *)
Definition keyOf (g : game) : option jsstring :=
  option_map toLowerCase (truthyProp g ID).

Definition hasKey (k : jsstring) (g : game) : bool :=
  match keyOf g with
  | Some k' => eqb k' k
  | None => false
  end.

(** The games of the arrays of a document, in the order in which
    [loadGamesData] goes through them. *)
Definition arrayGames (jsonData : document) : list game :=
  match jsonData with
  | DocArray games => games
  | DocObject ms =>
      match lookup NITROME_GAMES ms with
      | Some (MArray games) => games
      | _ => []
      end
      ++ flat_map
           (fun collectionKey =>
              if negb (eqb collectionKey NITROME_GAMES) then
                match lookup collectionKey ms with
                | Some (MArray games) => games
                | _ => []
                end
              else [])
           (map fst ms)
  end.

(** The last game of a list that is filed under [k]. *)
Definition lastWithKey (k : jsstring) (games : list game) : option game :=
  fold_left (fun acc g => if hasKey k g then Some g else acc) games None.

(** Every entry of the table is stored under its lower-cased id, and
    the table still has the prototype of an object literal. *)
Definition keyed (t : table) : bool :=
  match proto t with
  | None => forallb (fun e => hasKey (fst e) (snd e)) (own t)
  | Some _ => false
  end.

(** Names that an object literal inherits. *)
Definition inherited (k : jsstring) : bool :=
  eqb k PROTO || existsb (eqb k) objectPrototypeMethods.

End WithCaseMapping.

End Catalog.

(* ------------------------------------------------------------------ *)
(** ** game-url-loader.js: the enhancer *)
(* ------------------------------------------------------------------ *)

Module Enhancer.

Import Catalog.

(** [CONFIG.CACHE_EXPIRATION] *)
Definition CACHE_EXPIRATION : Z := 24 * 60 * 60 * 1000.

(** The entries of [localStorage] that the enhancer reads and writes.
    Each item is kept as the value that its JSON text denotes: the
    recently played ids, the catalog table with its games, and the
    decimal epoch milliseconds that [cacheGamesData] writes. *)
Record storage := {
  recentlyPlayedItem : option (list jsstring);
  gamesDataItem : option (list (jsstring * game));
  cacheTimestampItem : option Z
}.

(** [recentlyPlayed.pop()] *)
Definition pop (l : list jsstring) : list jsstring := removelast l.

Definition addToRecentlyPlayed (gameId : jsstring) (ls : storage) : storage :=
  let recentlyPlayed :=
    match recentlyPlayedItem ls with
    | Some l => l
    | None => []
    end in
  let recentlyPlayed := filter (fun id => negb (eqb id gameId)) recentlyPlayed in
  let recentlyPlayed := gameId :: recentlyPlayed in
  let recentlyPlayed :=
    if Nat.ltb 10 (length recentlyPlayed) then pop recentlyPlayed
    else recentlyPlayed in
  {| recentlyPlayedItem := Some recentlyPlayed;
     gamesDataItem := gamesDataItem ls;
     cacheTimestampItem := cacheTimestampItem ls |}.

(** [getCachedGamesData], at time [now] ([Date.now()]). *)
Definition getCachedGamesData (ls : storage) (now : Z)
  : option (list (jsstring * game)) :=
  match cacheTimestampItem ls with
  | None => None
  | Some timestamp =>
      if Z.ltb CACHE_EXPIRATION (now - timestamp) then None
      else gamesDataItem ls
  end.

(** Objects have identity: the catalog table and the objects handed out
    by [getGames] live in a heap, and a table refers to its games by
    address. *)
Definition ref := nat.

Inductive object :=
| OGame (g : game)
| OTable (props : list (jsstring * ref)).

Definition heap := list object.

Definition alloc (h : heap) (o : object) : ref * heap :=
  (length h, h ++ [o]).

(** [{ ...o }]: a new object with the own properties of [o], in
    enumeration order, holding the same references. *)
Definition spread (h : heap) (r : ref) : option (ref * heap) :=
  match nth_error h r with
  | Some (OTable props) => Some (alloc h (OTable (entries props)))
  | Some (OGame _) | None => None
  end.

(** The loader's [gamesData] variable. *)
Record loader := { objects : heap; gamesData : option ref }.

(** [getGames: () => gamesData ? {...gamesData} : null] *)
Definition getGames (st : loader) : option ref * loader :=
  match gamesData st with
  | None => (None, st)
  | Some r =>
      match spread (objects st) r with
      | Some (r', h') => (Some r', {| objects := h'; gamesData := gamesData st |})
      | None => (None, st)
      end
  end.

(** [JSON.parse(cachedData)]: every game and then the table are new
    objects. *)
Fixpoint parseGames (h : heap) (l : list (jsstring * game))
  : list (jsstring * ref) * heap :=
  match l with
  | [] => ([], h)
  | (k, g) :: l' =>
      let (r, h1) := alloc h (OGame g) in
      let (props, h2) := parseGames h1 l' in
      ((k, r) :: props, h2)
  end.

Definition parseTable (h : heap) (l : list (jsstring * game)) : ref * heap :=
  let (props, h1) := parseGames h l in
  alloc h1 (OTable props).

(** The enhancer's [getGames], which prefers the cached catalog. *)
Definition getGamesEnhanced (ls : storage) (now : Z) (st : loader)
  : option ref * loader :=
  match getCachedGamesData ls now with
  | Some cached =>
      let (c, h1) := parseTable (objects st) cached in
      match spread h1 c with
      | Some (r', h') => (Some r', {| objects := h'; gamesData := gamesData st |})
      | None => (None, st)
      end
  | None => getGames st
  end.

(** What a caller can do to the object it was handed: assign a
    property, or delete one. *)
Inductive mutation :=
| Assign (k : jsstring) (v : ref)
| Delete (k : jsstring).

Definition mutate (props : list (jsstring * ref)) (m : mutation)
  : list (jsstring * ref) :=
  match m with
  | Assign k v => update k v props
  | Delete k => filter (fun kv => negb (eqb (fst kv) k)) props
  end.

Fixpoint setObject (h : heap) (r : ref) (o : object) : heap :=
  match h, r with
  | [], _ => []
  | _ :: h', 0 => o :: h'
  | x :: h', S r' => x :: setObject h' r' o
  end.

Definition mutateAt (r : ref) (h : heap) (m : mutation) : heap :=
  match nth_error h r with
  | Some (OTable props) => setObject h r (OTable (mutate props m))
  | Some (OGame _) | None => h
  end.

(** A heap [h'] extends [h] by a table at address [r]. *)
Definition extendsAt (h h' : heap) (r : ref) : Prop :=
  r = length h
  /\ (forall a, a <> r -> nth_error h' a = nth_error h a)
  /\ exists props, nth_error h' r = Some (OTable props).

(** The catalog as the resolver sees it through [gamesData]. *)
Definition derefGames (h : heap) (props : list (jsstring * ref))
  : list (jsstring * game) :=
  flat_map (fun kv => match nth_error h (snd kv) with
                      | Some (OGame g) => [(fst kv, g)]
                      | _ => []
                      end) props.

Definition catalogOf (st : loader) : option table :=
  match gamesData st with
  | None => None
  | Some r =>
      match nth_error (objects st) r with
      | Some (OTable props) =>
          Some {| own := derefGames (objects st) props; proto := None |}
      | _ => None
      end
  end.

(** Nothing dangles: the catalog table is in the heap, and so are the
    objects its properties refer to. *)
Definition closed (st : loader) : Prop :=
  forall r,
    gamesData st = Some r ->
    r < length (objects st)
    /\ forall props kv,
        nth_error (objects st) r = Some (OTable props) ->
        In kv props -> snd kv < length (objects st).

End Enhancer.

(* ------------------------------------------------------------------ *)
(** ** script.js: loading a game into the page *)
(* ------------------------------------------------------------------ *)

Module Page.

Import Catalog.

Definition PATH : jsstring := js "path".

(** What [rufflePlayer] shows. *)
Inductive content :=
| Blank
| ErrorMessage (key : jsstring) (detail : jsstring)
| PlayerElement (url : option jsstring).

(** What [updateInfoPanel] last wrote. *)
Inductive info :=
| DefaultInfo
| GameInfo (displayName : jsstring) (swfPath : option jsstring).

Record page := {
  nitromeGames : list game;
  currentGame : option jsstring;
  currentPlayer : option (option jsstring);
  rufflePlayer : content;
  infoPanel : info
}.

(** [nitromeGames.find(g => g.id === gameId)] *)
Definition findGame (games : list game) (gameId : jsstring) : option game :=
  find (fun g => match lookup ID g with
                 | Some i => eqb i gameId
                 | None => false
                 end) games.

(** [/_/g] *)
Definition reUnderscore : regex := Class (fun c => N.eqb c UNDERSCORE).

Definition updateInfoPanel (gameId : jsstring) (gamePath gameName : option jsstring)
  : info :=
  if negb (truthy gameId) then DefaultInfo
  else
    let displayName :=
      match gameName with
      | Some n => if truthy n then n else replaceAll reUnderscore [32%N] gameId
      | None => replaceAll reUnderscore [32%N] gameId
      end in
    GameInfo displayName gamePath.

(** The local variables of a [loadGame] call that is suspended at
    [await fetch(gamePath, { method: 'HEAD' })]. *)
Record suspended := {
  gameId : jsstring;
  gameName : option jsstring;
  gamePath : option jsstring
}.

(** [loadGame] up to its [await]. *)
Definition loadGameStart (id : jsstring) (p : page) : page * option suspended :=
  match findGame (nitromeGames p) id with
  | None =>
      ({| nitromeGames := nitromeGames p;
          currentGame := currentGame p;
          currentPlayer := currentPlayer p;
          rufflePlayer := ErrorMessage (js "gameNotFound") id;
          infoPanel := infoPanel p |}, None)
  | Some game =>
      ({| nitromeGames := nitromeGames p;
          currentGame := Some id;
          currentPlayer := currentPlayer p;
          rufflePlayer := rufflePlayer p;
          infoPanel := infoPanel p |},
       Some {| gameId := id;
               gameName := lookup NAME game;
               gamePath := lookup PATH game |})
  end.

(** How the existence check ends, and whether the emulator could then
    create a player. *)
Inductive outcome :=
| HeadOk (playerCreated : bool)
| HeadNotOk
| HeadFailed.

Definition orEmpty (o : option jsstring) : jsstring :=
  match o with Some s => s | None => js "undefined" end.

(** [loadGame] from its [await] to the end. *)
Definition loadGameResume (k : suspended) (r : outcome) (p : page) : page :=
  let showing c :=
    {| nitromeGames := nitromeGames p;
       currentGame := currentGame p;
       currentPlayer := currentPlayer p;
       rufflePlayer := c;
       infoPanel := infoPanel p |} in
  match r with
  | HeadNotOk => showing (ErrorMessage (js "fileNotFound") (orEmpty (gameName k)))
  | HeadFailed => showing (ErrorMessage (js "errorAccessing") (orEmpty (gameName k)))
  | HeadOk false => showing (ErrorMessage (js "failedInit") [])
  | HeadOk true =>
      {| nitromeGames := nitromeGames p;
         currentGame := currentGame p;
         currentPlayer := Some (gamePath k);
         rufflePlayer := PlayerElement (gamePath k);
         infoPanel := updateInfoPanel (gameId k) (gamePath k) (gameName k) |}
  end.

(** The page together with the calls of [loadGame] that are suspended;
    a call is known by the order in which it was issued. *)
Record world := { shown : page; inflight : list (option suspended) }.

Inductive event :=
| Navigate (id : jsstring)
| Complete (call : nat) (r : outcome).

Fixpoint clear (l : list (option suspended)) (n : nat)
  : list (option suspended) :=
  match l, n with
  | [], _ => []
  | _ :: l', 0 => None :: l'
  | x :: l', S n' => x :: clear l' n'
  end.

Definition step (w : world) (e : event) : world :=
  match e with
  | Navigate id =>
      let (p, k) := loadGameStart id (shown w) in
      {| shown := p; inflight := inflight w ++ [k] |}
  | Complete n r =>
      match nth_error (inflight w) n with
      | Some (Some k) =>
          {| shown := loadGameResume k r (shown w);
             inflight := clear (inflight w) n |}
      | _ => w
      end
  end.

Definition run (w : world) (es : list event) : world := fold_left step es w.

End Page.

(* ------------------------------------------------------------------ *)
(** ** The design document's wording *)
(* ------------------------------------------------------------------ *)

Module Spec.

(** Every maximal run of code units of the class [p] becomes one copy
    of [sep]; [inRun] tells that the run has already begun. *)
Fixpoint collapseRuns (p : codeunit -> bool) (sep : jsstring) (inRun : bool)
         (s : jsstring) : jsstring :=
  match s with
  | [] => []
  | c :: s' =>
      if p c then
        if inRun then collapseRuns p sep true s'
        else sep ++ collapseRuns p sep true s'
      else c :: collapseRuns p sep false s'
  end.

Fixpoint dropWhile (p : codeunit -> bool) (s : jsstring) : jsstring :=
  match s with
  | [] => []
  | c :: s' => if p c then dropWhile p s' else s
  end.

Fixpoint dropWhileEnd (p : codeunit -> bool) (s : jsstring) : jsstring :=
  match s with
  | [] => []
  | c :: s' =>
      match dropWhileEnd p s' with
      | [] => if p c then [] else [c]
      | t => c :: t
      end
  end.

(** Leading and trailing separators are stripped. *)
Definition stripSeparators (s : jsstring) : jsstring :=
  dropWhileEnd isHyphen (dropWhile isHyphen s).

(** The runs of the class [p] in [s] are single hyphens; [inRun] tells
    that [s] follows one. *)
Fixpoint singleHyphens (p : codeunit -> bool) (inRun : bool) (s : jsstring)
  : bool :=
  match s with
  | [] => true
  | c :: s' =>
      if p c then negb inRun && N.eqb c HYPHEN && singleHyphens p true s'
      else singleHyphens p false s'
  end.

Definition whitespaceOnly (s : jsstring) : Prop :=
  forallb isSpace s = true.

Section WithCaseMapping.
Context {CM : CaseMapping}.

(** "Lower-case the input; replace every maximal run of characters
    outside [a-z0-9] with a single separator character; strip
    leading/trailing separators." *)
Definition normalize (input : jsstring) : jsstring :=
  stripSeparators
    (collapseRuns (fun c => negb (isLowerAlnum c)) [HYPHEN] false
       (toLowerCase input)).

(** What [createSlug] does instead: lower-case and trim; delete what is
    neither a word character, white space nor a hyphen; turn each run
    of white space into a hyphen and each run of hyphens into one;
    strip leading and trailing hyphens. *)
Definition slug (input : jsstring) : jsstring :=
  stripSeparators
    (collapseRuns isHyphen [HYPHEN] false
       (collapseRuns isSpace [HYPHEN] false
          (filter (fun c => isWord c || isSpace c || isHyphen c)
             (trim (toLowerCase input))))).

(** "1. Exact case-insensitive match against each entry's id.
     2. normalize(rawKey) == normalize(entry.displayName) for each
        entry, in catalog declaration order.  Returns NotFound if no
        entry matches." *)
Definition resolve (rawKey : jsstring) (catalog : list Catalog.game)
  : option Catalog.game :=
  match find (fun e => match Catalog.lookup Catalog.ID e with
                       | Some i => eqb (toLowerCase i) (toLowerCase rawKey)
                       | None => false
                       end) catalog with
  | Some e => Some e
  | None =>
      find (fun e => match Catalog.lookup Catalog.NAME e with
                     | Some n => eqb (normalize rawKey) (normalize n)
                     | None => false
                     end) catalog
  end.

End WithCaseMapping.

End Spec.

(* ------------------------------------------------------------------ *)
(** ** Sample data *)
(* ------------------------------------------------------------------ *)

Module Sample.

Import Catalog.

(** The catalog of the loader's README, with a second game. *)
Definition aquanaut : game :=
  [(js "id", js "Aquanaut"); (js "name", js "Aquanaut");
   (js "path", js "https://cdn.xperia.pt/nitrone-games/Aquanaut.swf")].

Definition badIceCream : game :=
  [(js "id", js "bic"); (js "name", js "Bad Ice Cream");
   (js "path", js "https://cdn.xperia.pt/nitrone-games/bic.swf")].

(** A later entry with the id of [aquanaut] in capitals. *)
Definition aquanautAgain : game :=
  [(js "id", js "AQUANAUT"); (js "name", js "Aquanaut (mirror)")].

(** An entry without an id. *)
Definition nameless : game := [(js "name", js "No id")].

Definition gamesJson : document :=
  DocObject [(js "nitromeGames", MArray [aquanaut; badIceCream])].

Definition gamesJsonWithDuplicate : document :=
  DocObject [(js "nitromeGames", MArray [aquanaut; nameless]);
             (js "more", MArray [badIceCream; aquanautAgain])].

(** An address in which a rule's [from] occurs twice. *)
Definition faqTwice : jsstring :=
  js "https://jogos.ipv7.pt/faq.swf?next=https://jogos.ipv7.pt/faq.swf".

Definition pageWithTwoGames : Page.page :=
  {| Page.nitromeGames := [aquanaut; badIceCream];
     Page.currentGame := None;
     Page.currentPlayer := None;
     Page.rufflePlayer := Page.Blank;
     Page.infoPanel := Page.DefaultInfo |}.

Definition storageWithCache : Enhancer.storage :=
  {| Enhancer.recentlyPlayedItem := Some [js "bic"; js "Aquanaut"];
     Enhancer.gamesDataItem := Some [(js "aquanaut", aquanaut)];
     Enhancer.cacheTimestampItem := Some 1000%Z |}.

(** A loader whose catalog holds [aquanaut]. *)
Definition loadedLoader : Enhancer.loader :=
  {| Enhancer.objects :=
       [Enhancer.OGame aquanaut; Enhancer.OTable [(js "aquanaut", 0)]];
     Enhancer.gamesData := Some 1 |}.

End Sample.

(* ------------------------------------------------------------------ *)
(** ** redirector.js: the interception points, and the Nitrome patch *)
(* ------------------------------------------------------------------ *)

Module Patches.

Import Redirector.

(** A [Request] object: its identity and its [url]. *)
Record request := { requestId : nat; requestUrl : jsstring }.

(** The first argument of [fetch]: a string, a [Request], or anything
    else, of which only the truthiness matters. *)
Inductive resource :=
| RString (s : jsstring)
| RRequest (r : request)
| ROther (isTruthy : bool).

(** [redirectUrl(s)] for a string [s], which is a string again. *)
Definition redirected (s : jsstring) : jsstring :=
  match redirectUrl (Str s) with
  | Str s' => s'
  | NotAString _ => s
  end.

(** The patched [window.fetch]: what it hands to the original [fetch].
    [fresh] is the identity of the [Request] that [new Request] would
    create, which is taken to report the address it was created
    with. *)
Definition patchedFetch (fresh : nat) (res : resource) : resource :=
  match res with
  | RString s => if truthy s then RString (redirected s) else res
  | RRequest r =>
      let newUrl := redirected (requestUrl r) in
      if negb (eqb newUrl (requestUrl r))
      then RRequest {| requestId := fresh; requestUrl := newUrl |}
      else res
  | ROther _ => res
  end.

(** The address that a request for [res] goes to, where it has one. *)
Definition resourceUrl (res : resource) : option jsstring :=
  match res with
  | RString s => Some s
  | RRequest r => Some (requestUrl r)
  | ROther _ => None
  end.

(** [patchExistingElements] on the [src] attribute of one [embed] (or
    the [data] attribute of one [object]); [None] is a missing
    attribute.  The second component tells whether [setAttribute] was
    called. *)
Definition patchAttribute (original : option jsstring)
  : option jsstring * bool :=
  match original with
  | Some originalSrc =>
      if truthy originalSrc then
        let newSrc := redirected originalSrc in
        if negb (eqb newSrc originalSrc) then (Some newSrc, true)
        else (original, false)
      else (original, false)
  | None => (None, false)
  end.

(** Some rule of the table applies to the address. *)
Definition covered (s : jsstring) : Prop :=
  exists m, In m urlMappings /\ occursIn (from m) s.

(** The Nitrome patch module: the address that its [open], its [src]
    setter and, for a string, its [fetch] pass on. *)
Definition NITROME_FROM : jsstring :=
  js "https://cdn.nitrome.com/components/NitromeAPI.pkg".

Definition NITROME_TO : jsstring := js "https://cdn.xperia.pt/NitromeAPI.pkg".

Definition nitromePatchUrl (url : address) : address :=
  match url with
  | Str s =>
      if includes s NITROME_FROM then Str (replace s NITROME_FROM NITROME_TO)
      else url
  | NotAString _ => url
  end.

End Patches.

(* ------------------------------------------------------------------ *)
(** ** More of the host: [split] and [encodeURIComponent] *)
(* ------------------------------------------------------------------ *)

Module UrlHost.

(** The scan of [s.split(sep)] for a non-empty [sep], with [skip] code
    units of the separator just found still to pass over; the head of
    the result is the piece being read. *)
Fixpoint splitFrom (sep : jsstring) (skip : nat) (s : jsstring)
  : list jsstring :=
  match s with
  | [] => [[]]
  | c :: s' =>
      match skip with
      | S n => splitFrom sep n s'
      | 0 =>
          if startsWith s sep then [] :: splitFrom sep (length sep - 1) s'
          else
            match splitFrom sep 0 s' with
            | piece :: pieces => (c :: piece) :: pieces
            | [] => [[c]]
            end
      end
  end.

(** [s.split(sep)]; with an empty separator the string falls apart
    into its code units. *)
Definition split (s sep : jsstring) : list jsstring :=
  match sep with
  | [] => map (fun c => [c]) s
  | _ :: _ => splitFrom sep 0 s
  end.

Local Open Scope N_scope.

(** The characters that [encodeURIComponent] leaves alone:
    [A-Z a-z 0-9 - _ . ! ~ * ' ( )]. *)
Definition isUnreserved (c : codeunit) : bool :=
  isUpperAscii c || isLowerAscii c || isDigit c
  || N.eqb c 45 || N.eqb c 95 || N.eqb c 46 || N.eqb c 33
  || N.eqb c 126 || N.eqb c 42 || N.eqb c 39 || N.eqb c 40 || N.eqb c 41.

Definition isHighSurrogate (c : codeunit) : bool := inRange 55296 56319 c.
Definition isLowSurrogate (c : codeunit) : bool := inRange 56320 57343 c.

Definition hexDigit (n : N) : codeunit :=
  if N.ltb n 10 then 48 + n else 55 + n.

(** [%XX] for one octet. *)
Definition percent (octet : N) : jsstring :=
  [37; hexDigit (octet / 16); hexDigit (octet mod 16)].

(** The UTF-8 octets of a code point. *)
Definition utf8 (cp : N) : list N :=
  if N.ltb cp 128 then [cp]
  else if N.ltb cp 2048 then [192 + cp / 64; 128 + cp mod 64]
  else if N.ltb cp 65536 then
    [224 + cp / 4096; 128 + (cp / 64) mod 64; 128 + cp mod 64]
  else
    [240 + cp / 262144; 128 + (cp / 4096) mod 64;
     128 + (cp / 64) mod 64; 128 + cp mod 64].

Definition codePoint (high low : codeunit) : N :=
  (high - 55296) * 1024 + (low - 56320) + 65536.

Local Close Scope N_scope.

(** [encodeURIComponent(s)]; [None] is the [URIError] that an unpaired
    surrogate raises. *)
Fixpoint encodeURIComponent (s : jsstring) : option jsstring :=
  match s with
  | [] => Some []
  | c :: s' =>
      if isUnreserved c then option_map (cons c) (encodeURIComponent s')
      else if isHighSurrogate c then
        match s' with
        | d :: s'' =>
            if isLowSurrogate d then
              option_map (app (flat_map percent (utf8 (codePoint c d))))
                         (encodeURIComponent s'')
            else None
        | [] => None
        end
      else if isLowSurrogate c then None
      else option_map (app (flat_map percent (utf8 c)))
                      (encodeURIComponent s')
  end.

(** ASCII white space of the HTML standard: tab, line feed, form feed,
    carriage return and space. *)
Definition isAsciiWhitespace (c : codeunit) : bool :=
  N.eqb c 9 || N.eqb c 10 || N.eqb c 12 || N.eqb c 13 || N.eqb c 32.

(** Every run of ASCII white space becomes one space; [inRun] tells
    that the code unit before was white space. *)
Fixpoint collapseWhitespace (inRun : bool) (s : jsstring) : jsstring :=
  match s with
  | [] => []
  | c :: s' =>
      if isAsciiWhitespace c then
        if inRun then collapseWhitespace true s'
        else 32%N :: collapseWhitespace true s'
      else c :: collapseWhitespace false s'
  end.

Fixpoint stripLeading (s : jsstring) : jsstring :=
  match s with
  | [] => []
  | c :: s' => if isAsciiWhitespace c then stripLeading s' else s
  end.

Fixpoint stripTrailing (s : jsstring) : jsstring :=
  match s with
  | [] => []
  | c :: s' =>
      match stripTrailing s' with
      | [] => if isAsciiWhitespace c then [] else [c]
      | t => c :: t
      end
  end.

(** "Strip and collapse ASCII whitespace" of the HTML standard. *)
Definition stripAndCollapse (s : jsstring) : jsstring :=
  stripLeading (stripTrailing (collapseWhitespace false s)).

End UrlHost.

(* ------------------------------------------------------------------ *)
(** ** game-url-loader.js: from the address bar to a game and back *)
(* ------------------------------------------------------------------ *)

Module Loader.

Import Catalog UrlHost.

(** [CONFIG.defaultGame] *)
Definition defaultGame : jsstring := [].

Definition SLASH : jsstring := js "/".

(** A string without [/]. *)
Definition noSlash (s : jsstring) : bool :=
  forallb (fun c => negb (N.eqb c 47)) s.

(** [getGameNameFromUrl], given [window.location.pathname]. *)
Definition getGameNameFromUrl (path : jsstring) : jsstring :=
  let pathParts :=
    filter (fun part => negb (eqb (trim part) [])) (split path SLASH) in
  match pathParts with
  | gameName :: _ => if truthy gameName then gameName else defaultGame
  | [] => defaultGame
  end.

(** The page title.  In an HTML document with a [title] element (or
    a [head], where the setter makes one) the setter of
    [document.title] replaces the text of the element, and the getter
    gives that text with its ASCII white space stripped and
    collapsed.  The state is the text of the element. *)
Definition documentTitle (text : jsstring) : jsstring :=
  stripAndCollapse text.

(** The page title that the loader's [loadGame] sets:
    [`${game.name} - ${document.title.split(' - ')[1] || 'Flash Games'}`],
    if the game has a name. *)
Definition TITLE_SEPARATOR : jsstring := js " - ".

(** [title.split(' - ')[1] || 'Flash Games'] *)
Definition siteName (title : jsstring) : jsstring :=
  match split title TITLE_SEPARATOR with
  | _ :: second :: _ => if truthy second then second else js "Flash Games"
  | _ => js "Flash Games"
  end.

(** The text of the [title] element after [loadGame] has shown [g]. *)
Definition retitle (text : jsstring) (g : game) : jsstring :=
  match truthyProp g NAME with
  | Some name => name ++ TITLE_SEPARATOR ++ siteName (documentTitle text)
  | None => text
  end.

(** A name that is not blank and that, with its white space stripped
    and collapsed, neither contains [" - "] nor ends in [" -"]. *)
Definition cleanName (name : jsstring) : bool :=
  truthy (documentTitle name)
  && negb (includes (documentTitle name ++ js " -") TITLE_SEPARATOR).

(** What [GameUrlLoader.getGameUrl] comes to: [null], an address, or
    the [URIError] of [encodeURIComponent]. *)
Inductive link :=
| NoLink
| Link (url : jsstring)
| UriError.

(** [game.id] of whatever the resolver returned, as the template string
    prints it. *)
Definition idText (v : value) : jsstring :=
  match v with
  | VGame g =>
      match lookup ID g with
      | Some i => i
      | None => js "undefined"
      end
  | _ => js "undefined"
  end.

Section WithCaseMapping.
Context {CM : CaseMapping}.

(** [getGameUrl]; [origin] is [window.location.origin]. *)
Definition getGameUrl (origin : jsstring) (gamesData : option table)
           (gameId : jsstring) : link :=
  let game := findGameByUrlName gamesData gameId in
  if valueTruthy game then
    match encodeURIComponent (idText game) with
    | Some encoded => Link (origin ++ SLASH ++ encoded)
    | None => UriError
    end
  else NoLink.

(** [loadGameFromUrl], given [window.location.pathname], the loader's
    [gamesData] and what the download of the catalog would bring: the
    new [gamesData], and the game handed to [loadGame], if any. *)
Definition loadGameFromUrl (path : jsstring) (gamesData : option table)
           (r : response) : option table * option value :=
  let urlGameName := getGameNameFromUrl path in
  if negb (truthy urlGameName) then (gamesData, None)
  else
    let gamesData' :=
      match gamesData with
      | Some _ => gamesData
      | None => loadGamesData r
      end in
    match gamesData' with
    | None => (None, None)
    | Some _ =>
        let game := findGameByUrlName gamesData' urlGameName in
        if valueTruthy game then (gamesData', Some game)
        else (gamesData', None)
    end.

End WithCaseMapping.

End Loader.

(* ------------------------------------------------------------------ *)
(** ** game-url-loader.js: more of the enhancer *)
(* ------------------------------------------------------------------ *)

Module EnhancerMore.

Import Catalog Enhancer.

(** [JSON.stringify] followed by [JSON.parse] on a table of games:
    the own properties, in enumeration order. *)
Definition throughJson (gamesData : list (jsstring * game))
  : list (jsstring * game) :=
  map (fun kv => (fst kv, entries (snd kv))) (entries gamesData).

(** [cacheGamesData] at time [now].  [localStorage.setItem] throws when
    the quota is exceeded, and the function catches that: [writes] is
    the number of its calls that go through. *)
Definition cacheGamesData (gamesData : option (list (jsstring * game)))
           (now : Z) (writes : nat) (ls : storage) : storage :=
  match gamesData with
  | None => ls
  | Some data =>
      match writes with
      | 0 => ls
      | 1 =>
          {| recentlyPlayedItem := recentlyPlayedItem ls;
             gamesDataItem := Some (throughJson data);
             cacheTimestampItem := cacheTimestampItem ls |}
      | S (S _) =>
          {| recentlyPlayedItem := recentlyPlayedItem ls;
             gamesDataItem := Some (throughJson data);
             cacheTimestampItem := Some now |}
      end
  end.

(** The ids that [addToRecentlyPlayed] has stored. *)
Definition recentlyPlayed (ls : storage) : list jsstring :=
  match recentlyPlayedItem ls with
  | Some l => l
  | None => []
  end.

(** The ids of a list, each at its first place only. *)
Fixpoint distinct (l : list jsstring) : list jsstring :=
  match l with
  | [] => []
  | x :: l' => x :: filter (fun id => negb (eqb id x)) (distinct l')
  end.

(** The ten ids played last, the latest first, given the ids in the
    order in which they were played and the list stored before. *)
Definition lastPlayed (stored plays : list jsstring) : list jsstring :=
  firstn 10 (distinct (rev plays ++ stored)).

(** [addToRecentlyPlayed] for each game played, in turn. *)
Definition play (ls : storage) (plays : list jsstring) : storage :=
  fold_left (fun s gameId => addToRecentlyPlayed gameId s) plays ls.

Section WithCaseMapping.
Context {CM : CaseMapping}.

(** [game.name || game.id], and its slug. *)
Definition label (g : game) : option jsstring :=
  match truthyProp g NAME with
  | Some n => Some n
  | None => lookup ID g
  end.

Definition slugOf (g : game) : jsstring :=
  match label g with
  | Some s => Normalizer.createSlug s
  | None => []
  end.

(** [findGameBySlug]; [games] is what [getGames()] returned, [None]
    for [null]. *)
Definition findGameBySlug (games : option (list (jsstring * game)))
           (slug : jsstring) : option game :=
  match games with
  | None => None
  | Some props =>
      let normalizedSlug := Normalizer.createSlug slug in
      option_map snd
        (find (fun e => eqb (slugOf (snd e)) normalizedSlug) (entries props))
  end.

End WithCaseMapping.

End EnhancerMore.

(* ------------------------------------------------------------------ *)
(** ** script.js: the language switch *)
(* ------------------------------------------------------------------ *)

Module PageMore.

Import Catalog Page.

(** What [updatePageLanguage] does to the info panel. *)
Definition updatePageLanguage (p : page) : page :=
  {| nitromeGames := nitromeGames p;
     currentGame := currentGame p;
     currentPlayer := currentPlayer p;
     rufflePlayer := rufflePlayer p;
     infoPanel :=
       match currentGame p with
       | Some id =>
           if truthy id then
             match findGame (nitromeGames p) id with
             | Some game => updateInfoPanel id (lookup PATH game) (lookup NAME game)
             | None => updateInfoPanel id None None
             end
           else DefaultInfo
       | None => DefaultInfo
       end |}.

(** A path is listed when it is the [path] of a game of the list. *)
Definition listed (games : list game) (path : option jsstring) : Prop :=
  exists g, In g games /\ path = lookup PATH g.

(** The animation that the page plays while no game is chosen. *)
Definition LOGO : jsstring := js "ruffle-assets/logo-anim.swf".

(** What a player of the page may hold: the logo animation, or the
    [path] of a game of the list. *)
Definition playable (games : list game) (path : option jsstring) : Prop :=
  path = Some LOGO \/ listed games path.

(** The local variables of a call belong to the game of the list that
    has its id. *)
Definition fromList (games : list game) (k : suspended) : Prop :=
  exists g, findGame games (gameId k) = Some g
            /\ gameName k = lookup NAME g /\ gamePath k = lookup PATH g.

(** A page is consistent when the game that it takes for the current
    one and the game of its info panel are games of the list, its
    players hold the logo animation or a game of the list, and every
    suspended call belongs to a game of the list. *)
Definition consistent (w : world) : Prop :=
  let p := shown w in
  let games := nitromeGames p in
  (forall id, currentGame p = Some id -> findGame games id <> None)
  /\ (forall url, rufflePlayer p = PlayerElement url -> playable games url)
  /\ (forall path, currentPlayer p = Some path -> playable games path)
  /\ (forall name path, infoPanel p = GameInfo name path -> listed games path)
  /\ (forall k, In (Some k) (inflight w) -> fromList games k).

(** [nitromeGames = data.nitromeGames || []] of [loadGamesFromJSON];
    [None] when the member is neither an array nor falsy, so that
    [nitromeGames.find] would fail. *)
Definition listOf (data : document) : option (list game) :=
  match data with
  | DocArray _ => Some []
  | DocObject ms =>
      match lookup NITROME_GAMES ms with
      | Some (MArray games) => Some games
      | Some m => if memberTruthy m then None else Some []
      | None => Some []
      end
  end.

(** The page as the [DOMContentLoaded] handler leaves it when it calls
    [loadGamesFromJSON]: no games yet, and the logo animation in a
    player that is saved in [currentPlayer], or, if no player could be
    created, the static image, which is neither a player nor an error
    message ([Blank]); [updatePageLanguage] has written the default
    info panel. *)
Definition domContentLoaded (playerCreated : bool) : page :=
  {| nitromeGames := [];
     currentGame := None;
     currentPlayer := if playerCreated then Some (Some LOGO) else None;
     rufflePlayer :=
       if playerCreated then PlayerElement (Some LOGO) else Blank;
     infoPanel := DefaultInfo |}.

(** [loadGamesFromJSON] from the arrival of the answer to its end.  A
    download that fails shows [message]; one that succeeds sets the
    list, and puts the logo animation in a new player, which is saved,
    or, if no player can be created, the static image.  [None]: the
    [nitromeGames] member is not a list (see [listOf]), which is not
    represented. *)
Definition loadGamesFromJSON (r : response) (message : jsstring)
           (playerCreated : bool) (p : page) : option page :=
  match r with
  | Failed =>
      Some {| nitromeGames := nitromeGames p;
              currentGame := currentGame p;
              currentPlayer := currentPlayer p;
              rufflePlayer := ErrorMessage (js "errorLoading") message;
              infoPanel := infoPanel p |}
  | Ok data =>
      match listOf data with
      | Some games =>
          Some {| nitromeGames := games;
                  currentGame := currentGame p;
                  currentPlayer :=
                    if playerCreated then Some (Some LOGO)
                    else currentPlayer p;
                  rufflePlayer :=
                    if playerCreated then PlayerElement (Some LOGO)
                    else Blank;
                  infoPanel := DefaultInfo |}
      | None => None
      end
  end.

(** What happens on the page: a game is chosen or a check of a file
    ends (an event of [Page]), or the language is changed. *)
Inductive action :=
| Act (e : event)
| SwitchLanguage.

Definition perform (w : world) (a : action) : world :=
  match a with
  | Act e => step w e
  | SwitchLanguage =>
      {| shown := updatePageLanguage (shown w); inflight := inflight w |}
  end.

Definition session (w : world) (acts : list action) : world :=
  fold_left perform acts w.

(** The loader's [loadGame] on the main page, up to the [await] of the
    page's [loadGame]: [mainLoadGameFunction(game.id)].  A game without
    an id, for which the call would be [loadGame(undefined)], is not
    represented. *)
Definition mainPageLoad (game : Catalog.game) (p : page)
  : option (page * option suspended) :=
  match lookup ID game with
  | Some id => Some (loadGameStart id p)
  | None => None
  end.

End PageMore.

(* ------------------------------------------------------------------ *)
(** ** game-url-loader.js: catalogs that are objects keyed by id *)
(* ------------------------------------------------------------------ *)

Module Direct.

Import Catalog.


Section WithCaseMapping.
Context {CM : CaseMapping}.


End WithCaseMapping.

End Direct.

(* ------------------------------------------------------------------ *)
(** ** What a normalized name looks like *)
(* ------------------------------------------------------------------ *)

Module Shape.

Definition startsWithHyphen (s : jsstring) : bool := isHyphen (hd 0%N s).

Definition endsWithHyphen (s : jsstring) : bool := isHyphen (last s 0%N).

Fixpoint doubledHyphen (s : jsstring) : bool :=
  match s with
  | c :: s' =>
      match s' with
      | d :: _ => (isHyphen c && isHyphen d) || doubledHyphen s'
      | [] => false
      end
  | [] => false
  end.

(** A path segment: code units of the class [unit] only, no hyphen at
    either end, no two hyphens in a row. *)
Definition segment (unit : codeunit -> bool) (s : jsstring) : bool :=
  forallb unit s && negb (startsWithHyphen s) && negb (endsWithHyphen s)
  && negb (doubledHyphen s).

(** Segments over [[a-z0-9-]] and over [[a-z0-9_-]]. *)
Definition friendly (s : jsstring) : bool := segment normalUnit s.
Definition slugged (s : jsstring) : bool := segment slugUnit s.

(** A name written with ASCII letters, digits, white space and hyphens
    only. *)
Definition plainName (s : jsstring) : bool :=
  forallb (fun c => isUpperAscii c || isLowerAlnum c || isSpace c || isHyphen c) s.

(** What lower-casing leaves of a plain name. *)
Definition plainLower (c : codeunit) : bool :=
  isLowerAlnum c || isSpace c || isHyphen c.

(** White space that is made of single spaces only; [prev] tells that
    the code unit before was white space. *)
Fixpoint singleSpaces (prev : bool) (s : jsstring) : bool :=
  match s with
  | [] => true
  | c :: s' =>
      if UrlHost.isAsciiWhitespace c
      then negb prev && N.eqb c 32 && singleSpaces true s'
      else singleSpaces false s'
  end.

(** A text that stripping and collapsing leaves as it is: single
    spaces only, none at either end. *)
Definition tidy (s : jsstring) : bool :=
  singleSpaces true s && negb (UrlHost.isAsciiWhitespace (last s 0%N)).

(** Whether [s], read after a code unit that was white space or not
    ([prev]), ends in white space. *)
Definition endsInSpace (prev : bool) (s : jsstring) : bool :=
  match s with
  | [] => prev
  | _ :: _ => UrlHost.isAsciiWhitespace (last s 0%N)
  end.

Definition blank (s : jsstring) : bool := forallb UrlHost.isAsciiWhitespace s.

End Shape.

(* ================================================================== *)
(** * Properties *)
(* ================================================================== *)

(** The case mapping restricted to ASCII satisfies what is asked of
    [toLowerCase]; it serves to evaluate the code on ASCII inputs. *)
#[export] Instance asciiCase : CaseMapping.
Proof.
  refine {| toLowerCase := map asciiLower |}.
  - reflexivity.
  - intros s. induction s as [|c s IH]; simpl; auto.
    rewrite IH, andb_true_r. unfold asciiLower.
    destruct (isUpperAscii c) eqn:E; [|now rewrite E].
    unfold isUpperAscii, inRange in *.
    apply andb_true_iff in E. destruct E as [E1 E2].
    apply N.leb_le in E1. apply N.leb_le in E2.
    apply negb_true_iff. apply andb_false_iff. right. apply N.leb_gt. lia.
  - intros s. rewrite map_map. apply map_ext. intros c.
    unfold asciiLower. destruct (isUpperAscii c) eqn:E; [|now rewrite E].
    unfold isUpperAscii, inRange in *.
    apply andb_true_iff in E. destruct E as [E1 E2].
    apply N.leb_le in E1. apply N.leb_le in E2.
    replace (N.leb 65 (c + 32) && N.leb (c + 32) 90)%N with false; auto.
    symmetry. apply andb_false_iff. right. apply N.leb_gt. lia.
Defined.


(* ------------------------------------------------------------------ *)
(** ** Strings *)
(* ------------------------------------------------------------------ *)

Lemma eqb_eq (s t : jsstring) : eqb s t = true <-> s = t.
Proof.
  revert t. induction s as [|c s IH]; intros [|d t]; simpl;
    try (split; [discriminate | discriminate]); try tauto.
  rewrite andb_true_iff, N.eqb_eq, IH.
  split; [intros [-> ->]; reflexivity | intros H; inversion H; auto].
Qed.

Lemma eqb_refl (s : jsstring) : eqb s s = true.
Proof. apply eqb_eq. reflexivity. Qed.

Lemma eqb_neq (s t : jsstring) : eqb s t = false <-> s <> t.
Proof.
  rewrite <- eqb_eq. destruct (eqb s t); split; congruence.
Qed.

Lemma eqb_sym (s t : jsstring) : eqb s t = eqb t s.
Proof.
  destruct (eqb s t) eqn:E.
  - apply eqb_eq in E. subst. symmetry. apply eqb_refl.
  - symmetry. apply eqb_neq. apply eqb_neq in E. congruence.
Qed.

Lemma startsWith_iff (s p : jsstring) :
  startsWith s p = true <-> exists r, s = p ++ r.
Proof.
  revert s. induction p as [|c p IH]; intros s; simpl.
  - split; [intros _; exists s; reflexivity | intros _; destruct s; reflexivity].
  - destruct s as [|d s]; simpl.
    + split; [discriminate | intros [r H]; discriminate].
    + rewrite andb_true_iff, N.eqb_eq, IH. split.
      * intros [-> [r ->]]. eauto.
      * intros [r H]. inversion H. eauto.
Qed.

Lemma indexOf_unfold (s p : jsstring) :
  indexOf s p =
  if startsWith s p then Some 0
  else match s with
       | [] => None
       | _ :: s' => option_map S (indexOf s' p)
       end.
Proof. destruct s; reflexivity. Qed.

Lemma indexOf_some (s p : jsstring) (n : nat) :
  indexOf s p = Some n ->
  firstOccurrence p s (firstn n s) (skipn (n + length p) s)
  /\ length (firstn n s) = n.
Proof.
  revert n. induction s as [|d s IH]; intros n; rewrite indexOf_unfold.
  - destruct (startsWith [] p) eqn:E; [|discriminate].
    apply startsWith_iff in E. destruct E as [r E].
    destruct p; [|discriminate].
    intros H. inversion H. subst n.
    split; [split; [reflexivity | intros; simpl; lia] | reflexivity].
  - destruct (startsWith (d :: s) p) eqn:E.
    + intros H. inversion H. subst n.
      apply startsWith_iff in E. destruct E as [r E].
      split; [split; [|intros; simpl; lia] | reflexivity].
      simpl firstn. simpl app. rewrite E at 2.
      rewrite skipn_app, skipn_all, Nat.sub_diag. simpl. exact E.
    + destruct (indexOf s p) as [m|] eqn:Em; [|discriminate].
      simpl. intros H. inversion H. subst n.
      destruct (IH m eq_refl) as [[Hs Hmin] Hlen].
      split; [split|].
      * simpl. f_equal. exact Hs.
      * intros a' b' Ha. destruct a' as [|x a'].
        -- exfalso. simpl in Ha.
           assert (startsWith (d :: s) p = true)
             by (apply startsWith_iff; eauto).
           congruence.
        -- simpl in Ha. injection Ha as Hx Hs'. simpl.
           apply le_n_S. exact (Hmin a' b' Hs').
      * simpl. f_equal. exact Hlen.
Qed.

Lemma indexOf_none (s p : jsstring) :
  indexOf s p = None -> ~ occursIn p s.
Proof.
  induction s as [|d s IH]; rewrite indexOf_unfold.
  - destruct (startsWith [] p) eqn:E; [discriminate|].
    intros _ (a & b & H). destruct a; [|discriminate].
    simpl in H. assert (startsWith [] p = true)
      by (apply startsWith_iff; eauto). congruence.
  - destruct (startsWith (d :: s) p) eqn:E; [discriminate|].
    destruct (indexOf s p) eqn:Em; [discriminate|].
    intros _ (a & b & H). destruct a as [|x a].
    + simpl in H. assert (startsWith (d :: s) p = true)
        by (apply startsWith_iff; eauto). congruence.
    + simpl in H. injection H as Hx Hs'. apply IH; auto.
      exists a, b. assumption.
Qed.

Lemma includes_true_iff (s p : jsstring) :
  includes s p = true <-> occursIn p s.
Proof.
  unfold includes. destruct (indexOf s p) as [n|] eqn:E.
  - split; auto. intros _.
    destruct (indexOf_some _ _ _ E) as [[H _] _]. red. eauto.
  - split; [discriminate|]. intros H. exfalso.
    exact (indexOf_none _ _ E H).
Qed.

Lemma includes_false_iff (s p : jsstring) :
  includes s p = false <-> ~ occursIn p s.
Proof.
  rewrite <- includes_true_iff. destruct (includes s p); split; congruence.
Qed.

Lemma firstOccurrence_unique (p s a b a' b' : jsstring) :
  firstOccurrence p s a b -> firstOccurrence p s a' b' -> a = a' /\ b = b'.
Proof.
  intros [H1 M1] [H2 M2].
  assert (L : length a = length a').
  { apply Nat.le_antisymm; [eapply M1 | eapply M2]; eassumption. }
  rewrite H1 in H2.
  apply app_eq_app in H2. destruct H2 as [l [[E1 E2]|[E1 E2]]].
  - subst a. rewrite length_app in L. destruct l; [|simpl in L; lia].
    rewrite app_nil_r. simpl in E2. apply app_inv_head in E2. auto.
  - subst a'. rewrite length_app in L. destruct l; [|simpl in L; lia].
    rewrite app_nil_r. simpl in E2. apply app_inv_head in E2. auto.
Qed.

Lemma getSubstitution_dollarFree (matched before after r : jsstring) :
  dollarFree r = true -> getSubstitution matched before after r = r.
Proof.
  induction r as [|c r IH]; simpl; auto.
  intros H. apply andb_true_iff in H. destruct H as [Hc Hr].
  apply negb_true_iff in Hc. rewrite Hc. f_equal. auto.
Qed.

Lemma replace_first (s p r a b : jsstring) :
  dollarFree r = true ->
  firstOccurrence p s a b ->
  replace s p r = a ++ r ++ b.
Proof.
  intros Hr Hf. unfold replace.
  destruct (indexOf s p) as [n|] eqn:E.
  - destruct (indexOf_some _ _ _ E) as [Hf' _].
    destruct (firstOccurrence_unique _ _ _ _ _ _ Hf Hf') as [<- <-].
    rewrite getSubstitution_dollarFree; auto.
  - exfalso. apply (indexOf_none _ _ E). destruct Hf as [H _]. red. eauto.
Qed.

Lemma firstOccurrence_exists (p s : jsstring) :
  occursIn p s -> exists a b, firstOccurrence p s a b.
Proof.
  intros H. apply includes_true_iff in H. unfold includes in H.
  destruct (indexOf s p) as [n|] eqn:E; [|discriminate].
  destruct (indexOf_some _ _ _ E) as [Hf _]. eauto.
Qed.

(** Two occurrences of a string without border do not overlap. *)
Lemma borderFree_no_overlap (p a b a2 b2 : jsstring) :
  borderFree p = true ->
  a ++ p ++ b = a2 ++ p ++ b2 ->
  length a < length a2 ->
  exists c, a2 = a ++ p ++ c /\ b = c ++ p ++ b2.
Proof.
  intros Hb He Hl.
  apply app_eq_app in He. destruct He as [l [[E1 E2]|[E1 E2]]].
  { subst a. rewrite length_app in Hl. lia. }
  subst a2. rewrite length_app in Hl.
  apply app_eq_app in E2. destruct E2 as [y [[E3 E4]|[E3 E4]]].
  - destruct y as [|c0 y0].
    { (* the second occurrence follows the first immediately *)
      rewrite app_nil_r in E3. subst l. simpl in E4. subst b.
      exists []. rewrite app_nil_r. auto. }
    (* the second occurrence starts inside the first: a border *)
    exfalso. set (y := c0 :: y0) in *.
    assert (Hly : length y < length p).
    { rewrite E3, length_app. lia. }
    assert (Hpre : firstn (length y) p = y).
    { assert (H : firstn (length y) (p ++ b2) = firstn (length y) (y ++ b))
        by (f_equal; assumption).
      rewrite !firstn_app in H.
      replace (length y - length p) with 0 in H by lia.
      rewrite Nat.sub_diag in H. simpl in H. rewrite !app_nil_r in H.
      rewrite firstn_all in H. exact H. }
    assert (Hsuf : skipn (length p - length y) p = y).
    { rewrite E3 at 2. rewrite E3 at 1. rewrite length_app.
      replace (length l + length y - length y) with (length l) by lia.
      rewrite skipn_app, skipn_all, Nat.sub_diag. reflexivity. }
    unfold borderFree in Hb. rewrite forallb_forall in Hb.
    assert (Hin : In (length y) (seq 1 (length p - 1))).
    { apply in_seq. subst y. simpl in *. lia. }
    specialize (Hb _ Hin). apply negb_true_iff in Hb.
    apply eqb_neq in Hb. congruence.
  - exists y. subst l. split; [reflexivity | assumption].
Qed.

(* ------------------------------------------------------------------ *)
(** ** Redirector *)
(* ------------------------------------------------------------------ *)

Module RedirectorFacts.

Import Redirector.

Lemma redirectWith_no_match (ms : list mapping) (url : jsstring) :
  (forall m, In m ms -> ~ occursIn (from m) url) ->
  redirectWith ms url = url.
Proof.
  induction ms as [|m ms IH]; simpl; auto.
  intros H. rewrite (proj2 (includes_false_iff url (from m))).
  - apply IH. intros. apply H. auto.
  - apply H. auto.
Qed.

Lemma redirectWith_first_match
      (pre post : list mapping) (m : mapping) (url a b : jsstring) :
  (forall m', In m' pre -> ~ occursIn (from m') url) ->
  dollarFree (to m) = true ->
  firstOccurrence (from m) url a b ->
  redirectWith (pre ++ m :: post) url = a ++ to m ++ b.
Proof.
  intros Hpre Hd Hf. induction pre as [|m0 pre IH]; simpl.
  - rewrite (proj2 (includes_true_iff url (from m))).
    + apply replace_first; assumption.
    + destruct Hf as [H _]. red. eauto.
  - rewrite (proj2 (includes_false_iff url (from m0))).
    + apply IH. intros. apply Hpre. simpl. auto.
    + apply Hpre. simpl. auto.
Qed.

Lemma urlMappings_dollarFree (m : mapping) :
  In m urlMappings -> dollarFree (to m) = true.
Proof.
  intros H. apply (proj1 (forallb_forall (fun m => dollarFree (to m)) urlMappings));
    [vm_compute; reflexivity | assumption].
Qed.

Lemma urlMappings_borderFree (m : mapping) :
  In m urlMappings -> borderFree (from m) = true.
Proof.
  intros H. apply (proj1 (forallb_forall (fun m => borderFree (from m)) urlMappings));
    [vm_compute; reflexivity | assumption].
Qed.

End RedirectorFacts.

(** C1.  For every address, [redirectUrl] goes through the rules of
    [urlMappings] in their declared order: when no rule's [from] occurs
    in the address, the address comes back unchanged; otherwise the
    first rule whose [from] occurs in it is applied, and only that one,
    the occurrence of its [from] being replaced by its [to].  With the
    table of the source, ["https://jogos.ipv7.pt/faq.swf"] becomes
    ["https://cdn.xperia.pt/laserquest/faq.swf"]. *)
Theorem redirectUrl_first_matching_rule :
  (forall url : jsstring,
      (forall m, In m Redirector.urlMappings ->
                 ~ occursIn (Redirector.from m) url) ->
      Redirector.redirectUrl (Redirector.Str url) = Redirector.Str url)
  /\ (forall (url : jsstring) pre m post,
         Redirector.urlMappings = pre ++ m :: post ->
         (forall m', In m' pre -> ~ occursIn (Redirector.from m') url) ->
         occursIn (Redirector.from m) url ->
         exists a b,
           firstOccurrence (Redirector.from m) url a b
           /\ Redirector.redirectUrl (Redirector.Str url)
              = Redirector.Str (a ++ Redirector.to m ++ b))
  /\ Redirector.redirectUrl
       (Redirector.Str (js "https://jogos.ipv7.pt/faq.swf"))
     = Redirector.Str (js "https://cdn.xperia.pt/laserquest/faq.swf").
Proof.
  split; [|split].
  - intros url H. unfold Redirector.redirectUrl. f_equal.
    apply RedirectorFacts.redirectWith_no_match. assumption.
  - intros url pre m post E Hpre Hocc.
    destruct (firstOccurrence_exists _ _ Hocc) as (a & b & Hf).
    exists a, b. split; auto. unfold Redirector.redirectUrl. f_equal. rewrite E.
    apply RedirectorFacts.redirectWith_first_match; auto.
    apply RedirectorFacts.urlMappings_dollarFree.
    rewrite E. apply in_or_app. right. left. reflexivity.
  - vm_compute. reflexivity.
Qed.

(** C9, as the code has it.  When the rule that [redirectUrl] applies
    (the first of the table whose [from] occurs in the address) has a
    [from] that occurs several times in the address, the leftmost
    occurrence is the one rewritten: what precedes it and what follows
    it are copied, so every later occurrence of [from] stands in the
    output as it stood in the address. *)
Theorem redirectUrl_rewrites_leftmost_occurrence_only :
  forall (url : jsstring) pre m post a b,
    Redirector.urlMappings = pre ++ m :: post ->
    (forall m', In m' pre -> ~ occursIn (Redirector.from m') url) ->
    firstOccurrence (Redirector.from m) url a b ->
    Redirector.redirectUrl (Redirector.Str url)
    = Redirector.Str (a ++ Redirector.to m ++ b)
    /\ forall a2 b2,
        url = a2 ++ Redirector.from m ++ b2 ->
        length a < length a2 ->
        exists c,
          a2 = a ++ Redirector.from m ++ c
          /\ Redirector.redirectUrl (Redirector.Str url)
             = Redirector.Str
                 ((a ++ Redirector.to m ++ c) ++ Redirector.from m ++ b2).
Proof.
  intros url pre m post a b E Hpre Hf.
  assert (Hin : In m Redirector.urlMappings).
  { rewrite E. apply in_or_app. right. left. reflexivity. }
  assert (R : Redirector.redirectUrl (Redirector.Str url)
              = Redirector.Str (a ++ Redirector.to m ++ b)).
  { unfold Redirector.redirectUrl. f_equal. rewrite E.
    apply RedirectorFacts.redirectWith_first_match; auto.
    apply RedirectorFacts.urlMappings_dollarFree; assumption. }
  split; [exact R|].
  intros a2 b2 Hu Hl. destruct Hf as [Hs _]. rewrite Hs in Hu.
  destruct (borderFree_no_overlap _ _ _ _ _
              (RedirectorFacts.urlMappings_borderFree _ Hin) Hu Hl)
    as (c & -> & ->).
  exists c. split; auto. rewrite R. f_equal.
  rewrite <- !app_assoc. reflexivity.
Qed.

(** C9 as stated fails for a rule that comes after one that applies:
    in this address the [from] of the third rule occurs twice, but the
    first rule applies, and neither occurrence is rewritten. *)
Lemma redirectUrl_leaves_later_rule_alone :
  let faq := {| Redirector.from := js "https://jogos.ipv7.pt/faq.swf";
                Redirector.to := js "https://cdn.xperia.pt/laserquest/faq.swf" |} in
  let a := js "https://cdn.nitrome.com/components/NitromeAPI.pkg?a=" in
  let c := js "&b=" in
  let url := a ++ Redirector.from faq ++ c ++ Redirector.from faq in
  In faq Redirector.urlMappings
  /\ firstOccurrence (Redirector.from faq) url a (c ++ Redirector.from faq)
  /\ Redirector.redirectUrl (Redirector.Str url)
     = Redirector.Str
         (js "https://cdn.xperia.pt/NitromeAPI.pkg?a="
          ++ Redirector.from faq ++ c ++ Redirector.from faq)
  /\ Redirector.redirectUrl (Redirector.Str url)
     <> Redirector.Str
          (a ++ Redirector.to faq ++ c ++ Redirector.from faq).
Proof.
  cbv zeta. split; [|split; [|split]].
  - simpl. auto.
  - refine (proj1 (indexOf_some _ (js "https://jogos.ipv7.pt/faq.swf") 52 _)).
    vm_compute. reflexivity.
  - vm_compute. reflexivity.
  - intros H. vm_compute in H. discriminate.
Qed.


(* ------------------------------------------------------------------ *)
(** ** Regular expressions of the sources *)
(* ------------------------------------------------------------------ *)

Module RegexFacts.

Lemma plusK_final (p : codeunit -> bool) (s : jsstring) (pos : nat) :
  plusK p pos s (fun e _ => Some e) =
  match s with
  | c :: _ => if p c then Some (pos + runLength p s) else None
  | [] => None
  end.
Proof.
  revert pos. induction s as [|c s IH]; intros pos; simpl; auto.
  destruct (p c) eqn:Ec; auto.
  rewrite IH. destruct s as [|d s]; simpl.
  - f_equal. lia.
  - destruct (p d); auto; f_equal; lia.
Qed.

Lemma plusK_eol (p : codeunit -> bool) (s : jsstring) (pos : nat) :
  plusK p pos s (fun pos' s' => matchK Eol pos' s' (fun e _ => Some e)) =
  match s with
  | _ :: _ => if forallb p s then Some (pos + length s) else None
  | [] => None
  end.
Proof.
  revert pos. induction s as [|c s IH]; intros pos; simpl; auto.
  destruct (p c) eqn:Ec; simpl; auto.
  rewrite IH. destruct s as [|d s]; simpl.
  - f_equal. lia.
  - destruct (p d && forallb p s); auto; f_equal; lia.
Qed.

Lemma matchLength_Plus (p : codeunit -> bool) (pos : nat) (s : jsstring) :
  matchLength (Plus p) pos s =
  match s with
  | c :: _ => if p c then Some (runLength p s) else None
  | [] => None
  end.
Proof.
  unfold matchLength. simpl matchK. rewrite plusK_final.
  destruct s as [|c s]; auto.
  destruct (p c); cbn [option_map]; auto. f_equal. lia.
Qed.

Lemma matchLength_Class (p : codeunit -> bool) (pos : nat) (s : jsstring) :
  matchLength (Class p) pos s =
  match s with
  | c :: _ => if p c then Some 1 else None
  | [] => None
  end.
Proof.
  unfold matchLength. destruct s as [|c s]; cbn [matchK]; auto.
  destruct (p c); cbn [option_map]; auto. f_equal. lia.
Qed.

Lemma matchLength_edge_start (s : jsstring) :
  matchLength Normalizer.reEdgeHyphens 0 s =
  match s with
  | c :: _ => if isHyphen c then Some (runLength isHyphen s) else None
  | [] => None
  end.
Proof.
  unfold matchLength, Normalizer.reEdgeHyphens. simpl matchK.
  rewrite plusK_final.
  destruct s as [|c s]; auto.
  destruct (isHyphen c) eqn:Ec; cbn [option_map].
  - f_equal. lia.
  - cbn [matchK]. rewrite plusK_eol. cbn [forallb]. rewrite Ec. reflexivity.
Qed.

Lemma matchLength_edge_later (pos : nat) (s : jsstring) :
  matchLength Normalizer.reEdgeHyphens (S pos) s =
  match s with
  | _ :: _ => if forallb isHyphen s then Some (length s) else None
  | [] => None
  end.
Proof.
  unfold matchLength, Normalizer.reEdgeHyphens. simpl matchK.
  rewrite plusK_eol.
  destruct s as [|c s]; auto.
  destruct (forallb isHyphen (c :: s)); cbn [option_map]; auto.
  f_equal. lia.
Qed.

Lemma collapseRuns_no_run (p : codeunit -> bool) (sep s : jsstring) :
  runLength p s = 0 ->
  Spec.collapseRuns p sep true s = Spec.collapseRuns p sep false s.
Proof.
  destruct s as [|c s]; simpl; auto.
  destruct (p c); [discriminate | reflexivity].
Qed.

(** [/[p]+/g]: each maximal run is replaced once. *)
Lemma replaceFrom_Plus (p : codeunit -> bool) (rep s : jsstring) :
  forall pos skip,
    (skip = 0 \/ skip = runLength p s) ->
    replaceFrom (Plus p) rep pos skip s =
    Spec.collapseRuns p rep (negb (Nat.eqb skip 0)) s.
Proof.
  induction s as [|c s IH]; intros pos skip Hs.
  - cbn [replaceFrom]. rewrite matchLength_Plus.
    destruct Hs as [-> | ->]; reflexivity.
  - destruct skip as [|n].
    + cbn [replaceFrom]. rewrite matchLength_Plus. cbn [runLength].
      simpl Spec.collapseRuns. destruct (p c) eqn:Ec.
      * rewrite IH by auto. f_equal.
        destruct (runLength p s) eqn:Er; simpl; auto.
        symmetry. apply collapseRuns_no_run. assumption.
      * rewrite IH by auto. reflexivity.
    + destruct Hs as [Hs|Hs]; [discriminate|].
      cbn [replaceFrom]. simpl in Hs. simpl Spec.collapseRuns.
      destruct (p c) eqn:Ec; [|discriminate].
      injection Hs as Hs. rewrite IH by auto.
      destruct n; simpl; auto.
      symmetry. apply collapseRuns_no_run. auto.
Qed.

Lemma replaceAll_Plus (p : codeunit -> bool) (rep s : jsstring) :
  replaceAll (Plus p) rep s = Spec.collapseRuns p rep false s.
Proof. unfold replaceAll. rewrite replaceFrom_Plus; auto. Qed.

(** [/[p]/g] with an empty replacement deletes the class. *)
Lemma replaceFrom_Class_delete (p : codeunit -> bool) (s : jsstring) :
  forall pos,
    replaceFrom (Class p) [] pos 0 s = filter (fun c => negb (p c)) s.
Proof.
  induction s as [|c s IH]; intros pos.
  - simpl. reflexivity.
  - cbn [replaceFrom]. rewrite matchLength_Class. simpl.
    destruct (p c); simpl; rewrite IH; reflexivity.
Qed.

(** [/[p]/g] in general: each code unit of the class is replaced. *)
Lemma replaceFrom_Class (p : codeunit -> bool) (rep s : jsstring) :
  forall pos,
    replaceFrom (Class p) rep pos 0 s =
    flat_map (fun c => if p c then rep else [c]) s.
Proof.
  induction s as [|c s IH]; intros pos.
  - simpl. reflexivity.
  - cbn [replaceFrom]. rewrite matchLength_Class. simpl.
    destruct (p c); simpl; rewrite IH; reflexivity.
Qed.

Lemma dropWhileEnd_all (p : codeunit -> bool) (s : jsstring) :
  forallb p s = true -> Spec.dropWhileEnd p s = [].
Proof.
  induction s as [|c s IH]; simpl; auto.
  intros H. apply andb_true_iff in H. destruct H as [Hc Hs].
  rewrite IH, Hc; auto.
Qed.

Lemma dropWhileEnd_cons_not_all (p : codeunit -> bool) (c : codeunit)
      (s : jsstring) :
  forallb p (c :: s) = false ->
  Spec.dropWhileEnd p (c :: s) = c :: Spec.dropWhileEnd p s.
Proof.
  simpl. intros H. destruct (Spec.dropWhileEnd p s) eqn:E; auto.
  destruct (p c) eqn:Ec; auto. simpl in H.
  assert (forallb p s = true).
  { clear - E. induction s as [|d s IH]; simpl in *; auto.
    destruct (Spec.dropWhileEnd p s); [|discriminate].
    destruct (p d); [|discriminate]. simpl. auto. }
  congruence.
Qed.

(** Skipping to the end of the subject. *)
Lemma replaceFrom_skip_all (r : regex) (s : jsstring) :
  forall pos,
    matchLength r (pos + length s) [] = None ->
    replaceFrom r [] pos (length s) s = [].
Proof.
  induction s as [|c s IH]; intros pos H; simpl in *.
  - rewrite Nat.add_0_r in H. rewrite H. reflexivity.
  - apply IH. rewrite <- H. f_equal. lia.
Qed.

(** [/^-+|-+$/g] away from the start of the subject: only a run that
    reaches the end is removed. *)
Lemma replaceFrom_edge_later (s : jsstring) :
  forall pos,
    replaceFrom Normalizer.reEdgeHyphens [] (S pos) 0 s
    = Spec.dropWhileEnd isHyphen s.
Proof.
  induction s as [|c s IH]; intros pos.
  - reflexivity.
  - cbn [replaceFrom]. rewrite matchLength_edge_later.
    destruct (forallb isHyphen (c :: s)) eqn:E.
    + rewrite dropWhileEnd_all by assumption. simpl length. simpl.
      apply replaceFrom_skip_all.
      replace (S (S pos) + length s) with (S (S pos + length s)) by lia.
      apply matchLength_edge_later.
    + rewrite dropWhileEnd_cons_not_all by assumption.
      rewrite IH. reflexivity.
Qed.

Lemma replaceFrom_edge_skip (s : jsstring) :
  forall pos,
    replaceFrom Normalizer.reEdgeHyphens [] (S pos) (runLength isHyphen s) s
    = Spec.dropWhileEnd isHyphen (Spec.dropWhile isHyphen s).
Proof.
  induction s as [|c s IH]; intros pos.
  - reflexivity.
  - simpl runLength. simpl Spec.dropWhile. destruct (isHyphen c) eqn:Ec.
    + cbn [replaceFrom]. apply IH.
    + apply replaceFrom_edge_later.
Qed.

Lemma replaceAll_edge (s : jsstring) :
  replaceAll Normalizer.reEdgeHyphens [] s = Spec.stripSeparators s.
Proof.
  unfold replaceAll, Spec.stripSeparators. destruct s as [|c s].
  - reflexivity.
  - cbn [replaceFrom]. rewrite matchLength_edge_start.
    simpl Spec.dropWhile. simpl runLength.
    destruct (isHyphen c) eqn:Ec.
    + simpl. apply replaceFrom_edge_skip.
    + rewrite replaceFrom_edge_later.
      symmetry. apply dropWhileEnd_cons_not_all. simpl. rewrite Ec. reflexivity.
Qed.

End RegexFacts.

(* ------------------------------------------------------------------ *)
(** ** Normalizers *)
(* ------------------------------------------------------------------ *)

Module NormalizerFacts.

Import Normalizer RegexFacts.

(** Turns a statement about character classes into linear arithmetic. *)
Ltac classes :=
  unfold isLowerAlnum, isWord, isSpace, isHyphen, isUpperAscii,
    isLowerAscii, isDigit, isAscii, inRange, HYPHEN, UNDERSCORE in *;
  repeat
    (rewrite ?orb_true_iff, ?andb_true_iff, ?negb_true_iff,
       ?orb_false_iff, ?andb_false_iff, ?negb_false_iff,
       ?N.leb_le, ?N.leb_gt, ?N.eqb_eq, ?N.eqb_neq, ?N.ltb_lt, ?N.ltb_ge in *);
  lia.

Lemma space_not_alnum c : isSpace c = true -> isLowerAlnum c = false.
Proof. intros H. classes. Qed.

Lemma space_not_upper c : isSpace c = true -> isUpperAscii c = false.
Proof. intros H. classes. Qed.

Lemma alnum_not_space c : isLowerAlnum c = true -> isSpace c = false.
Proof. intros H. classes. Qed.

Lemma hyphen_not_space c : isHyphen c = true -> isSpace c = false.
Proof. intros H. classes. Qed.

Lemma hyphen_not_alnum c : isHyphen c = true -> isLowerAlnum c = false.
Proof. intros H. classes. Qed.

Lemma hyphen_eq c : isHyphen c = true -> c = HYPHEN.
Proof. unfold isHyphen. apply N.eqb_eq. Qed.

Lemma word_not_space c : isWord c = true -> isSpace c = false.
Proof. intros H. classes. Qed.

Lemma alnum_plain c :
  isLowerAlnum c || isHyphen c = true ->
  (isAscii c || isSpace c) && negb (isUpperAscii c) = true.
Proof. intros H. classes. Qed.

Lemma word_plain c :
  (isWord c || isHyphen c) = true ->
  isAscii c || isSpace c = true.
Proof. intros H. classes. Qed.

Lemma asciiLower_fixed c : isUpperAscii c = false -> asciiLower c = c.
Proof. unfold asciiLower. intros ->. reflexivity. Qed.

Lemma forallb_impl (p q : codeunit -> bool) (s : jsstring) :
  (forall c, p c = true -> q c = true) ->
  forallb p s = true -> forallb q s = true.
Proof.
  intros Hpq. induction s as [|c s IH]; simpl; auto.
  rewrite !andb_true_iff. intros [H1 H2]. auto.
Qed.

Lemma map_asciiLower_fixed (s : jsstring) :
  forallb (fun c => negb (isUpperAscii c)) s = true ->
  map asciiLower s = s.
Proof.
  induction s as [|c s IH]; simpl; auto.
  rewrite andb_true_iff, negb_true_iff. intros [H1 H2].
  rewrite asciiLower_fixed, IH; auto.
Qed.

Section WithCaseMapping.
Context {CM : CaseMapping}.

Lemma toLowerCase_nil : toLowerCase [] = [].
Proof. rewrite toLowerCase_plain; reflexivity. Qed.

(** Strings that are plain and hold no capital are left alone. *)
Lemma toLowerCase_fixed (s : jsstring) :
  forallb (fun c => (isAscii c || isSpace c) && negb (isUpperAscii c)) s = true ->
  toLowerCase s = s.
Proof.
  intros H. rewrite toLowerCase_plain.
  - apply map_asciiLower_fixed. revert H. apply forallb_impl.
    intros c Hc. apply andb_true_iff in Hc. tauto.
  - revert H. apply forallb_impl.
    intros c Hc. apply andb_true_iff in Hc. tauto.
Qed.

End WithCaseMapping.

(** *** [trim] *)

Lemma trimStart_no_space (s : jsstring) :
  forallb (fun c => negb (isSpace c)) s = true -> trimStart s = s.
Proof.
  destruct s as [|c s]; simpl; auto.
  rewrite andb_true_iff, negb_true_iff. intros [-> _]. reflexivity.
Qed.

Lemma forallb_rev (p : codeunit -> bool) (s : jsstring) :
  forallb p (rev s) = forallb p s.
Proof.
  induction s as [|c s IH]; simpl; auto.
  rewrite forallb_app, IH. simpl. rewrite andb_true_r. apply andb_comm.
Qed.

Lemma trim_no_space (s : jsstring) :
  forallb (fun c => negb (isSpace c)) s = true -> trim s = s.
Proof.
  intros H. unfold trim, trimEnd.
  rewrite (trimStart_no_space s H).
  rewrite trimStart_no_space by (rewrite forallb_rev; assumption).
  apply rev_involutive.
Qed.

Lemma trimStart_all_space (s : jsstring) :
  forallb isSpace s = true -> trimStart s = [].
Proof.
  induction s as [|c s IH]; simpl; auto.
  rewrite andb_true_iff. intros [-> H]. auto.
Qed.

Lemma trim_all_space (s : jsstring) :
  forallb isSpace s = true -> trim s = [].
Proof.
  intros H. unfold trim. rewrite trimStart_all_space; auto.
Qed.

Lemma forallb_trimStart (p : codeunit -> bool) (s : jsstring) :
  forallb p s = true -> forallb p (trimStart s) = true.
Proof.
  induction s as [|c s IH]; simpl; auto.
  intros H. destruct (isSpace c); auto.
  apply andb_true_iff in H. tauto.
Qed.

Lemma forallb_trim (p : codeunit -> bool) (s : jsstring) :
  forallb p s = true -> forallb p (trim s) = true.
Proof.
  intros H. unfold trim, trimEnd. rewrite forallb_rev.
  apply forallb_trimStart. rewrite forallb_rev.
  apply forallb_trimStart. assumption.
Qed.

(** *** Runs and separators *)

Lemma forallb_collapseRuns (p q : codeunit -> bool) (b : bool) (s : jsstring) :
  q HYPHEN = true ->
  forallb (fun c => p c || q c) s = true ->
  forallb q (Spec.collapseRuns p [HYPHEN] b s) = true.
Proof.
  intros Hq. revert b. induction s as [|c s IH]; intros b; simpl; auto.
  rewrite andb_true_iff. intros [Hc Hs].
  destruct (p c) eqn:Ec.
  - destruct b; simpl; rewrite ?Hq; simpl; auto.
  - simpl in Hc. simpl. rewrite Hc. simpl. auto.
Qed.

Lemma forallb_dropWhile (p q : codeunit -> bool) (s : jsstring) :
  forallb q s = true -> forallb q (Spec.dropWhile p s) = true.
Proof.
  induction s as [|c s IH]; simpl; auto.
  intros H. destruct (p c); auto.
  apply andb_true_iff in H. tauto.
Qed.

Lemma forallb_dropWhileEnd (p q : codeunit -> bool) (s : jsstring) :
  forallb q s = true -> forallb q (Spec.dropWhileEnd p s) = true.
Proof.
  induction s as [|c s IH]; simpl; auto.
  rewrite andb_true_iff. intros [Hc Hs]. specialize (IH Hs).
  destruct (Spec.dropWhileEnd p s) eqn:E.
  - destruct (p c); simpl; rewrite ?Hc; auto.
  - simpl in *. rewrite Hc. auto.
Qed.

Lemma forallb_stripSeparators (q : codeunit -> bool) (s : jsstring) :
  forallb q s = true -> forallb q (Spec.stripSeparators s) = true.
Proof.
  intros H. apply forallb_dropWhileEnd, forallb_dropWhile, H.
Qed.

Lemma collapseRuns_all (p : codeunit -> bool) (sep s : jsstring) :
  forallb p s = true ->
  Spec.collapseRuns p sep true s = []
  /\ Spec.collapseRuns p sep false s = match s with [] => [] | _ => sep end.
Proof.
  induction s as [|c s IH]; simpl; auto.
  rewrite andb_true_iff. intros [-> Hs].
  destruct (IH Hs) as [IH1 _]. rewrite IH1, app_nil_r. auto.
Qed.

Lemma collapseRuns_none (p : codeunit -> bool) (sep s : jsstring) (b : bool) :
  forallb (fun c => negb (p c)) s = true ->
  Spec.collapseRuns p sep b s = s.
Proof.
  revert b. induction s as [|c s IH]; intros b; simpl; auto.
  rewrite andb_true_iff, negb_true_iff. intros [-> Hs].
  rewrite IH; auto.
Qed.

Lemma singleHyphens_weaken (p : codeunit -> bool) (s : jsstring) :
  Spec.singleHyphens p true s = true -> Spec.singleHyphens p false s = true.
Proof.
  destruct s as [|c s]; simpl; auto.
  destruct (p c); simpl; auto. discriminate.
Qed.

Lemma collapseRuns_fixed (p : codeunit -> bool) (b : bool) (s : jsstring) :
  Spec.singleHyphens p b s = true ->
  Spec.collapseRuns p [HYPHEN] b s = s.
Proof.
  revert b. induction s as [|c s IH]; intros b; simpl; auto.
  destruct (p c).
  - rewrite !andb_true_iff, negb_true_iff, N.eqb_eq.
    intros [[-> ->] H]. simpl. rewrite IH; auto.
  - intros H. rewrite IH; auto.
Qed.

Lemma singleHyphens_collapseRuns (p : codeunit -> bool) (b : bool)
      (s : jsstring) :
  p HYPHEN = true ->
  Spec.singleHyphens p b (Spec.collapseRuns p [HYPHEN] b s) = true.
Proof.
  intros Hp. revert b. induction s as [|c s IH]; intros b; simpl; auto.
  destruct (p c) eqn:Ec.
  - destruct b; auto. cbn [Spec.singleHyphens].
    rewrite Hp, N.eqb_refl. simpl. auto.
  - cbn [Spec.singleHyphens]. rewrite Ec. auto.
Qed.

Lemma singleHyphens_dropWhile (p : codeunit -> bool) (s : jsstring) :
  (forall c, isHyphen c = true -> p c = true) ->
  Spec.singleHyphens p false s = true ->
  Spec.singleHyphens p false (Spec.dropWhile isHyphen s) = true.
Proof.
  intros Hp. induction s as [|c s IH]; simpl; auto.
  destruct (isHyphen c) eqn:Ec.
  - rewrite (Hp c Ec). rewrite !andb_true_iff. intros [_ H].
    apply IH. apply singleHyphens_weaken. assumption.
  - auto.
Qed.

Lemma singleHyphens_dropWhileEnd (p q : codeunit -> bool) (s : jsstring) :
  forall b,
    Spec.singleHyphens p b s = true ->
    Spec.singleHyphens p b (Spec.dropWhileEnd q s) = true.
Proof.
  induction s as [|c s IH]; intros b; simpl; auto.
  intros H. destruct (Spec.dropWhileEnd q s) as [|d t] eqn:E.
  - destruct (q c); simpl; auto.
    destruct (p c); auto.
    rewrite !andb_true_iff in *. tauto.
  - cbn [Spec.singleHyphens]. destruct (p c).
    + rewrite !andb_true_iff in *. destruct H as [H1 H2].
      split; [assumption | exact (IH true H2)].
    + exact (IH false H).
Qed.

Lemma dropWhileEnd_idem (q : codeunit -> bool) (s : jsstring) :
  Spec.dropWhileEnd q (Spec.dropWhileEnd q s) = Spec.dropWhileEnd q s.
Proof.
  induction s as [|c s IH]; simpl; auto.
  destruct (Spec.dropWhileEnd q s) as [|d t] eqn:E.
  - destruct (q c) eqn:Ec; simpl; rewrite ?Ec; auto.
  - change (Spec.dropWhileEnd q (c :: d :: t))
      with (match Spec.dropWhileEnd q (d :: t) with
            | [] => if q c then [] else [c]
            | t' => c :: t'
            end).
    rewrite IH. reflexivity.
Qed.

Lemma dropWhile_head (q : codeunit -> bool) (s : jsstring) :
  Spec.dropWhile q (Spec.dropWhileEnd q (Spec.dropWhile q s))
  = Spec.dropWhileEnd q (Spec.dropWhile q s).
Proof.
  induction s as [|c s IH]; simpl; auto.
  destruct (q c) eqn:Ec; auto.
  cbn [Spec.dropWhileEnd].
  destruct (Spec.dropWhileEnd q s); rewrite ?Ec; simpl; rewrite Ec; reflexivity.
Qed.

Lemma stripSeparators_idem (s : jsstring) :
  Spec.stripSeparators (Spec.stripSeparators s) = Spec.stripSeparators s.
Proof.
  unfold Spec.stripSeparators.
  rewrite dropWhile_head. apply dropWhileEnd_idem.
Qed.

Lemma singleHyphens_stripSeparators (p : codeunit -> bool) (s : jsstring) :
  (forall c, isHyphen c = true -> p c = true) ->
  Spec.singleHyphens p false s = true ->
  Spec.singleHyphens p false (Spec.stripSeparators s) = true.
Proof.
  intros Hp H. unfold Spec.stripSeparators.
  apply singleHyphens_dropWhileEnd, singleHyphens_dropWhile; assumption.
Qed.

Lemma forallb_const_true (f : codeunit -> bool) (s : jsstring) :
  (forall c, f c = true) -> forallb f s = true.
Proof.
  intros H. induction s as [|c s IH]; simpl; auto.
  rewrite H, IH. reflexivity.
Qed.

Lemma forallb_filter (k q : codeunit -> bool) (s : jsstring) :
  forallb q s = true ->
  forallb (fun c => k c && q c) (filter k s) = true.
Proof.
  induction s as [|c s IH]; simpl; auto.
  rewrite andb_true_iff. intros [Hc Hs].
  destruct (k c) eqn:Ek; simpl; auto.
  rewrite Ek, Hc. simpl. auto.
Qed.

Lemma filter_all (k : codeunit -> bool) (s : jsstring) :
  forallb k s = true -> filter k s = s.
Proof.
  induction s as [|c s IH]; simpl; auto.
  rewrite andb_true_iff. intros [-> Hs]. rewrite IH; auto.
Qed.


Section WithCaseMapping.
Context {CM : CaseMapping}.

(** *** [makeUrlFriendly] *)

Lemma normalize_units (s : jsstring) :
  forallb normalUnit (Spec.normalize s) = true.
Proof.
  unfold Spec.normalize.
  apply forallb_stripSeparators.
  apply forallb_collapseRuns; [reflexivity|].
  apply forallb_const_true. intros c. unfold normalUnit.
  destruct (isLowerAlnum c); reflexivity.
Qed.

Lemma normalize_singleHyphens (s : jsstring) :
  Spec.singleHyphens nonAlnum false (Spec.normalize s) = true.
Proof.
  unfold Spec.normalize.
  apply singleHyphens_stripSeparators.
  - intros c Hc. unfold nonAlnum. rewrite hyphen_not_alnum; auto.
  - apply (singleHyphens_collapseRuns nonAlnum). reflexivity.
Qed.

Lemma makeUrlFriendly_normalize (s : jsstring) :
  makeUrlFriendly s = Spec.normalize s.
Proof.
  unfold makeUrlFriendly. destruct s as [|c s].
  - simpl. unfold Spec.normalize. rewrite toLowerCase_nil. reflexivity.
  - cbn [truthy negb]. unfold reNonAlnumRun.
    rewrite replaceAll_Plus, replaceAll_edge.
    apply trim_no_space.
    generalize (normalize_units (c :: s)). unfold Spec.normalize.
    apply forallb_impl. intros d Hd. unfold normalUnit in Hd.
    apply orb_true_iff in Hd. destruct Hd as [Hd|Hd].
    + rewrite alnum_not_space; auto.
    + rewrite hyphen_not_space; auto.
Qed.

Lemma normalize_idem (s : jsstring) :
  Spec.normalize (Spec.normalize s) = Spec.normalize s.
Proof.
  unfold Spec.normalize at 1.
  rewrite toLowerCase_fixed.
  - rewrite (collapseRuns_fixed nonAlnum) by apply normalize_singleHyphens.
    unfold Spec.normalize. apply stripSeparators_idem.
  - generalize (normalize_units s). apply forallb_impl.
    intros c. apply alnum_plain.
Qed.

Lemma normalize_whitespace (s : jsstring) :
  Spec.whitespaceOnly s -> Spec.normalize s = [].
Proof.
  unfold Spec.whitespaceOnly. intros H. unfold Spec.normalize.
  rewrite toLowerCase_fixed.
  - destruct (collapseRuns_all nonAlnum [HYPHEN] s) as [_ E].
    + revert H. apply forallb_impl. intros c Hc. unfold nonAlnum.
      rewrite space_not_alnum; auto.
    + unfold nonAlnum in E. rewrite E. destruct s; reflexivity.
  - revert H. apply forallb_impl. intros c Hc.
    rewrite Hc, orb_true_r, space_not_upper; auto.
Qed.

(** *** [createSlug] *)

Lemma createSlug_slug (s : jsstring) : createSlug s = Spec.slug s.
Proof.
  unfold createSlug, Spec.slug. destruct s as [|c s].
  - simpl. rewrite toLowerCase_nil. reflexivity.
  - cbn [truthy negb]. unfold reHyphenRun, reSpaceRun.
    rewrite replaceAll_edge, !replaceAll_Plus.
    unfold replaceAll, reSpecial. rewrite replaceFrom_Class_delete.
    do 3 f_equal. apply filter_ext. intros a. apply negb_involutive.
Qed.

Lemma slug_units (s : jsstring) :
  forallb slugUnit (Spec.slug s) = true.
Proof.
  unfold Spec.slug.
  apply forallb_stripSeparators.
  apply forallb_collapseRuns; [reflexivity|].
  apply forallb_impl with (p := slugUnit).
  { intros c ->. apply orb_true_r. }
  apply forallb_collapseRuns; [reflexivity|].
  apply forallb_impl
    with (p := fun c => kept c && negb (isUpperAscii c)).
  { intros c. unfold kept, slugUnit.
    destruct (isWord c), (isSpace c), (isHyphen c), (isUpperAscii c);
      simpl; auto. }
  apply (forallb_filter kept).
  apply forallb_trim. apply toLowerCase_no_upper.
Qed.

Lemma slug_singleHyphens (s : jsstring) :
  Spec.singleHyphens isHyphen false (Spec.slug s) = true.
Proof.
  unfold Spec.slug.
  apply singleHyphens_stripSeparators; auto.
  apply singleHyphens_collapseRuns. reflexivity.
Qed.

Lemma slug_idem (s : jsstring) : Spec.slug (Spec.slug s) = Spec.slug s.
Proof.
  pose proof (slug_units s) as U.
  unfold Spec.slug at 1.
  rewrite toLowerCase_fixed.
  2:{ revert U. apply forallb_impl. intros c. unfold slugUnit.
      rewrite andb_true_iff. intros [H1 H2]. rewrite H2, word_plain; auto. }
  rewrite trim_no_space.
  2:{ revert U. apply forallb_impl. intros c. unfold slugUnit.
      rewrite andb_true_iff, orb_true_iff. intros [[H|H] _].
      - rewrite word_not_space; auto.
      - rewrite hyphen_not_space; auto. }
  rewrite filter_all.
  2:{ revert U. apply forallb_impl. intros c. unfold slugUnit.
      rewrite andb_true_iff, orb_true_iff. intros [[H|H] _];
        rewrite H; simpl; auto using orb_true_r. }
  rewrite (collapseRuns_none isSpace).
  2:{ revert U. apply forallb_impl. intros c. unfold slugUnit.
      rewrite andb_true_iff, orb_true_iff. intros [[H|H] _].
      - rewrite word_not_space; auto.
      - rewrite hyphen_not_space; auto. }
  rewrite collapseRuns_fixed by apply slug_singleHyphens.
  unfold Spec.slug. apply stripSeparators_idem.
Qed.

Lemma slug_whitespace (s : jsstring) :
  Spec.whitespaceOnly s -> Spec.slug s = [].
Proof.
  unfold Spec.whitespaceOnly. intros H. unfold Spec.slug.
  rewrite toLowerCase_fixed.
  - rewrite trim_all_space by assumption. reflexivity.
  - revert H. apply forallb_impl. intros c Hc.
    rewrite Hc, orb_true_r, space_not_upper; auto.
Qed.

End WithCaseMapping.

End NormalizerFacts.

(** C4, as the code has it.  [makeUrlFriendly], the normalizer of the
    resolver, lower-cases its input, replaces every maximal run of code
    units outside [a-z0-9] by one hyphen and strips the leading and
    trailing hyphens.  [createSlug], which builds the shareable
    addresses, works differently: it lower-cases and trims, deletes
    every code unit that is neither a word character ([A-Za-z0-9_]),
    white space nor a hyphen, replaces each run of white space by a
    hyphen and each run of hyphens by one hyphen, and strips the leading
    and trailing hyphens.  Both send an empty or white-space-only input
    to the empty string. *)
Theorem normalizers_as_coded {CM : CaseMapping} :
  (forall s, Normalizer.makeUrlFriendly s = Spec.normalize s)
  /\ (forall s, Normalizer.createSlug s = Spec.slug s)
  /\ (forall s, Spec.whitespaceOnly s ->
                Normalizer.makeUrlFriendly s = []
                /\ Normalizer.createSlug s = []).
Proof.
  split; [|split].
  - apply NormalizerFacts.makeUrlFriendly_normalize.
  - apply NormalizerFacts.createSlug_slug.
  - intros s H. split.
    + rewrite NormalizerFacts.makeUrlFriendly_normalize.
      apply NormalizerFacts.normalize_whitespace; assumption.
    + rewrite NormalizerFacts.createSlug_slug.
      apply NormalizerFacts.slug_whitespace; assumption.
Qed.

(** C4 as stated fails for [createSlug]: on ["a.b"] it deletes the dot,
    where the normalization of the design document puts a separator. *)
Lemma createSlug_deletes_where_normalize_separates :
  Normalizer.createSlug (js "a.b") = js "ab"
  /\ Spec.normalize (js "a.b") = js "a-b"
  /\ Normalizer.createSlug (js "a.b") <> Spec.normalize (js "a.b").
Proof.
  split; [|split]; try (vm_compute; reflexivity).
  vm_compute. discriminate.
Qed.

(** C5.  Both [makeUrlFriendly] and [createSlug] are idempotent. *)
Theorem normalizers_idempotent {CM : CaseMapping} :
  (forall s, Normalizer.makeUrlFriendly (Normalizer.makeUrlFriendly s)
             = Normalizer.makeUrlFriendly s)
  /\ (forall s, Normalizer.createSlug (Normalizer.createSlug s)
                = Normalizer.createSlug s).
Proof.
  split; intros s.
  - rewrite !NormalizerFacts.makeUrlFriendly_normalize.
    apply NormalizerFacts.normalize_idem.
  - rewrite !NormalizerFacts.createSlug_slug.
    apply NormalizerFacts.slug_idem.
Qed.

(* ------------------------------------------------------------------ *)
(** ** Catalog table *)
(* ------------------------------------------------------------------ *)

Module CatalogFacts.

Import Catalog.

Arguments JsString.eqb : simpl never.

Lemma lookup_update_same {A : Type} (k : jsstring) (v : A) l :
  lookup k (update k v l) = Some v.
Proof.
  induction l as [|[k' v'] l IH]; simpl.
  - rewrite eqb_refl. reflexivity.
  - destruct (eqb k k') eqn:E; simpl; rewrite E; auto.
Qed.

Lemma lookup_update_other {A : Type} (k k' : jsstring) (v : A) l :
  k' <> k -> lookup k' (update k v l) = lookup k' l.
Proof.
  intros Hne. induction l as [|[k0 v0] l IH]; simpl.
  - rewrite (proj2 (eqb_neq k' k)); auto.
  - destruct (eqb k k0) eqn:E; simpl.
    + apply eqb_eq in E. subst k0.
      rewrite (proj2 (eqb_neq k' k)); auto.
    + rewrite IH. reflexivity.
Qed.

Lemma lookup_app {A : Type} (k : jsstring) (l1 l2 : list (jsstring * A)) :
  lookup k (l1 ++ l2) =
  match lookup k l1 with
  | Some v => Some v
  | None => lookup k l2
  end.
Proof.
  induction l1 as [|[k' v'] l1 IH]; simpl; auto.
  destruct (eqb k k'); auto.
Qed.

Lemma update_absent {A : Type} (k : jsstring) (v : A) l :
  lookup k l = None -> update k v l = l ++ [(k, v)].
Proof.
  induction l as [|[k' v'] l IH]; simpl; auto.
  destruct (eqb k k'); [discriminate|]. intros H. rewrite IH; auto.
Qed.

Lemma lookup_In {A : Type} (k : jsstring) (v : A) l :
  lookup k l = Some v -> In (k, v) l.
Proof.
  induction l as [|[k' v'] l IH]; simpl; [discriminate|].
  destruct (eqb k k') eqn:E.
  - apply eqb_eq in E. subst. intros H. injection H as ->. auto.
  - auto.
Qed.

Lemma In_lookup {A : Type} (k : jsstring) (v : A) l :
  In (k, v) l -> exists v', lookup k l = Some v'.
Proof.
  induction l as [|[k' v'] l IH]; simpl; [tauto|].
  intros [H|H].
  - injection H as -> ->. rewrite eqb_refl. eauto.
  - destruct (eqb k k'); eauto.
Qed.

Lemma In_insertIndexed {A : Type} (i : N) (e x : A) (y : N * A) l :
  In y (insertIndexed i e l) -> y = (i, e) \/ In y l.
Proof.
  induction l as [|[j e'] l IH]; simpl.
  - intros [H|[]]; auto.
  - destruct (N.leb i j); simpl.
    + intros [H|[H|H]]; auto.
    + intros [H|H]; auto. destruct (IH H); auto.
Qed.

Lemma In_indexedEntries {A : Type} (y : N * (jsstring * A)) l :
  In y (indexedEntries l) -> In (snd y) l.
Proof.
  induction l as [|[k v] l IH]; simpl; [tauto|].
  destruct (arrayIndex k).
  - intros H. apply (In_insertIndexed _ _ (k, v)) in H.
    destruct H as [->|H]; simpl; auto.
  - auto.
Qed.

(** [Object.entries] lists own properties only. *)
Lemma In_entries {A : Type} (e : jsstring * A) l :
  In e (entries l) -> In e l.
Proof.
  unfold entries. rewrite in_app_iff, in_map_iff, filter_In.
  intros [(y & <- & Hy)|[H _]]; auto.
  apply In_indexedEntries. assumption.
Qed.

Section WithCaseMapping.
Context {CM : CaseMapping}.

Lemma hasKey_keyOf (k : jsstring) (g : game) :
  hasKey k g = true <-> keyOf g = Some k.
Proof.
  unfold hasKey. destruct (keyOf g) as [k'|].
  - rewrite eqb_eq. split; congruence.
  - split; discriminate.
Qed.

Lemma addGame_keyOf (t : table) (g : game) :
  addGame t g = match keyOf g with
                | Some k => tableSet t k g
                | None => t
                end.
Proof.
  unfold addGame, keyOf. destruct (truthyProp g ID); reflexivity.
Qed.

Lemma addGames_app (t : table) (gs1 gs2 : list game) :
  addGames t (gs1 ++ gs2) = addGames (addGames t gs1) gs2.
Proof. unfold addGames. apply fold_left_app. Qed.

(** Games without an id leave the table as it is. *)
Lemma addGames_filter (gs : list game) :
  forall t,
    addGames t gs
    = addGames t (filter (fun g => match keyOf g with
                                   | Some _ => true
                                   | None => false
                                   end) gs).
Proof.
  induction gs as [|g gs IH]; intros t; simpl; auto.
  rewrite addGame_keyOf. destruct (keyOf g) eqn:E; simpl.
  - rewrite addGame_keyOf, E. apply IH.
  - apply IH.
Qed.

Lemma case3_fold (ms : list (jsstring * member)) (keys : list jsstring) :
  forall t,
    fold_left
      (fun acc collectionKey =>
         if negb (eqb collectionKey NITROME_GAMES) then
           match lookup collectionKey ms with
           | Some (MArray games) => addGames acc games
           | _ => acc
           end
         else acc) keys t
    = addGames t
        (flat_map
           (fun collectionKey =>
              if negb (eqb collectionKey NITROME_GAMES) then
                match lookup collectionKey ms with
                | Some (MArray games) => games
                | _ => []
                end
              else []) keys).
Proof.
  induction keys as [|k keys IH]; intros t; simpl; auto.
  rewrite addGames_app, IH.
  destruct (negb (eqb k NITROME_GAMES)); auto.
  destruct (lookup k ms) as [[gs| | |]|]; auto.
Qed.

(** The table is the outcome of case 1 with the games of all arrays
    added in order. *)
Lemma processGames_arrayGames (jsonData : document) :
  processGames jsonData
  = addGames (case1 jsonData emptyTable) (arrayGames jsonData).
Proof.
  unfold processGames. destruct jsonData as [gs|ms]; simpl.
  - reflexivity.
  - rewrite case3_fold, addGames_app.
    destruct (lookup NITROME_GAMES ms) as [[gs| | |]|]; reflexivity.
Qed.

Lemma lastWithKey_snoc (k : jsstring) (gs : list game) (g : game) :
  lastWithKey k (gs ++ [g])
  = if hasKey k g then Some g else lastWithKey k gs.
Proof. unfold lastWithKey. rewrite fold_left_app. reflexivity. Qed.


Lemma tableSet_filed (t : table) (k : jsstring) (g : game) :
  filed (tableSet t k g) k g.
Proof.
  unfold filed, tableSet.
  destruct (lookup k (own t)) eqn:E; simpl.
  - left. apply lookup_update_same.
  - destruct (eqb k PROTO) eqn:Ek; simpl.
    + apply eqb_eq in Ek.
      destruct (match proto t with
                | Some p => match lookup PROTO p with
                            | Some _ => true
                            | None => false
                            end
                | None => false
                end); simpl.
      * left. rewrite lookup_app, E. simpl. rewrite eqb_refl. reflexivity.
      * right. auto.
    + left. rewrite lookup_app, E. simpl. rewrite eqb_refl. reflexivity.
Qed.

Lemma tableSet_other (t : table) (k k' : jsstring) (g g' : game) :
  k' <> k -> filed t k g -> filed (tableSet t k' g') k g.
Proof.
  intros Hne [H|(Hk & H1 & H2)]; unfold filed, tableSet.
  - left. destruct (lookup k' (own t)) eqn:E; simpl.
    + rewrite lookup_update_other; auto.
    + destruct (eqb k' PROTO && _); simpl; auto.
      rewrite lookup_app, H. reflexivity.
  - subst k. right. split; auto.
    rewrite (proj2 (eqb_neq k' PROTO)) by assumption. simpl.
    destruct (lookup k' (own t)) eqn:E; simpl.
    + rewrite lookup_update_other; auto.
    + rewrite lookup_app, H1. cbn [lookup].
      rewrite (proj2 (eqb_neq PROTO k')) by congruence. auto.
Qed.

Lemma addGames_filed (gs : list game) :
  forall (t : table) (k : jsstring) (g : game),
    lastWithKey k gs = Some g -> filed (addGames t gs) k g.
Proof.
  induction gs as [|x gs IH] using rev_ind; intros t k g.
  - discriminate.
  - rewrite lastWithKey_snoc, addGames_app. simpl.
    rewrite addGame_keyOf.
    destruct (hasKey k x) eqn:E.
    + intros H. injection H as ->.
      apply hasKey_keyOf in E. rewrite E. apply tableSet_filed.
    + intros H. specialize (IH t k g H).
      destruct (keyOf x) as [k'|] eqn:Ex; auto.
      apply tableSet_other; auto.
      intros ->. unfold hasKey in E. rewrite Ex, eqb_refl in E. discriminate.
Qed.

Lemma filed_tableGet (t : table) (k : jsstring) (g : game) :
  lookup PROTO g = None -> filed t k g -> tableGet t k = VGame g.
Proof.
  intros Hg [H|(-> & H1 & H2)]; unfold tableGet.
  - rewrite H. reflexivity.
  - rewrite H1, H2, Hg. unfold objectPrototypeGet.
    rewrite eqb_refl. reflexivity.
Qed.

Lemma keyed_inv (t : table) :
  keyed t = true ->
  proto t = None
  /\ forall k g, In (k, g) (own t) -> hasKey k g = true.
Proof.
  unfold keyed. destruct (proto t); [discriminate|].
  rewrite forallb_forall. intros H. split; auto.
  intros k g Hin. exact (H (k, g) Hin).
Qed.

Lemma idMatches_hasKey (g : game) (searchName : jsstring) :
  idMatches g searchName = hasKey searchName g.
Proof.
  unfold idMatches, hasKey, keyOf.
  destruct (truthyProp g ID); reflexivity.
Qed.

Lemma objectPrototypeGet_not_inherited (k : jsstring) :
  inherited k = false -> objectPrototypeGet None k = VUndefined.
Proof.
  unfold inherited, objectPrototypeGet. rewrite orb_false_iff.
  intros [-> ->]. reflexivity.
Qed.

Lemma tableGet_keyed (t : table) (k : jsstring) :
  keyed t = true ->
  tableGet t k = match lookup k (own t) with
                 | Some g => VGame g
                 | None => objectPrototypeGet None k
                 end.
Proof.
  intros H. destruct (keyed_inv t H) as [Hp _].
  unfold tableGet. rewrite Hp. reflexivity.
Qed.

(** In a keyed table, an id matches the search name exactly when an
    entry is stored under it. *)
Lemma keyed_lookup_none (t : table) (searchName : jsstring) :
  keyed t = true ->
  (lookup searchName (own t) = None
   <-> forall k g, In (k, g) (own t) -> idMatches g searchName = false).
Proof.
  intros H. destruct (keyed_inv t H) as [_ Hk]. split.
  - intros Hn k g Hin. destruct (idMatches g searchName) eqn:E; auto.
    rewrite idMatches_hasKey in E. apply hasKey_keyOf in E.
    pose proof (Hk k g Hin) as Hg. apply hasKey_keyOf in Hg.
    assert (k = searchName) by congruence. subst k.
    destruct (In_lookup _ _ _ Hin) as [v Hv]. congruence.
  - intros Hall. destruct (lookup searchName (own t)) as [g|] eqn:E; auto.
    apply lookup_In in E.
    pose proof (Hk _ _ E) as Hg. rewrite <- idMatches_hasKey in Hg.
    rewrite (Hall _ _ E) in Hg. discriminate.
Qed.

Lemma findLoop_names (searchName : jsstring) (es : list (jsstring * game)) :
  (forall k g, In (k, g) es -> idMatches g searchName = false) ->
  findLoop searchName es
  = match find (fun e => nameMatches (snd e) searchName) es with
    | Some e => VGame (snd e)
    | None => VNull
    end.
Proof.
  induction es as [|[k g] es IH]; intros H; simpl; auto.
  rewrite (H k g) by (simpl; auto).
  destruct (nameMatches g searchName); auto.
  apply IH. intros k' g' Hin. apply (H k' g'). simpl. auto.
Qed.

Lemma findGameByUrlName_keyed (t : table) (rawKey : jsstring) :
  keyed t = true ->
  rawKey <> [] ->
  inherited (toLowerCase rawKey) = false ->
  findGameByUrlName (Some t) rawKey
  = match lookup (toLowerCase rawKey) (own t) with
    | Some g => VGame g
    | None =>
        match find (fun e => nameMatches (snd e) (toLowerCase rawKey))
                   (entries (own t)) with
        | Some e => VGame (snd e)
        | None => VNull
        end
    end.
Proof.
  intros Hk Hne Hinh. unfold findGameByUrlName.
  destruct rawKey as [|c r]; [congruence|]. cbn [truthy negb].
  rewrite tableGet_keyed by assumption.
  destruct (lookup (toLowerCase (c :: r)) (own t)) as [g|] eqn:E.
  - reflexivity.
  - rewrite objectPrototypeGet_not_inherited by assumption. cbn [valueTruthy].
    apply findLoop_names. intros k g Hin.
    apply (proj1 (keyed_lookup_none t _ Hk) E k g).
    apply In_entries. assumption.
Qed.

(** What an object literal hands out under the name [constructor]. *)
Lemma findGameByUrlName_inherited (t : table) (rawKey : jsstring) :
  proto t = None ->
  rawKey <> [] ->
  lookup (toLowerCase rawKey) (own t) = None ->
  existsb (eqb (toLowerCase rawKey)) objectPrototypeMethods = true ->
  findGameByUrlName (Some t) rawKey = VFunction (toLowerCase rawKey).
Proof.
  intros Hp Hne Hl Hm. unfold findGameByUrlName.
  destruct rawKey as [|c r]; [congruence|]. cbn [truthy negb].
  unfold tableGet. rewrite Hl, Hp. unfold objectPrototypeGet.
  rewrite Hm.
  destruct (eqb (toLowerCase (c :: r)) PROTO) eqn:E; [|reflexivity].
  exfalso. apply eqb_eq in E. rewrite E in Hm. vm_compute in Hm. discriminate.
Qed.


End WithCaseMapping.

End CatalogFacts.

(** C8.  The lookup table is built from the games of every array of
    the document: the [nitromeGames] array first and then the other
    arrays in the order of their keys (the array itself when the
    document is one), on top of what the object-of-games case has
    entered.  Games without an id are skipped.  A game is filed under
    its lower-cased id, and of several games with the same lower-cased
    id the one processed last is the one that stays: it is the own
    property of that name (for the name [__proto__], it may sit in the
    prototype slot instead), and it is what [table[key]] yields. *)
Theorem loadGamesData_merges_last_write_wins {CM : CaseMapping} :
  forall (jsonData : Catalog.document) (t : Catalog.table),
    Catalog.loadGamesData (Catalog.Ok jsonData) = Some t ->
    t = Catalog.addGames (Catalog.case1 jsonData Catalog.emptyTable)
          (filter (fun g => match Catalog.truthyProp g Catalog.ID with
                            | Some _ => true
                            | None => false
                            end)
                  (Catalog.arrayGames jsonData))
    /\ forall (k : jsstring) (g : Catalog.game),
        Catalog.lastWithKey k (Catalog.arrayGames jsonData) = Some g ->
        Catalog.filed t k g
        /\ (k <> Catalog.PROTO -> Catalog.lookup k (Catalog.own t) = Some g)
        /\ (Catalog.lookup Catalog.PROTO g = None ->
            Catalog.tableGet t k = Catalog.VGame g).
Proof.
  intros jsonData t H. unfold Catalog.loadGamesData in H.
  destruct (length (Catalog.own (Catalog.processGames jsonData)));
    [discriminate|].
  injection H as <-.
  rewrite CatalogFacts.processGames_arrayGames. split.
  - rewrite CatalogFacts.addGames_filter. f_equal.
    apply filter_ext. intros g. unfold Catalog.keyOf.
    destruct (Catalog.truthyProp g Catalog.ID); reflexivity.
  - intros k g Hl.
    pose proof (CatalogFacts.addGames_filed
                  (Catalog.arrayGames jsonData)
                  (Catalog.case1 jsonData Catalog.emptyTable) k g Hl) as F.
    split; [exact F|]. split.
    + intros Hk. destruct F as [F|(F & _)]; [exact F | contradiction].
    + intros Hg. apply CatalogFacts.filed_tableGet; assumption.
Qed.

Module ResolverFacts.

Import Catalog.

Section WithCaseMapping.
Context {CM : CaseMapping}.

(** The loop returns the first entry that matches by id or by name. *)
Lemma findLoop_first (searchName : jsstring) (es : list (jsstring * game)) :
  findLoop searchName es
  = match find (fun e => idMatches (snd e) searchName
                         || nameMatches (snd e) searchName) es with
    | Some e => VGame (snd e)
    | None => VNull
    end.
Proof.
  induction es as [|[k g] es IH]; [reflexivity|].
  cbn [findLoop find snd].
  destruct (idMatches g searchName); [reflexivity|].
  destruct (nameMatches g searchName); [reflexivity|].
  exact IH.
Qed.

(** The resolver on an object literal, for a key whose lower-cased form
    is not an inherited name. *)
Lemma findGameByUrlName_literal (t : table) (rawKey : jsstring) :
  proto t = None ->
  rawKey <> [] ->
  inherited (toLowerCase rawKey) = false ->
  findGameByUrlName (Some t) rawKey
  = match lookup (toLowerCase rawKey) (own t) with
    | Some g => VGame g
    | None =>
        match find (fun e => idMatches (snd e) (toLowerCase rawKey)
                             || nameMatches (snd e) (toLowerCase rawKey))
                   (entries (own t)) with
        | Some e => VGame (snd e)
        | None => VNull
        end
    end.
Proof.
  intros P N I. unfold findGameByUrlName.
  destruct rawKey as [|c r]; [congruence|]. cbn [truthy negb].
  unfold tableGet. rewrite P.
  destruct (lookup (toLowerCase (c :: r)) (own t)) as [g|]; [reflexivity|].
  rewrite (CatalogFacts.objectPrototypeGet_not_inherited _ I).
  cbn [valueTruthy]. apply findLoop_first.
Qed.

End WithCaseMapping.

End ResolverFacts.

(** C2, as the code has it.  For a key whose lower-cased form is not
    the name of something every object inherits, and a table that is an
    object literal, the resolver returns the entry stored under the
    lower-cased key, if there is one; otherwise the first entry, in the
    enumeration order of the table, whose lower-cased id or whose
    normalized display name equals the lower-cased key -- the key is
    lower-cased, not normalized; and [null] if there is none.  In a
    table in which every entry is stored under its lower-cased id, the
    entry stored under the lower-cased key exists exactly when some
    entry's id equals the key up to case, so that the display names are
    only compared when no id matches, and a match on the id wins over a
    match on the display name, whatever the order of the two
    entries. *)
Theorem findGameByUrlName_id_then_name {CM : CaseMapping} :
  forall (t : Catalog.table) (rawKey : jsstring),
    rawKey <> [] ->
    Catalog.inherited (toLowerCase rawKey) = false ->
    (Catalog.proto t = None ->
     Catalog.findGameByUrlName (Some t) rawKey
     = match Catalog.lookup (toLowerCase rawKey) (Catalog.own t) with
       | Some g => Catalog.VGame g
       | None =>
           match find (fun e =>
                         Catalog.idMatches (snd e) (toLowerCase rawKey)
                         || Catalog.nameMatches (snd e) (toLowerCase rawKey))
                      (Catalog.entries (Catalog.own t)) with
           | Some e => Catalog.VGame (snd e)
           | None => Catalog.VNull
           end
       end)
    /\ (Catalog.keyed t = true ->
        Catalog.findGameByUrlName (Some t) rawKey
        = match Catalog.lookup (toLowerCase rawKey) (Catalog.own t) with
          | Some g => Catalog.VGame g
          | None =>
              match find (fun e =>
                            Catalog.nameMatches (snd e) (toLowerCase rawKey))
                         (Catalog.entries (Catalog.own t)) with
              | Some e => Catalog.VGame (snd e)
              | None => Catalog.VNull
              end
          end
        /\ (Catalog.lookup (toLowerCase rawKey) (Catalog.own t) = None
            <-> forall k g, In (k, g) (Catalog.own t) ->
                            Catalog.idMatches g (toLowerCase rawKey) = false)
        /\ (forall ka a kb b,
               In (ka, a) (Catalog.own t) ->
               In (kb, b) (Catalog.own t) ->
               Catalog.nameMatches a (toLowerCase rawKey) = true ->
               Catalog.idMatches b (toLowerCase rawKey) = true ->
               exists g,
                 Catalog.findGameByUrlName (Some t) rawKey = Catalog.VGame g
                 /\ Catalog.idMatches g (toLowerCase rawKey) = true)).
Proof.
  intros t rawKey Hne Hinh. split.
  - intros Hp.
    exact (ResolverFacts.findGameByUrlName_literal t rawKey Hp Hne Hinh).
  - intros Hk.
    pose proof (CatalogFacts.findGameByUrlName_keyed t rawKey Hk Hne Hinh) as R.
    pose proof (CatalogFacts.keyed_lookup_none t (toLowerCase rawKey) Hk) as N.
    split; [exact R | split; [exact N|]].
    intros ka a kb b Ha Hb Hna Hib. rewrite R.
    destruct (Catalog.lookup (toLowerCase rawKey) (Catalog.own t))
      as [g|] eqn:E.
    + exists g. split; auto.
      destruct (CatalogFacts.keyed_inv t Hk) as [_ Hks].
      rewrite CatalogFacts.idMatches_hasKey.
      apply Hks. apply CatalogFacts.lookup_In. assumption.
    + rewrite (proj1 N eq_refl kb b Hb) in Hib. discriminate.
Qed.

(** C3 at the key ["constructor"]: whatever the catalog, as long as no
    game is filed under that name, the resolver does not answer [null]
    but hands out the function that every object inherits under it. *)
Theorem findGameByUrlName_constructor {CM : CaseMapping} :
  forall t : Catalog.table,
    Catalog.proto t = None ->
    Catalog.lookup (js "constructor") (Catalog.own t) = None ->
    Catalog.findGameByUrlName (Some t) (js "constructor")
    = Catalog.VFunction (js "constructor").
Proof.
  intros t Hp Hl.
  assert (L : toLowerCase (js "constructor") = js "constructor")
    by (apply NormalizerFacts.toLowerCase_fixed; vm_compute; reflexivity).
  rewrite <- L at 2.
  apply CatalogFacts.findGameByUrlName_inherited; auto.
  - discriminate.
  - rewrite L. assumption.
  - rewrite L. vm_compute. reflexivity.
Qed.

(* ------------------------------------------------------------------ *)
(** ** Recently played games *)
(* ------------------------------------------------------------------ *)

Module RecentFacts.

Import Enhancer.

Lemma not_In_filter (gameId : jsstring) (l : list jsstring) :
  ~ In gameId (filter (fun id => negb (eqb id gameId)) l).
Proof.
  rewrite filter_In. intros [_ H]. rewrite eqb_refl in H. discriminate.
Qed.

Lemma filter_length_le (f : jsstring -> bool) (l : list jsstring) :
  length (filter f l) <= length l.
Proof.
  induction l as [|x l IH]; simpl; auto.
  destruct (f x); simpl; lia.
Qed.

Lemma filter_In_shorter (gameId : jsstring) (l : list jsstring) :
  In gameId l ->
  length (filter (fun id => negb (eqb id gameId)) l) < length l.
Proof.
  induction l as [|x l IH]; simpl; [tauto|].
  intros [->|H].
  - rewrite eqb_refl. simpl.
    pose proof (filter_length_le (fun id => negb (eqb id gameId)) l). lia.
  - specialize (IH H). destruct (negb (eqb x gameId)); simpl; lia.
Qed.

Lemma removelast_snoc (l : list jsstring) (x : jsstring) :
  removelast (l ++ [x]) = l.
Proof. apply removelast_last. Qed.

Lemma nonempty_snoc (l : list jsstring) :
  l <> [] -> exists kept oldest, l = kept ++ [oldest].
Proof.
  intros H. destruct (exists_last H) as (kept & oldest & E). eauto.
Qed.

End RecentFacts.

(** C7.  Starting from a stored list of at most 10 ids (or from no
    stored list), [addToRecentlyPlayed] stores the new id first,
    followed by the other ids in their order and without the new id,
    so that an id already present has moved to the front and occurs
    once; the stored list has at most 10 entries; nothing is dropped
    unless ten other ids were there, and then the last, oldest one is
    the one dropped. *)
Theorem addToRecentlyPlayed_bounded :
  forall (gameId : jsstring) (ls : Enhancer.storage),
    let before :=
      match Enhancer.recentlyPlayedItem ls with Some l => l | None => [] end in
    let others := filter (fun id => negb (JsString.eqb id gameId)) before in
    length before <= 10 ->
    exists after,
      Enhancer.recentlyPlayedItem (Enhancer.addToRecentlyPlayed gameId ls)
      = Some (gameId :: after)
      /\ ~ In gameId after
      /\ length (gameId :: after) <= 10
      /\ (length others < 10 -> after = others)
      /\ (In gameId before -> after = others)
      /\ (length others = 10 ->
          exists oldest, others = after ++ [oldest]).
Proof.
  intros gameId ls before others Hlen.
  assert (Ho : length others <= length before)
    by apply RecentFacts.filter_length_le.
  unfold Enhancer.addToRecentlyPlayed. cbn [Enhancer.recentlyPlayedItem].
  fold before. fold others. cbn [length].
  destruct (Nat.ltb 10 (S (length others))) eqn:E.
  - apply Nat.ltb_lt in E.
    assert (L : length others = 10) by lia.
    assert (Hne : others <> []) by (destruct others; simpl in *; congruence).
    destruct (RecentFacts.nonempty_snoc others Hne) as (kept & oldest & K).
    exists kept. unfold Enhancer.pop.
    assert (Lk : length kept = 9).
    { rewrite K, length_app in L. simpl in L. lia. }
    split.
    { rewrite K. change (gameId :: kept ++ [oldest])
                   with ((gameId :: kept) ++ [oldest]).
      rewrite removelast_last. reflexivity. }
    split.
    { intros Hin. apply (RecentFacts.not_In_filter gameId before).
      fold others. rewrite K. apply in_or_app. auto. }
    split; [simpl; lia|].
    split; [intros Hlt; lia|].
    split.
    { intros Hin. apply RecentFacts.filter_In_shorter in Hin.
      fold others in Hin. lia. }
    intros _. exists oldest. exact K.
  - apply Nat.ltb_ge in E. exists others.
    split; [reflexivity|].
    split; [apply RecentFacts.not_In_filter|].
    split; [simpl; lia|].
    split; [reflexivity|].
    split; [reflexivity|].
    intros L. lia.
Qed.

(* ------------------------------------------------------------------ *)
(** ** [getGames] and the heap *)
(* ------------------------------------------------------------------ *)

Module HeapFacts.

Import Catalog Enhancer.

Lemma nth_error_alloc_old (h : heap) (o : object) (a : ref) :
  a < length h -> nth_error (h ++ [o]) a = nth_error h a.
Proof. intros H. apply nth_error_app1. assumption. Qed.

Lemma nth_error_alloc_new (h : heap) (o : object) :
  nth_error (h ++ [o]) (length h) = Some o.
Proof. rewrite nth_error_app2, Nat.sub_diag; auto. Qed.

Lemma nth_error_setObject (h : heap) (r a : ref) (o : object) :
  nth_error (setObject h r o) a
  = if Nat.eqb a r then
      match nth_error h a with Some _ => Some o | None => None end
    else nth_error h a.
Proof.
  revert r a. induction h as [|x h IH]; intros r a.
  - destruct (Nat.eqb a r); destruct a; destruct r; reflexivity.
  - destruct r as [|r]; destruct a as [|a]; simpl; auto.
Qed.


Lemma mutateAt_extendsAt (h h' : heap) (r : ref) (m : mutation) :
  extendsAt h h' r -> extendsAt h (mutateAt r h' m) r.
Proof.
  intros (Hr & Hold & props & Hnew). unfold mutateAt. rewrite Hnew.
  split; [assumption|]. split.
  - intros a Ha. rewrite nth_error_setObject.
    rewrite (proj2 (Nat.eqb_neq a r)) by assumption. auto.
  - exists (mutate props m). rewrite nth_error_setObject.
    rewrite Nat.eqb_refl, Hnew. reflexivity.
Qed.

Lemma mutations_extendsAt (ms : list mutation) :
  forall (h h' : heap) (r : ref),
    extendsAt h h' r -> extendsAt h (fold_left (mutateAt r) ms h') r.
Proof.
  induction ms as [|m ms IH]; intros h h' r H; simpl; auto.
  apply IH. apply mutateAt_extendsAt. assumption.
Qed.

Lemma alloc_extendsAt (h : heap) (props : list (jsstring * ref)) :
  extendsAt h (h ++ [OTable props]) (length h).
Proof.
  split; [reflexivity|]. split.
  - intros a Ha. destruct (Nat.lt_ge_cases a (length h)) as [L|L].
    + apply nth_error_alloc_old. assumption.
    + rewrite (proj2 (nth_error_None h a)) by assumption.
      apply nth_error_None. rewrite length_app. simpl. lia.
  - exists props. apply nth_error_alloc_new.
Qed.

Lemma derefGames_extendsAt (h h' : heap) (r : ref)
      (props : list (jsstring * ref)) :
  extendsAt h h' r -> derefGames h' props = derefGames h props.
Proof.
  intros (Hr & Hold & p & Hnew). unfold derefGames.
  apply flat_map_ext. intros [k a]. simpl.
  destruct (Nat.eq_dec a r) as [->|Ha].
  - rewrite Hnew. rewrite (proj2 (nth_error_None h r)) by lia. reflexivity.
  - rewrite Hold by assumption. reflexivity.
Qed.

(** The catalog is read through [gamesData], which a heap extension
    leaves alone. *)
Lemma catalogOf_extendsAt (st : loader) (h' : heap) (r : ref) :
  (forall g, gamesData st = Some g -> g < length (objects st)) ->
  extendsAt (objects st) h' r ->
  catalogOf {| objects := h'; gamesData := gamesData st |} = catalogOf st.
Proof.
  intros Hv H. unfold catalogOf. cbn [gamesData objects].
  destruct (gamesData st) as [g|]; auto.
  specialize (Hv g eq_refl).
  pose proof H as (Hr & Hold & p & Hnew).
  rewrite Hold by lia.
  destruct (nth_error (objects st) g) as [[gm|props]|]; auto.
  rewrite (derefGames_extendsAt (objects st) h' r); auto.
Qed.

Lemma parseGames_extends (l : list (jsstring * game)) :
  forall h props h',
    parseGames h l = (props, h') -> exists ext, h' = h ++ ext.
Proof.
  induction l as [|[k g] l IH]; intros h props h'; simpl.
  - intros H. injection H as _ <-. exists []. rewrite app_nil_r. reflexivity.
  - unfold alloc.
    destruct (parseGames (h ++ [OGame g]) l) as [ps h2] eqn:E.
    intros H. injection H as _ <-.
    apply IH in E. destruct E as [ext ->].
    exists (OGame g :: ext). rewrite <- app_assoc. reflexivity.
Qed.

End HeapFacts.

(** *** The copy of the cached catalog *)

Module CopyFacts.

Import Catalog Enhancer.

Lemma insertIndexed_map {A B : Type} (f : A -> B) (i : N) (e : A)
      (l : list (N * A)) :
  insertIndexed i (f e) (map (fun ie => (fst ie, f (snd ie))) l)
  = map (fun ie => (fst ie, f (snd ie))) (insertIndexed i e l).
Proof.
  induction l as [|[j e'] l IH]; [reflexivity|].
  cbn [map insertIndexed fst snd]. destruct (N.leb i j); [reflexivity|].
  cbn [map fst snd]. f_equal. exact IH.
Qed.

(** [Object.entries] of a copy lists the copies, in the same order. *)
Lemma entries_map_values {A B : Type} (f : A -> B)
      (l : list (jsstring * A)) :
  entries (map (fun kv => (fst kv, f (snd kv))) l)
  = map (fun kv => (fst kv, f (snd kv))) (entries l).
Proof.
  unfold entries. rewrite map_app. f_equal.
  - assert (E : indexedEntries (map (fun kv => (fst kv, f (snd kv))) l)
                = map (fun ie => (fst ie, (fst (snd ie), f (snd (snd ie)))))
                      (indexedEntries l)).
    { induction l as [|[k v] l IH]; [reflexivity|].
      cbn [map indexedEntries fst snd]. rewrite IH.
      destruct (arrayIndex k); [|reflexivity].
      exact (insertIndexed_map (fun kv => (fst kv, f (snd kv))) n (k, v) _). }
    rewrite E, !map_map. reflexivity.
  - induction l as [|[k v] l IH]; [reflexivity|].
    cbn [map filter fst]. rewrite IH.
    destruct (arrayIndex k); reflexivity.
Qed.

(** The game that an address holds. *)
Lemma derefGames_map (h : heap) (props : list (jsstring * ref)) :
  (forall kv, In kv props ->
              exists g, nth_error h (snd kv) = Some (OGame g)) ->
  derefGames h props
  = map (fun kv => (fst kv,
                    match nth_error h (snd kv) with
                    | Some (OGame g) => g
                    | _ => []
                    end)) props.
Proof.
  unfold derefGames. induction props as [|kv props IH]; intros R;
    [reflexivity|].
  simpl. destruct (R kv (or_introl eq_refl)) as (g & E).
  unfold ref in E. rewrite E.
  simpl. f_equal. apply IH. intros kv' I. apply R. right. exact I.
Qed.

Lemma derefGames_entries (h : heap) (props : list (jsstring * ref)) :
  (forall kv, In kv props ->
              exists g, nth_error h (snd kv) = Some (OGame g)) ->
  derefGames h (entries props) = entries (derefGames h props).
Proof.
  intros R. rewrite (derefGames_map h props R), derefGames_map.
  - symmetry.
    exact (entries_map_values
             (fun r => match nth_error h r with
                       | Some (OGame g) => g
                       | _ => []
                       end) props).
  - intros kv I. apply R. exact (CatalogFacts.In_entries kv props I).
Qed.

(** What [JSON.parse] allocates. *)
Lemma parseGames_spec (l : list (jsstring * game)) :
  forall h props h',
    parseGames h l = (props, h') ->
    (exists ext, h' = h ++ ext)
    /\ (forall kv, In kv props -> length h <= snd kv)
    /\ forall more,
        (forall kv, In kv props ->
                    exists g, nth_error (h' ++ more) (snd kv) = Some (OGame g))
        /\ derefGames (h' ++ more) props = l.
Proof.
  induction l as [|[k g] l IH]; intros h props h' H.
  - cbn [parseGames] in H. injection H as <- <-.
    split; [exists []; rewrite app_nil_r; reflexivity|].
    split; [intros kv []|]. intros more. split; [intros kv []|reflexivity].
  - cbn [parseGames] in H. unfold alloc in H.
    destruct (parseGames (h ++ [OGame g]) l) as [ps h2] eqn:E.
    injection H as <- <-.
    destruct (IH _ _ _ E) as ((ext & ->) & Fresh & D).
    assert (Here : forall more,
               nth_error (((h ++ [OGame g]) ++ ext) ++ more) (length h)
               = Some (OGame g)).
    { intros more. rewrite <- !app_assoc.
      rewrite nth_error_app2 by lia. rewrite Nat.sub_diag. reflexivity. }
    split; [exists (OGame g :: ext); rewrite <- app_assoc; reflexivity|].
    split.
    + intros kv [<-|I]; [cbn [snd]; lia|].
      specialize (Fresh kv I). rewrite length_app in Fresh. cbn [length] in Fresh.
      lia.
    + intros more. destruct (D more) as [R Dl]. split.
      * intros kv [<-|I]; [exists g; apply Here | exact (R kv I)].
      * unfold derefGames. simpl flat_map. rewrite (Here more).
        simpl. f_equal. exact Dl.
Qed.

Lemma derefGames_agree (h h' : heap) (props : list (jsstring * ref)) :
  (forall kv, In kv props -> nth_error h' (snd kv) = nth_error h (snd kv)) ->
  derefGames h' props = derefGames h props.
Proof.
  unfold derefGames. induction props as [|kv props IH]; intros A;
    [reflexivity|].
  simpl. pose proof (A kv (or_introl eq_refl)) as E.
  unfold ref in E. rewrite E. f_equal.
  apply IH. intros kv' I. apply A. right. exact I.
Qed.

(** A heap that agrees with the loader's on the addresses in use shows
    the same catalog. *)
Lemma catalogOf_agree (st : loader) (h' : heap) :
  closed st ->
  (forall a, a < length (objects st) ->
             nth_error h' a = nth_error (objects st) a) ->
  catalogOf {| objects := h'; gamesData := gamesData st |} = catalogOf st.
Proof.
  intros C A. unfold catalogOf. cbn [gamesData objects].
  destruct (gamesData st) as [r|] eqn:G; [|reflexivity].
  destruct (C r G) as [Lr In_heap].
  rewrite (A r Lr).
  destruct (nth_error (objects st) r) as [[g|props]|] eqn:E; try reflexivity.
  f_equal. f_equal. apply derefGames_agree.
  intros kv I. apply A. exact (In_heap props kv eq_refl I).
Qed.

End CopyFacts.

(** C10, as the code has it.  The loader's [getGames] returns [null]
    while the catalog is not loaded; once it is, it returns a new
    object, at an address that was not in use, whose properties are
    those of the catalog table and refer to the same game objects, and
    it leaves every existing object as it was.  Whatever properties a
    caller then assigns to or deletes from the object it received, the
    catalog table and the games keep their contents, so resolutions see
    the same catalog.  The enhancer's [getGames] does the same as long
    as there is no unexpired cached catalog in local storage; when
    there is one, it returns instead, also when the catalog has not
    been loaded, a new object at an address that was not in use, whose
    properties are those of the cached catalog, in enumeration order,
    and refer to game objects that are new as well; the objects that
    existed keep their contents, also when the caller assigns to or
    deletes from the object it received, and so does the catalog of a
    loader in which nothing dangles. *)
Theorem getGames_returns_fresh_copy :
  (forall st, Enhancer.gamesData st = None ->
              Enhancer.getGames st = (None, st))
  /\ (forall st r props,
         Enhancer.gamesData st = Some r ->
         nth_error (Enhancer.objects st) r = Some (Enhancer.OTable props) ->
         let r' := length (Enhancer.objects st) in
         let st' :=
           {| Enhancer.objects :=
                Enhancer.objects st
                ++ [Enhancer.OTable (Catalog.entries props)];
              Enhancer.gamesData := Enhancer.gamesData st |} in
         Enhancer.getGames st = (Some r', st')
         /\ nth_error (Enhancer.objects st) r' = None
         /\ forall (ms : list Enhancer.mutation),
             let h'' := fold_left (Enhancer.mutateAt r') ms
                                  (Enhancer.objects st') in
             (forall a, a <> r' ->
                        nth_error h'' a = nth_error (Enhancer.objects st) a)
             /\ Enhancer.catalogOf
                  {| Enhancer.objects := h'';
                     Enhancer.gamesData := Enhancer.gamesData st |}
                = Enhancer.catalogOf st)
  /\ (forall ls now st,
         Enhancer.getCachedGamesData ls now = None ->
         Enhancer.getGamesEnhanced ls now st = Enhancer.getGames st)
  /\ (forall ls now st cached,
         Enhancer.getCachedGamesData ls now = Some cached ->
         exists r' props h',
           Enhancer.getGamesEnhanced ls now st
           = (Some r',
              {| Enhancer.objects := h';
                 Enhancer.gamesData := Enhancer.gamesData st |})
           /\ length (Enhancer.objects st) <= r'
           /\ nth_error h' r' = Some (Enhancer.OTable props)
           /\ Enhancer.derefGames h' props = Catalog.entries cached
           /\ (forall kv, In kv props ->
                          length (Enhancer.objects st) <= snd kv)
           /\ forall (ms : list Enhancer.mutation),
               let h'' := fold_left (Enhancer.mutateAt r') ms h' in
               (forall a, a < length (Enhancer.objects st) ->
                          nth_error h'' a = nth_error (Enhancer.objects st) a)
               /\ (Enhancer.closed st ->
                   Enhancer.catalogOf
                     {| Enhancer.objects := h'';
                        Enhancer.gamesData := Enhancer.gamesData st |}
                   = Enhancer.catalogOf st)).
Proof.
  split; [|split; [|split]].
  - intros st H. unfold Enhancer.getGames. rewrite H. reflexivity.
  - intros st r props Hg Hr r' st'. split; [|split].
    + unfold Enhancer.getGames, Enhancer.spread, Enhancer.alloc, st', r'.
      rewrite Hg, Hr. reflexivity.
    + apply nth_error_None. unfold r'. lia.
    + intros ms h''.
      assert (X : Enhancer.extendsAt (Enhancer.objects st) h'' r').
      { apply HeapFacts.mutations_extendsAt. apply HeapFacts.alloc_extendsAt. }
      split.
      * destruct X as (_ & Hold & _). exact Hold.
      * apply HeapFacts.catalogOf_extendsAt with (r := r'); [|exact X].
        intros g Eg. rewrite Hg in Eg. injection Eg as <-.
        apply nth_error_Some. rewrite Hr. discriminate.
  - intros ls now st H. unfold Enhancer.getGamesEnhanced. rewrite H.
    reflexivity.
  - intros ls now st cached H. unfold Enhancer.getGamesEnhanced. rewrite H.
    unfold Enhancer.parseTable.
    destruct (Enhancer.parseGames (Enhancer.objects st) cached)
      as [props h1] eqn:E.
    unfold Enhancer.alloc, Enhancer.spread.
    rewrite HeapFacts.nth_error_alloc_new. unfold Enhancer.alloc.
    destruct (CopyFacts.parseGames_spec cached _ _ _ E)
      as ((ext & ->) & Fresh & D).
    set (h0 := Enhancer.objects st) in *.
    set (hp := (h0 ++ ext) ++ [Enhancer.OTable props]).
    set (more := [Enhancer.OTable props;
                  Enhancer.OTable (Catalog.entries props)]).
    assert (Eh : hp ++ [Enhancer.OTable (Catalog.entries props)]
                 = (h0 ++ ext) ++ more).
    { unfold hp, more. rewrite <- !app_assoc. reflexivity. }
    destruct (D more) as [R Dl].
    exists (length hp), (Catalog.entries props),
      (hp ++ [Enhancer.OTable (Catalog.entries props)]).
    split; [reflexivity|].
    split; [unfold hp; rewrite !length_app; lia|].
    split; [apply HeapFacts.nth_error_alloc_new|].
    split; [rewrite Eh, (CopyFacts.derefGames_entries _ _ R), Dl; reflexivity|].
    split; [intros kv I; apply Fresh;
            exact (CatalogFacts.In_entries kv props I)|].
    intros ms.
    set (h'' := fold_left (Enhancer.mutateAt (length hp)) ms
                          (hp ++ [Enhancer.OTable (Catalog.entries props)])).
    assert (X : Enhancer.extendsAt hp h'' (length hp)).
    { apply HeapFacts.mutations_extendsAt. apply HeapFacts.alloc_extendsAt. }
    assert (Old : forall a, a < length h0 -> nth_error h'' a = nth_error h0 a).
    { intros a La. destruct X as (_ & Hold & _).
      rewrite Hold by (unfold hp; rewrite !length_app; lia).
      unfold hp. rewrite <- app_assoc. apply nth_error_app1. exact La. }
    split; [exact Old|].
    intros C. exact (CopyFacts.catalogOf_agree st h'' C Old).
Qed.

(** C10 as stated fails for the enhancer's [getGames]: with a cached
    catalog in local storage it returns an object although the catalog
    has not been loaded. *)
Lemma getGamesEnhanced_not_null_before_load :
  let ls := {| Enhancer.recentlyPlayedItem := None;
               Enhancer.gamesDataItem :=
                 Some [(js "aquanaut",
                        [(js "id", js "Aquanaut"); (js "name", js "Aquanaut");
                         (js "path", js "a.swf")])];
               Enhancer.cacheTimestampItem := Some 1000%Z |} in
  let st := {| Enhancer.objects := []; Enhancer.gamesData := None |} in
  Enhancer.catalogOf st = None
  /\ fst (Enhancer.getGamesEnhanced ls 2000%Z st) = Some 2
  /\ fst (Enhancer.getGamesEnhanced ls 2000%Z st) <> None.
Proof.
  cbv zeta. split; [reflexivity|]. split.
  - vm_compute. reflexivity.
  - vm_compute. discriminate.
Qed.

(* ------------------------------------------------------------------ *)
(** ** Navigation *)
(* ------------------------------------------------------------------ *)

Module PageFacts.

Import Catalog Page.

(** A completion never assigns [currentGame]. *)
Lemma loadGameResume_currentGame (k : suspended) (r : outcome) (p : page) :
  currentGame (loadGameResume k r p) = currentGame p.
Proof. destruct r as [[|]| |]; reflexivity. Qed.

Lemma loadGameResume_nitromeGames (k : suspended) (r : outcome) (p : page) :
  nitromeGames (loadGameResume k r p) = nitromeGames p.
Proof. destruct r as [[|]| |]; reflexivity. Qed.

Lemma loadGameStart_found (id : jsstring) (g : game) (p : page) :
  findGame (nitromeGames p) id = Some g ->
  loadGameStart id p
  = ({| nitromeGames := nitromeGames p;
        currentGame := Some id;
        currentPlayer := currentPlayer p;
        rufflePlayer := rufflePlayer p;
        infoPanel := infoPanel p |},
     Some {| gameId := id;
             gameName := lookup NAME g;
             gamePath := lookup PATH g |}).
Proof. intros H. unfold loadGameStart. rewrite H. reflexivity. Qed.

Lemma nth_error_snoc_last {A : Type} (l : list A) (x : A) :
  nth_error (l ++ [x]) (length l) = Some x.
Proof. rewrite nth_error_app2, Nat.sub_diag; auto. Qed.

Lemma clear_other (l : list (option suspended)) (n m : nat) :
  n <> m -> nth_error (clear l n) m = nth_error l m.
Proof.
  revert n m. induction l as [|x l IH]; intros n m H.
  - destruct n; reflexivity.
  - destruct n as [|n]; destruct m as [|m]; simpl; auto; congruence.
Qed.

Lemma step_navigate_found (w : world) (id : jsstring) (g : game) :
  findGame (nitromeGames (shown w)) id = Some g ->
  step w (Navigate id)
  = {| shown := {| nitromeGames := nitromeGames (shown w);
                   currentGame := Some id;
                   currentPlayer := currentPlayer (shown w);
                   rufflePlayer := rufflePlayer (shown w);
                   infoPanel := infoPanel (shown w) |};
       inflight := inflight w
                   ++ [Some {| gameId := id;
                               gameName := lookup NAME g;
                               gamePath := lookup PATH g |}] |}.
Proof.
  intros H. unfold step. rewrite (loadGameStart_found id g _ H). reflexivity.
Qed.

Lemma step_complete (w : world) (n : nat) (k : suspended) (r : outcome) :
  nth_error (inflight w) n = Some (Some k) ->
  step w (Complete n r)
  = {| shown := loadGameResume k r (shown w);
       inflight := clear (inflight w) n |}.
Proof. intros H. unfold step. rewrite H. reflexivity. Qed.

End PageFacts.

(** C6, as the code has it.  Let a navigation to A be issued and then,
    before its existence check returns, a navigation to B; let B's
    check return first and A's after it.  Then [currentGame] ends as B,
    because it is assigned when a navigation is issued and no
    completion assigns it.  But calls of [loadGame] carry no sequence
    number and no completion is discarded: the late completion of A
    runs to its end and puts A's player and A's info panel over B's. *)
Theorem late_completion_is_applied :
  forall (w : Page.world) (A B : jsstring) (gA gB : Catalog.game),
    Page.findGame (Page.nitromeGames (Page.shown w)) A = Some gA ->
    Page.findGame (Page.nitromeGames (Page.shown w)) B = Some gB ->
    let n := length (Page.inflight w) in
    let final :=
      Page.shown
        (Page.run w [Page.Navigate A; Page.Navigate B;
                     Page.Complete (S n) (Page.HeadOk true);
                     Page.Complete n (Page.HeadOk true)]) in
    Page.currentGame final = Some B
    /\ Page.rufflePlayer final
       = Page.PlayerElement (Catalog.lookup Page.PATH gA)
    /\ Page.currentPlayer final = Some (Catalog.lookup Page.PATH gA)
    /\ Page.infoPanel final
       = Page.updateInfoPanel A (Catalog.lookup Page.PATH gA)
                              (Catalog.lookup Catalog.NAME gA).
Proof.
  intros w A B gA gB HA HB n final. subst final.
  change (Page.run w [Page.Navigate A; Page.Navigate B;
                      Page.Complete (S n) (Page.HeadOk true);
                      Page.Complete n (Page.HeadOk true)])
    with (Page.step
            (Page.step
               (Page.step (Page.step w (Page.Navigate A)) (Page.Navigate B))
               (Page.Complete (S n) (Page.HeadOk true)))
            (Page.Complete n (Page.HeadOk true))).
  rewrite (PageFacts.step_navigate_found w A gA HA).
  rewrite (PageFacts.step_navigate_found _ B gB) by exact HB.
  cbn [Page.shown Page.inflight Page.nitromeGames Page.currentPlayer
       Page.rufflePlayer Page.infoPanel].
  set (kA := {| Page.gameId := A;
                Page.gameName := Catalog.lookup Catalog.NAME gA;
                Page.gamePath := Catalog.lookup Page.PATH gA |}).
  set (kB := {| Page.gameId := B;
                Page.gameName := Catalog.lookup Catalog.NAME gB;
                Page.gamePath := Catalog.lookup Page.PATH gB |}).
  rewrite (PageFacts.step_complete _ (S n) kB).
  2:{ cbn [Page.inflight].
      replace (S n) with (length (Page.inflight w ++ [Some kA]))
        by (rewrite length_app; simpl; fold n; lia).
      apply PageFacts.nth_error_snoc_last. }
  rewrite (PageFacts.step_complete _ n kA).
  2:{ cbn [Page.inflight].
      rewrite PageFacts.clear_other by lia.
      rewrite <- app_assoc. fold n.
      rewrite nth_error_app2 by (fold n; lia).
      fold n. rewrite Nat.sub_diag. reflexivity. }
  cbn [Page.shown]. repeat split.
Qed.

(** C6 as stated fails: with two games in the list, the page ends up
    showing the player and the info panel of the game whose navigation
    was superseded. *)
Lemma superseded_game_is_shown :
  let gA := [(js "id", js "A"); (js "name", js "Game A");
             (js "path", js "a.swf")] in
  let gB := [(js "id", js "B"); (js "name", js "Game B");
             (js "path", js "b.swf")] in
  let w := {| Page.shown :=
                {| Page.nitromeGames := [gA; gB];
                   Page.currentGame := None;
                   Page.currentPlayer := None;
                   Page.rufflePlayer := Page.Blank;
                   Page.infoPanel := Page.DefaultInfo |};
              Page.inflight := [] |} in
  let final :=
    Page.shown
      (Page.run w [Page.Navigate (js "A"); Page.Navigate (js "B");
                   Page.Complete 1 (Page.HeadOk true);
                   Page.Complete 0 (Page.HeadOk true)]) in
  Page.currentGame final = Some (js "B")
  /\ Page.infoPanel final = Page.GameInfo (js "Game A") (Some (js "a.swf"))
  /\ Page.infoPanel final <> Page.GameInfo (js "Game B") (Some (js "b.swf"))
  /\ Page.rufflePlayer final = Page.PlayerElement (Some (js "a.swf")).
Proof.
  cbv zeta. repeat split; try (vm_compute; reflexivity).
  vm_compute. discriminate.
Qed.

(* ------------------------------------------------------------------ *)
(** ** Tables that [loadGamesData] builds *)
(* ------------------------------------------------------------------ *)

Module LoaderFacts.

Import Catalog CatalogFacts.

Arguments JsString.eqb : simpl never.

Section WithCaseMapping.
Context {CM : CaseMapping}.

Lemma forallb_update (f : jsstring * game -> bool) (k : jsstring) (g : game)
      (l : list (jsstring * game)) :
  (forall k', k' = k -> f (k', g) = true) ->
  forallb f l = true -> forallb f (update k g l) = true.
Proof.
  intros Hf. induction l as [|[k0 v0] l IH]; simpl.
  - intros _. rewrite Hf; auto.
  - rewrite andb_true_iff. intros [H0 Hl].
    destruct (eqb k k0) eqn:E; simpl.
    + apply eqb_eq in E. rewrite Hf, Hl; auto.
    + rewrite H0, IH; auto.
Qed.

Lemma tableSet_keyed (t : table) (k : jsstring) (g : game) :
  keyed t = true -> hasKey k g = true -> k <> PROTO ->
  keyed (tableSet t k g) = true.
Proof.
  unfold keyed, tableSet. intros Ht Hg Hk.
  destruct (proto t) eqn:Ep; [discriminate|].
  rewrite (proj2 (eqb_neq k PROTO)) by assumption. cbn [andb].
  destruct (lookup k (own t)) eqn:El; cbn [proto own].
  - apply forallb_update; auto. intros k' ->. assumption.
  - rewrite forallb_app, Ht. simpl. rewrite Hg. reflexivity.
Qed.

Lemma addGames_keyed (gs : list game) :
  forall t,
    keyed t = true ->
    (forall g, In g gs -> hasKey PROTO g = false) ->
    keyed (addGames t gs) = true.
Proof.
  induction gs as [|g gs IH]; intros t Ht Hgs; simpl; auto.
  apply IH.
  - rewrite addGame_keyOf. destruct (keyOf g) as [k|] eqn:E; auto.
    apply tableSet_keyed; auto.
    + apply hasKey_keyOf. assumption.
    + intros ->. specialize (Hgs g (or_introl eq_refl)).
      unfold hasKey in Hgs. rewrite E, eqb_refl in Hgs. discriminate.
  - intros g' Hin. apply Hgs. simpl. auto.
Qed.

(** A document whose games come in arrays, under [nitromeGames] or as
    the document itself, and whose ids are not [__proto__], gives a
    table in which every entry is stored under its lower-cased id. *)
Lemma loadGamesData_keyed (jsonData : document) (t : table) :
  loadGamesData (Ok jsonData) = Some t ->
  match jsonData with
  | DocArray _ => True
  | DocObject _ => hasNitromeGames jsonData = true
  end ->
  (forall g, In g (arrayGames jsonData) -> hasKey PROTO g = false) ->
  keyed t = true.
Proof.
  intros H Hshape Hids. unfold loadGamesData in H.
  destruct (length (own (processGames jsonData))); [discriminate|].
  injection H as <-. rewrite processGames_arrayGames.
  apply addGames_keyed; auto.
  destruct jsonData as [gs|ms]; simpl.
  - reflexivity.
  - simpl in Hshape. rewrite Hshape. reflexivity.
Qed.

Lemma lastWithKey_none (k : jsstring) (gs : list game) :
  lastWithKey k gs = None -> forall g, In g gs -> hasKey k g = false.
Proof.
  induction gs as [|x gs IH] using rev_ind; intros H g Hin.
  - destruct Hin.
  - rewrite lastWithKey_snoc in H.
    destruct (hasKey k x) eqn:E; [discriminate|].
    apply in_app_or in Hin. destruct Hin as [Hin|[<-|[]]]; auto.
Qed.

Lemma tableSet_lookup_other (t : table) (k k' : jsstring) (g : game) :
  k' <> k -> lookup k (own (tableSet t k' g)) = lookup k (own t).
Proof.
  intros Hne. unfold tableSet.
  destruct (lookup k' (own t)) eqn:E; cbn [own].
  - apply lookup_update_other. congruence.
  - destruct (eqb k' PROTO && _); cbn [own]; auto.
    rewrite lookup_app. cbn [lookup].
    rewrite (proj2 (eqb_neq k k')) by congruence.
    destruct (lookup k (own t)); reflexivity.
Qed.

Lemma addGames_lookup_none (k : jsstring) (gs : list game) :
  forall t,
    (forall g, In g gs -> hasKey k g = false) ->
    lookup k (own (addGames t gs)) = lookup k (own t).
Proof.
  induction gs as [|x gs IH]; intros t H; simpl; auto.
  rewrite IH by (intros g Hin; apply H; simpl; auto).
  rewrite addGame_keyOf. destruct (keyOf x) as [k'|] eqn:E; auto.
  apply tableSet_lookup_other. intros ->.
  specialize (H x (or_introl eq_refl)).
  unfold hasKey in H. rewrite E, eqb_refl in H. discriminate.
Qed.

(** The resolver on a loaded catalog, in terms of the games of the
    document: the last game whose id equals the key up to case, or else
    the first entry of the table whose normalized name is the
    lower-cased key. *)
Lemma findGameByUrlName_loaded (jsonData : document) (t : table)
      (rawKey : jsstring) :
  loadGamesData (Ok jsonData) = Some t ->
  match jsonData with
  | DocArray _ => True
  | DocObject _ => hasNitromeGames jsonData = true
  end ->
  (forall g, In g (arrayGames jsonData) -> hasKey PROTO g = false) ->
  rawKey <> [] ->
  inherited (toLowerCase rawKey) = false ->
  findGameByUrlName (Some t) rawKey
  = match lastWithKey (toLowerCase rawKey) (arrayGames jsonData) with
    | Some g => VGame g
    | None =>
        match find (fun e => nameMatches (snd e) (toLowerCase rawKey))
                   (entries (own t)) with
        | Some e => VGame (snd e)
        | None => VNull
        end
    end.
Proof.
  intros Hload Hshape Hids Hne Hinh.
  pose proof (loadGamesData_keyed jsonData t Hload Hshape Hids) as Hk.
  rewrite (findGameByUrlName_keyed t rawKey Hk Hne Hinh).
  unfold loadGamesData in Hload.
  destruct (length (own (processGames jsonData))); [discriminate|].
  injection Hload as <-. rewrite processGames_arrayGames.
  assert (C1 : case1 jsonData emptyTable = emptyTable).
  { destruct jsonData as [gs|ms]; simpl; auto.
    simpl in Hshape. rewrite Hshape. reflexivity. }
  rewrite C1.
  destruct (lastWithKey (toLowerCase rawKey) (arrayGames jsonData))
    as [g|] eqn:E.
  - destruct (addGames_filed (arrayGames jsonData) emptyTable _ _ E)
      as [F|(F & _)].
    + rewrite F. reflexivity.
    + exfalso. unfold inherited in Hinh. rewrite F, eqb_refl in Hinh.
      discriminate.
  - rewrite addGames_lookup_none by (apply lastWithKey_none; assumption).
    reflexivity.
Qed.

End WithCaseMapping.

End LoaderFacts.

(* ------------------------------------------------------------------ *)
(** ** The resolver against the design document *)
(* ------------------------------------------------------------------ *)

(** C2 as stated fails: for the key ["Bad_Ice_Cream"] the algorithm of
    the design document normalizes the key and finds the game named
    "Bad Ice Cream", while [findGameByUrlName] only lower-cases the key
    and finds nothing. *)
Lemma findGameByUrlName_does_not_normalize_key :
  Spec.resolve (js "Bad_Ice_Cream") [Sample.aquanaut; Sample.badIceCream]
  = Some Sample.badIceCream
  /\ Catalog.findGameByUrlName
       (Catalog.loadGamesData (Catalog.Ok Sample.gamesJson))
       (js "Bad_Ice_Cream")
     = Catalog.VNull.
Proof. split; vm_compute; reflexivity. Qed.

(* ------------------------------------------------------------------ *)
(** ** Instances *)
(* ------------------------------------------------------------------ *)

Lemma redirectUrl_first_matching_rule_witness :
  Redirector.redirectUrl (Redirector.Str (js "https://example.org/a.swf"))
  = Redirector.Str (js "https://example.org/a.swf").
Proof.
  apply (proj1 redirectUrl_first_matching_rule).
  intros m Hm. apply includes_false_iff.
  repeat (destruct Hm as [<-|Hm]; [vm_compute; reflexivity|]).
  destruct Hm.
Defined.

Lemma redirectUrl_rewrites_leftmost_occurrence_only_witness :
  Redirector.redirectUrl (Redirector.Str Sample.faqTwice)
  = Redirector.Str
      (js "https://cdn.xperia.pt/laserquest/faq.swf?next=https://jogos.ipv7.pt/faq.swf").
Proof.
  refine (proj1 (redirectUrl_rewrites_leftmost_occurrence_only
                   Sample.faqTwice
                   (firstn 2 Redirector.urlMappings)
                   {| Redirector.from := js "https://jogos.ipv7.pt/faq.swf";
                      Redirector.to :=
                        js "https://cdn.xperia.pt/laserquest/faq.swf" |}
                   (skipn 3 Redirector.urlMappings)
                   []
                   (js "?next=https://jogos.ipv7.pt/faq.swf")
                   _ _ _)).
  - reflexivity.
  - intros m Hm. apply includes_false_iff.
    repeat (destruct Hm as [<-|Hm]; [vm_compute; reflexivity|]).
    destruct Hm.
  - apply (indexOf_some Sample.faqTwice (js "https://jogos.ipv7.pt/faq.swf") 0).
    vm_compute. reflexivity.
Defined.

Lemma normalizers_as_coded_witness :
  Normalizer.makeUrlFriendly (js "   ") = []
  /\ Normalizer.createSlug (js "   ") = [].
Proof.
  apply (proj2 (proj2 (@normalizers_as_coded asciiCase))).
  vm_compute. reflexivity.
Defined.

Lemma normalizers_idempotent_witness :
  Normalizer.makeUrlFriendly
    (Normalizer.makeUrlFriendly (js "  Bad Ice-Cream!! 2 "))
  = Normalizer.makeUrlFriendly (js "  Bad Ice-Cream!! 2 ").
Proof.
  apply (proj1 (@normalizers_idempotent asciiCase)).
Defined.

Lemma findGameByUrlName_id_then_name_witness :
  Catalog.findGameByUrlName
    (Some (Catalog.processGames Sample.gamesJson)) (js "Bad-Ice-Cream")
  = Catalog.VGame Sample.badIceCream.
Proof.
  destruct (@findGameByUrlName_id_then_name asciiCase
              (Catalog.processGames Sample.gamesJson) (js "Bad-Ice-Cream"))
    as [_ K].
  - discriminate.
  - vm_compute. reflexivity.
  - destruct K as [R _].
    + vm_compute. reflexivity.
    + rewrite R. vm_compute. reflexivity.
Defined.

Lemma findGameByUrlName_constructor_witness :
  Catalog.findGameByUrlName
    (Some (Catalog.processGames Sample.gamesJson)) (js "constructor")
  = Catalog.VFunction (js "constructor").
Proof.
  apply (@findGameByUrlName_constructor asciiCase).
  - vm_compute. reflexivity.
  - vm_compute. reflexivity.
Defined.

Lemma late_completion_is_applied_witness :
  let final :=
    Page.shown
      (Page.run {| Page.shown := Sample.pageWithTwoGames; Page.inflight := [] |}
                [Page.Navigate (js "Aquanaut"); Page.Navigate (js "bic");
                 Page.Complete 1 (Page.HeadOk true);
                 Page.Complete 0 (Page.HeadOk true)]) in
  Page.currentGame final = Some (js "bic")
  /\ Page.rufflePlayer final
     = Page.PlayerElement
         (Some (js "https://cdn.xperia.pt/nitrone-games/Aquanaut.swf")).
Proof.
  destruct (late_completion_is_applied
              {| Page.shown := Sample.pageWithTwoGames; Page.inflight := [] |}
              (js "Aquanaut") (js "bic") Sample.aquanaut Sample.badIceCream)
    as (H1 & H2 & _).
  - vm_compute. reflexivity.
  - vm_compute. reflexivity.
  - split; [exact H1 | exact H2].
Defined.

Lemma addToRecentlyPlayed_bounded_witness :
  exists after,
    Enhancer.recentlyPlayedItem
      (Enhancer.addToRecentlyPlayed (js "Aquanaut") Sample.storageWithCache)
    = Some (js "Aquanaut" :: after)
    /\ ~ In (js "Aquanaut") after.
Proof.
  destruct (addToRecentlyPlayed_bounded (js "Aquanaut") Sample.storageWithCache)
    as (after & H1 & H2 & _).
  - simpl. lia.
  - exists after. split; [exact H1 | exact H2].
Defined.

Lemma loadGamesData_merges_last_write_wins_witness :
  Catalog.tableGet (Catalog.processGames Sample.gamesJsonWithDuplicate)
                   (js "aquanaut")
  = Catalog.VGame Sample.aquanautAgain.
Proof.
  destruct (@loadGamesData_merges_last_write_wins asciiCase
              Sample.gamesJsonWithDuplicate
              (Catalog.processGames Sample.gamesJsonWithDuplicate))
    as [_ H].
  - vm_compute. reflexivity.
  - apply (H (js "aquanaut") Sample.aquanautAgain).
    + vm_compute. reflexivity.
    + vm_compute. reflexivity.
Defined.

Lemma getGames_returns_fresh_copy_witness :
  fst (Enhancer.getGames Sample.loadedLoader) = Some 2
  /\ Enhancer.catalogOf
       {| Enhancer.objects :=
            fold_left (Enhancer.mutateAt 2)
                      [Enhancer.Delete (js "aquanaut");
                       Enhancer.Assign (js "x") 0]
                      (Enhancer.objects
                         (snd (Enhancer.getGames Sample.loadedLoader)));
          Enhancer.gamesData := Some 1 |}
     = Enhancer.catalogOf Sample.loadedLoader.
Proof.
  destruct (proj1 (proj2 getGames_returns_fresh_copy)
              Sample.loadedLoader 1 [(js "aquanaut", 0)] eq_refl eq_refl)
    as (H1 & _ & H3).
  split.
  - rewrite H1. reflexivity.
  - rewrite H1.
    exact (proj2 (H3 [Enhancer.Delete (js "aquanaut");
                      Enhancer.Assign (js "x") 0])).
Defined.

(* ================================================================== *)
(** * Further properties of the code *)
(* ================================================================== *)

(* ------------------------------------------------------------------ *)
(** ** The redirector at its interception points *)
(* ------------------------------------------------------------------ *)

Module PatchFacts.

Import Redirector Patches.

Lemma replace_changes (s p r : jsstring) :
  dollarFree r = true -> p <> r -> occursIn p s -> replace s p r <> s.
Proof.
  intros D N O.
  destruct (firstOccurrence_exists p s O) as (a & b & F).
  rewrite (replace_first s p r a b D F).
  destruct F as [E _]. rewrite E. intros K.
  apply app_inv_head in K. apply app_inv_tail in K. auto.
Qed.

Lemma redirectWith_fixed (ms : list mapping) (s : jsstring) :
  (forall m, In m ms -> dollarFree (to m) = true /\ from m <> to m) ->
  redirectWith ms s = s ->
  forall m, In m ms -> ~ occursIn (from m) s.
Proof.
  induction ms as [|m0 ms IH]; intros A E m I; [destruct I|].
  simpl in E. destruct (includes s (from m0)) eqn:Inc.
  - exfalso. apply includes_true_iff in Inc.
    destruct (A m0 (or_introl eq_refl)) as [D N].
    exact (replace_changes s (from m0) (to m0) D N Inc E).
  - destruct I as [<-|I].
    + apply includes_false_iff. exact Inc.
    + apply IH; auto. intros m' I'. apply A. right. exact I'.
Qed.

Lemma urlMappings_change (m : mapping) :
  In m urlMappings -> dollarFree (to m) = true /\ from m <> to m.
Proof.
  intros I. split; [apply RedirectorFacts.urlMappings_dollarFree; exact I|].
  simpl in I.
  repeat (destruct I as [<-|I]; [intros K; vm_compute in K; discriminate|]).
  destruct I.
Qed.

Lemma redirected_eq (s : jsstring) : redirected s = redirectWith urlMappings s.
Proof. reflexivity. Qed.

Lemma redirected_fixed_iff (s : jsstring) : redirected s = s <-> ~ covered s.
Proof.
  rewrite redirected_eq. unfold covered. split.
  - intros E (m & I & O).
    exact (redirectWith_fixed urlMappings s urlMappings_change E m I O).
  - intros N. apply RedirectorFacts.redirectWith_no_match.
    intros m I O. apply N. exists m. auto.
Qed.

Lemma covered_iff (s : jsstring) :
  covered s <-> existsb (fun m => includes s (from m)) urlMappings = true.
Proof.
  unfold covered. rewrite existsb_exists. split.
  - intros (m & I & O). exists m. split; [exact I|].
    apply includes_true_iff. exact O.
  - intros (m & I & O). exists m. split; [exact I|].
    apply includes_true_iff. exact O.
Qed.

Lemma not_covered_iff (s : jsstring) :
  ~ covered s <-> existsb (fun m => includes s (from m)) urlMappings = false.
Proof.
  rewrite covered_iff.
  destruct (existsb _ urlMappings); split; intros H;
    congruence || (exfalso; apply H; reflexivity).
Qed.

Lemma redirected_nil : redirected [] = [].
Proof. reflexivity. Qed.

End PatchFacts.

(** X1.  [redirectUrl] returns a string unchanged exactly when no rule
    of the table applies to it: a rule that applies always produces a
    different address.  The comparisons [newUrl !== resource.url] and
    [newSrc !== originalSrc] of the callers therefore test whether a
    rule applied. *)
Theorem redirectUrl_unchanged_iff_no_rule :
  forall s : jsstring,
    Redirector.redirectUrl (Redirector.Str s) = Redirector.Str s
    <-> ~ Patches.covered s.
Proof.
  intros s. rewrite <- PatchFacts.redirected_fixed_iff.
  unfold Patches.redirected. simpl. split.
  - intros E. injection E as E. exact E.
  - intros E. f_equal. exact E.
Qed.

(** X2.  The patched [fetch] requests the address that [redirectUrl]
    gives for the requested one, for a string (the empty one included)
    and for a [Request] alike.  A [Request] is passed on as the very
    object that came in when no rule applies to its address; when one
    does, a new [Request] with the rewritten address takes its
    place. *)
Theorem patchedFetch_requests_redirected :
  forall (fresh : nat) (res : Patches.resource),
    Patches.resourceUrl (Patches.patchedFetch fresh res)
    = option_map Patches.redirected (Patches.resourceUrl res)
    /\ forall r,
        res = Patches.RRequest r ->
        (~ Patches.covered (Patches.requestUrl r) ->
         Patches.patchedFetch fresh res = res)
        /\ (Patches.covered (Patches.requestUrl r) ->
            Patches.patchedFetch fresh res
            = Patches.RRequest
                {| Patches.requestId := fresh;
                   Patches.requestUrl :=
                     Patches.redirected (Patches.requestUrl r) |}
            /\ Patches.redirected (Patches.requestUrl r)
               <> Patches.requestUrl r).
Proof.
  intros fresh res. split.
  - destruct res as [s|r|b]; cbn [Patches.patchedFetch]; auto.
    + destruct s as [|c s]; reflexivity.
    + cbv zeta.
      destruct (eqb (Patches.redirected (Patches.requestUrl r))
                    (Patches.requestUrl r)) eqn:E; cbn [negb]; auto.
      apply eqb_eq in E. cbn [Patches.resourceUrl option_map].
      rewrite E. reflexivity.
  - intros r ->. cbn [Patches.patchedFetch]. cbv zeta. split.
    + intros N. apply PatchFacts.redirected_fixed_iff in N.
      rewrite N, eqb_refl. reflexivity.
    + intros C.
      assert (D : Patches.redirected (Patches.requestUrl r)
                  <> Patches.requestUrl r).
      { intros E. apply PatchFacts.redirected_fixed_iff in E. auto. }
      split; [|exact D].
      apply eqb_neq in D. rewrite D. reflexivity.
Qed.

(** X3.  After [patchExistingElements], the [src] of an [embed] (the
    [data] of an [object]) is what [redirectUrl] gives for its former
    value, a missing or empty attribute staying as it was; and
    [setAttribute] is called only on the elements to whose address a
    rule applies. *)
Theorem patchExistingElements_redirects :
  forall original : option jsstring,
    fst (Patches.patchAttribute original)
    = option_map Patches.redirected original
    /\ (snd (Patches.patchAttribute original) = true
        <-> exists s, original = Some s /\ Patches.covered s).
Proof.
  intros [s|]; cbn [Patches.patchAttribute].
  - destruct s as [|c s].
    + cbn [truthy fst snd option_map]. split; [reflexivity|]. split.
      * discriminate.
      * intros (s & E & C). injection E as <-.
        exfalso. apply PatchFacts.redirected_fixed_iff in C; auto.
    + cbn [truthy]. cbv zeta.
      destruct (eqb (Patches.redirected (c :: s)) (c :: s)) eqn:E;
        cbn [negb fst snd option_map].
      * apply eqb_eq in E. rewrite E. split; [reflexivity|]. split.
        -- discriminate.
        -- intros (s' & E' & C). injection E' as <-.
           exfalso. apply PatchFacts.redirected_fixed_iff in C; auto.
      * split; [reflexivity|]. split; [|reflexivity].
        intros _. exists (c :: s). split; [reflexivity|].
        apply eqb_neq in E.
        apply PatchFacts.covered_iff.
        destruct (existsb _ Redirector.urlMappings) eqn:X; [reflexivity|].
        exfalso. apply E. apply PatchFacts.redirected_fixed_iff.
        apply PatchFacts.not_covered_iff. exact X.
  - cbn [fst snd option_map]. split; [reflexivity|]. split.
    + discriminate.
    + intros (s & E & _). discriminate.
Qed.

(** X4.  The Nitrome patch module and the redirector give the same
    address exactly for the strings that contain the NitromeAPI
    address or to which no rule of the redirector applies; the patch
    leaves every string without the NitromeAPI address as it is. *)
Theorem nitromePatch_agrees_with_redirector :
  forall s : jsstring,
    (Patches.nitromePatchUrl (Redirector.Str s)
     = Redirector.redirectUrl (Redirector.Str s)
     <-> occursIn Patches.NITROME_FROM s \/ ~ Patches.covered s)
    /\ (~ occursIn Patches.NITROME_FROM s ->
        Patches.nitromePatchUrl (Redirector.Str s) = Redirector.Str s).
Proof.
  intros s.
  assert (R : includes s Patches.NITROME_FROM = true ->
              Redirector.redirectUrl (Redirector.Str s)
              = Redirector.Str (replace s Patches.NITROME_FROM Patches.NITROME_TO)).
  { intros I. unfold Redirector.redirectUrl, Redirector.urlMappings.
    cbn [Redirector.redirectWith Redirector.from Redirector.to].
    change (js "https://cdn.nitrome.com/components/NitromeAPI.pkg")
      with Patches.NITROME_FROM.
    rewrite I. reflexivity. }
  unfold Patches.nitromePatchUrl.
  destruct (includes s Patches.NITROME_FROM) eqn:I.
  - split.
    + split.
      * intros _. left. apply includes_true_iff. exact I.
      * intros _. symmetry. apply R. reflexivity.
    + intros N. exfalso. apply N. apply includes_true_iff. exact I.
  - split; [|reflexivity]. split.
    + intros E. right. apply PatchFacts.redirected_fixed_iff.
      symmetry in E. injection E as E. exact E.
    + intros [O|N].
      * apply includes_true_iff in O. congruence.
      * apply PatchFacts.redirected_fixed_iff in N.
        unfold Redirector.redirectUrl. f_equal. symmetry. exact N.
Qed.

Lemma redirectUrl_unchanged_iff_no_rule_witness :
  ~ Patches.covered (js "https://example.org/a.swf").
Proof.
  apply (proj1 (redirectUrl_unchanged_iff_no_rule
                  (js "https://example.org/a.swf"))).
  vm_compute. reflexivity.
Defined.

Lemma patchedFetch_requests_redirected_witness :
  Patches.patchedFetch 7
    (Patches.RRequest {| Patches.requestId := 1;
                         Patches.requestUrl := Sample.faqTwice |})
  = Patches.RRequest
      {| Patches.requestId := 7;
         Patches.requestUrl := Patches.redirected Sample.faqTwice |}.
Proof.
  refine (proj1 (proj2 (proj2 (patchedFetch_requests_redirected 7 _) _ eq_refl) _)).
  exists {| Redirector.from := js "https://jogos.ipv7.pt/faq.swf";
            Redirector.to := js "https://cdn.xperia.pt/laserquest/faq.swf" |}.
  split.
  - simpl. auto.
  - exists [], (js "?next=https://jogos.ipv7.pt/faq.swf"). reflexivity.
Defined.

Lemma patchExistingElements_redirects_witness :
  snd (Patches.patchAttribute (Some Sample.faqTwice)) = true.
Proof.
  apply (proj2 (proj2 (patchExistingElements_redirects (Some Sample.faqTwice)))).
  exists Sample.faqTwice. split; [reflexivity|].
  exists {| Redirector.from := js "https://jogos.ipv7.pt/faq.swf";
            Redirector.to := js "https://cdn.xperia.pt/laserquest/faq.swf" |}.
  split.
  - simpl. auto.
  - exists [], (js "?next=https://jogos.ipv7.pt/faq.swf"). reflexivity.
Defined.

Lemma nitromePatch_agrees_with_redirector_witness :
  Patches.nitromePatchUrl (Redirector.Str Sample.faqTwice)
  = Redirector.Str Sample.faqTwice.
Proof.
  apply (proj2 (nitromePatch_agrees_with_redirector Sample.faqTwice)).
  apply includes_false_iff. vm_compute. reflexivity.
Defined.

(* ------------------------------------------------------------------ *)
(** ** The range of the normalizers *)
(* ------------------------------------------------------------------ *)

Module ShapeFacts.

Import Shape NormalizerFacts.

Lemma hd_dropWhile (s : jsstring) :
  isHyphen (hd 0%N (Spec.dropWhile isHyphen s)) = false.
Proof.
  induction s as [|c s IH]; [reflexivity|].
  simpl. destruct (isHyphen c) eqn:E; [exact IH | exact E].
Qed.

Lemma hd_dropWhileEnd (s : jsstring) :
  isHyphen (hd 0%N s) = false ->
  isHyphen (hd 0%N (Spec.dropWhileEnd isHyphen s)) = false.
Proof.
  destruct s as [|c s]; [auto|].
  simpl. intros E. destruct (Spec.dropWhileEnd isHyphen s).
  - rewrite E. exact E.
  - exact E.
Qed.

Lemma last_dropWhileEnd (s : jsstring) :
  isHyphen (last (Spec.dropWhileEnd isHyphen s) 0%N) = false.
Proof.
  induction s as [|c s IH]; [reflexivity|].
  cbn [Spec.dropWhileEnd].
  destruct (Spec.dropWhileEnd isHyphen s) as [|d t].
  - destruct (isHyphen c) eqn:E; [reflexivity | exact E].
  - exact IH.
Qed.

Lemma dropWhile_fixed (s : jsstring) :
  isHyphen (hd 0%N s) = false -> Spec.dropWhile isHyphen s = s.
Proof.
  destruct s as [|c s]; [auto|]. simpl. intros ->. reflexivity.
Qed.

Lemma dropWhileEnd_fixed (s : jsstring) :
  isHyphen (last s 0%N) = false -> Spec.dropWhileEnd isHyphen s = s.
Proof.
  induction s as [|c s IH]; [auto|].
  intros E. cbn [Spec.dropWhileEnd]. destruct s as [|d s].
  - simpl in *. rewrite E. reflexivity.
  - rewrite IH by exact E. reflexivity.
Qed.

Lemma stripSeparators_fixed (s : jsstring) :
  startsWithHyphen s = false -> endsWithHyphen s = false ->
  Spec.stripSeparators s = s.
Proof.
  unfold startsWithHyphen, endsWithHyphen, Spec.stripSeparators.
  intros A B. rewrite dropWhile_fixed by exact A.
  apply dropWhileEnd_fixed. exact B.
Qed.

Lemma stripSeparators_edges (s : jsstring) :
  startsWithHyphen (Spec.stripSeparators s) = false
  /\ endsWithHyphen (Spec.stripSeparators s) = false.
Proof.
  unfold startsWithHyphen, endsWithHyphen, Spec.stripSeparators. split.
  - apply hd_dropWhileEnd. apply hd_dropWhile.
  - apply last_dropWhileEnd.
Qed.

Lemma singleHyphens_cons (p : codeunit -> bool) (b : bool) (c : codeunit)
      (s : jsstring) :
  Spec.singleHyphens p b (c :: s)
  = if p c then negb b && N.eqb c HYPHEN && Spec.singleHyphens p true s
    else Spec.singleHyphens p false s.
Proof. reflexivity. Qed.

(** On a string where the class [p] holds of the hyphens only, single
    hyphens and the absence of doubled ones are the same thing. *)
Lemma singleHyphens_not_doubled (p : codeunit -> bool) (s : jsstring) :
  forallb (fun c => Bool.eqb (p c) (isHyphen c)) s = true ->
  forall b, Spec.singleHyphens p b s = true -> doubledHyphen s = false.
Proof.
  induction s as [|c s IH]; [reflexivity|].
  intros A b H. cbn [forallb] in A. apply andb_true_iff in A.
  destruct A as [Ac A]. apply eqb_prop in Ac.
  cbn [doubledHyphen]. destruct s as [|d s]; [reflexivity|].
  rewrite singleHyphens_cons in H.
  assert (Ad : p d = isHyphen d).
  { cbn [forallb] in A. apply andb_true_iff in A.
    apply eqb_prop. exact (proj1 A). }
  apply orb_false_iff. split.
  - rewrite <- Ac, <- Ad. destruct (p c); [|reflexivity].
    destruct (p d) eqn:Pd; [|reflexivity].
    apply andb_true_iff in H. destruct H as [_ H].
    rewrite singleHyphens_cons, Pd in H. discriminate.
  - destruct (p c).
    + apply andb_true_iff in H. destruct H as [_ H].
      exact (IH A true H).
    + exact (IH A false H).
Qed.

Lemma not_doubled_singleHyphens (p : codeunit -> bool) (s : jsstring) :
  forallb (fun c => Bool.eqb (p c) (isHyphen c)) s = true ->
  doubledHyphen s = false ->
  forall b, (b = true -> isHyphen (hd 0%N s) = false) ->
            Spec.singleHyphens p b s = true.
Proof.
  induction s as [|c s IH]; [reflexivity|].
  intros A D b B. cbn [forallb] in A. apply andb_true_iff in A.
  destruct A as [Ac A]. apply eqb_prop in Ac.
  assert (D' : doubledHyphen s = false
               /\ (isHyphen c = true -> isHyphen (hd 0%N s) = false)).
  { cbn [doubledHyphen] in D. destruct s as [|d s].
    - split; reflexivity.
    - apply orb_false_iff in D. destruct D as [D1 D2]. split; [exact D2|].
      intros Hc. rewrite Hc in D1. exact D1. }
  destruct D' as [D1 D2].
  cbn [Spec.singleHyphens]. rewrite Ac.
  destruct (isHyphen c) eqn:Hc.
  - cbn [hd] in B. destruct b; [specialize (B eq_refl); congruence|].
    apply hyphen_eq in Hc. subst c. cbn [negb andb].
    rewrite N.eqb_refl. cbn [andb].
    apply IH; auto.
  - apply IH; auto; discriminate.
Qed.

Lemma normalUnit_hyphen (s : jsstring) :
  forallb normalUnit s = true ->
  forallb (fun c => Bool.eqb (nonAlnum c) (isHyphen c)) s = true.
Proof.
  apply forallb_impl. intros c. unfold normalUnit, nonAlnum.
  rewrite orb_true_iff. intros [H|H].
  - rewrite H. pose proof (hyphen_not_alnum c) as K.
    destruct (isHyphen c); [specialize (K eq_refl); congruence | reflexivity].
  - rewrite H, (hyphen_not_alnum c H). reflexivity.
Qed.

Lemma eqb_same (p : codeunit -> bool) (s : jsstring) :
  forallb (fun c => Bool.eqb (p c) (p c)) s = true.
Proof.
  apply forallb_const_true. intros c. apply eqb_reflx.
Qed.

Lemma segment_iff (unit : codeunit -> bool) (s : jsstring) :
  segment unit s = true
  <-> forallb unit s = true /\ startsWithHyphen s = false
      /\ endsWithHyphen s = false /\ doubledHyphen s = false.
Proof.
  unfold segment.
  rewrite !andb_true_iff, !negb_true_iff. tauto.
Qed.

Section WithCaseMapping.
Context {CM : CaseMapping}.

Lemma normalize_friendly (s : jsstring) : friendly (Spec.normalize s) = true.
Proof.
  apply segment_iff.
  pose proof (normalize_units s) as U.
  split; [exact U|].
  split; [|split].
  - apply (stripSeparators_edges _).
  - apply (stripSeparators_edges _).
  - apply (singleHyphens_not_doubled nonAlnum _ (normalUnit_hyphen _ U) false).
    apply normalize_singleHyphens.
Qed.

Lemma normalize_fixed (s : jsstring) :
  friendly s = true -> Spec.normalize s = s.
Proof.
  intros F. apply segment_iff in F. destruct F as (U & A & B & D).
  unfold Spec.normalize. rewrite toLowerCase_fixed.
  - rewrite (collapseRuns_fixed nonAlnum).
    + apply stripSeparators_fixed; assumption.
    + apply not_doubled_singleHyphens; auto using normalUnit_hyphen;
        discriminate.
  - revert U. apply forallb_impl. intros c. apply alnum_plain.
Qed.

Lemma slug_slugged (s : jsstring) : slugged (Spec.slug s) = true.
Proof.
  apply segment_iff.
  split; [apply slug_units|].
  split; [|split].
  - apply (stripSeparators_edges _).
  - apply (stripSeparators_edges _).
  - apply (singleHyphens_not_doubled isHyphen _ (eqb_same isHyphen _) false).
    apply slug_singleHyphens.
Qed.

Lemma slug_fixed (s : jsstring) : slugged s = true -> Spec.slug s = s.
Proof.
  intros F. apply segment_iff in F. destruct F as (U & A & B & D).
  assert (NS : forallb (fun c => negb (isSpace c)) s = true).
  { revert U. apply forallb_impl. intros c. unfold slugUnit.
    rewrite andb_true_iff, orb_true_iff. intros [[H|H] _].
    - rewrite word_not_space; auto.
    - rewrite hyphen_not_space; auto. }
  unfold Spec.slug. rewrite toLowerCase_fixed.
  2:{ revert U. apply forallb_impl. intros c. unfold slugUnit.
      rewrite andb_true_iff. intros [H1 H2]. rewrite H2, word_plain; auto. }
  rewrite trim_no_space by exact NS.
  rewrite filter_all.
  2:{ revert U. apply forallb_impl. intros c. unfold slugUnit.
      rewrite andb_true_iff, orb_true_iff. intros [[H|H] _];
        rewrite H; simpl; auto using orb_true_r. }
  rewrite (collapseRuns_none isSpace) by exact NS.
  rewrite collapseRuns_fixed.
  - apply stripSeparators_fixed; assumption.
  - apply not_doubled_singleHyphens; auto using eqb_same; discriminate.
Qed.

End WithCaseMapping.

End ShapeFacts.

(** X5.  Whatever its input, [makeUrlFriendly] returns a path segment
    over [[a-z0-9-]]: no other character, no hyphen at either end, no
    two hyphens in a row; and it returns every such segment
    unchanged, so these segments are exactly its results. *)
Theorem makeUrlFriendly_range {CM : CaseMapping} :
  (forall s, Shape.friendly (Normalizer.makeUrlFriendly s) = true)
  /\ (forall s, Shape.friendly s = true -> Normalizer.makeUrlFriendly s = s).
Proof.
  split; intros s.
  - rewrite NormalizerFacts.makeUrlFriendly_normalize.
    apply ShapeFacts.normalize_friendly.
  - intros F. rewrite NormalizerFacts.makeUrlFriendly_normalize.
    apply ShapeFacts.normalize_fixed. exact F.
Qed.

(** X6.  Whatever its input, [createSlug] returns a path segment over
    [[a-z0-9_-]] with no hyphen at either end and no two hyphens in a
    row, and it returns every such segment unchanged. *)
Theorem createSlug_range {CM : CaseMapping} :
  (forall s, Shape.slugged (Normalizer.createSlug s) = true)
  /\ (forall s, Shape.slugged s = true -> Normalizer.createSlug s = s).
Proof.
  split; intros s.
  - rewrite NormalizerFacts.createSlug_slug.
    apply ShapeFacts.slug_slugged.
  - intros F. rewrite NormalizerFacts.createSlug_slug.
    apply ShapeFacts.slug_fixed. exact F.
Qed.

Lemma makeUrlFriendly_range_witness :
  Normalizer.makeUrlFriendly (js "bad-ice-cream-2") = js "bad-ice-cream-2".
Proof.
  apply (proj2 (@makeUrlFriendly_range asciiCase) (js "bad-ice-cream-2")).
  vm_compute. reflexivity.
Defined.

Lemma createSlug_range_witness :
  Normalizer.createSlug (js "bad_ice-cream-2") = js "bad_ice-cream-2".
Proof.
  apply (proj2 (@createSlug_range asciiCase) (js "bad_ice-cream-2")).
  vm_compute. reflexivity.
Defined.

(* ------------------------------------------------------------------ *)
(** ** Where the two normalizers agree *)
(* ------------------------------------------------------------------ *)

Module AgreementFacts.

Import Shape NormalizerFacts.

Lemma plainLower_cases (c : codeunit) :
  plainLower c = true ->
  (isLowerAlnum c = true /\ isSpace c = false /\ isHyphen c = false)
  \/ (isLowerAlnum c = false /\ isSpace c = true /\ isHyphen c = false)
  \/ (isLowerAlnum c = false /\ isSpace c = false /\ isHyphen c = true).
Proof.
  unfold plainLower. intros H.
  destruct (isLowerAlnum c) eqn:A.
  - left. rewrite (alnum_not_space c A). split; [reflexivity|].
    split; [reflexivity|].
    destruct (isHyphen c) eqn:K; [|reflexivity].
    rewrite (hyphen_not_alnum c K) in A. discriminate.
  - right. destruct (isSpace c) eqn:S.
    + left. split; [reflexivity|]. split; [reflexivity|].
      destruct (isHyphen c) eqn:K; [|reflexivity].
      rewrite (hyphen_not_space c K) in S. discriminate.
    + right. simpl in H. auto.
Qed.

(** Collapsing the runs of white space and then the runs of hyphens is
    collapsing the runs of both at once. *)
Lemma collapse_twice (t : jsstring) :
  forallb plainLower t = true ->
  forall bH bS,
    (bS = true -> bH = true) ->
    Spec.collapseRuns isHyphen [HYPHEN] bH
      (Spec.collapseRuns isSpace [HYPHEN] bS t)
    = Spec.collapseRuns nonAlnum [HYPHEN] bH t.
Proof.
  induction t as [|c t IH]; intros Q bH bS B; [reflexivity|].
  cbn [forallb] in Q. apply andb_true_iff in Q. destruct Q as [Qc Q].
  cbn [Spec.collapseRuns]. unfold nonAlnum at 1.
  destruct (plainLower_cases c Qc) as [(A & S & K)|[(A & S & K)|(A & S & K)]];
    rewrite A, S; cbn [negb].
  - cbn [Spec.collapseRuns]. rewrite K. f_equal. apply IH; auto.
  - destruct bS.
    + rewrite (B eq_refl). apply IH; auto.
    + cbn [app Spec.collapseRuns].
      change (isHyphen HYPHEN) with true. cbv iota.
      rewrite (IH Q true true (fun _ => eq_refl)). reflexivity.
  - cbn [Spec.collapseRuns]. rewrite K.
    rewrite (IH Q true false); [reflexivity | discriminate].
Qed.

Lemma dropWhile_collapse (b : bool) (t : jsstring) :
  Spec.dropWhile isHyphen (Spec.collapseRuns nonAlnum [HYPHEN] b t)
  = Spec.dropWhile isHyphen (Spec.collapseRuns nonAlnum [HYPHEN] true t).
Proof.
  destruct b; [reflexivity|].
  destruct t as [|c t]; [reflexivity|].
  cbn [Spec.collapseRuns]. destruct (nonAlnum c); reflexivity.
Qed.

Lemma dropWhile_collapse_trimStart (t : jsstring) (b : bool) :
  Spec.dropWhile isHyphen (Spec.collapseRuns nonAlnum [HYPHEN] b (trimStart t))
  = Spec.dropWhile isHyphen (Spec.collapseRuns nonAlnum [HYPHEN] b t).
Proof.
  revert b. induction t as [|c t IH]; intros b; [reflexivity|].
  cbn [trimStart]. destruct (isSpace c) eqn:S; [|reflexivity].
  rewrite dropWhile_collapse, IH.
  cbn [Spec.collapseRuns]. unfold nonAlnum at 2.
  rewrite (space_not_alnum c S). cbn [negb].
  destruct b; reflexivity.
Qed.

Lemma trimStart_split (t : jsstring) :
  exists sp, forallb isSpace sp = true /\ t = sp ++ trimStart t.
Proof.
  induction t as [|c t (sp & A & E)]; [exists []; auto|].
  cbn [trimStart]. destruct (isSpace c) eqn:S.
  - exists (c :: sp). cbn [forallb]. rewrite S, A. split; [reflexivity|].
    simpl. f_equal. exact E.
  - exists []. auto.
Qed.

Lemma trimEnd_split (t : jsstring) :
  exists sp, forallb isSpace sp = true /\ t = trimEnd t ++ sp.
Proof.
  destruct (trimStart_split (rev t)) as (sp & A & E).
  exists (rev sp). split.
  - rewrite forallb_rev. exact A.
  - unfold trimEnd. rewrite <- rev_app_distr, <- E, rev_involutive.
    reflexivity.
Qed.

Lemma collapse_app_spaces (sp v : jsstring) (b : bool) :
  forallb isSpace sp = true ->
  exists h,
    forallb isHyphen h = true
    /\ Spec.collapseRuns nonAlnum [HYPHEN] b (v ++ sp)
       = Spec.collapseRuns nonAlnum [HYPHEN] b v ++ h.
Proof.
  intros A. revert b. induction v as [|c v IH]; intros b.
  - assert (Asp : forallb nonAlnum sp = true).
    { revert A. apply forallb_impl. intros c Hc. unfold nonAlnum.
      rewrite (space_not_alnum c Hc). reflexivity. }
    destruct (collapseRuns_all nonAlnum [HYPHEN] sp Asp) as [E1 E2].
    cbn [app]. destruct b.
    + exists []. rewrite E1. auto.
    + rewrite E2. destruct sp; [exists [] | exists [HYPHEN]]; auto.
  - cbn [app Spec.collapseRuns]. destruct (nonAlnum c).
    + destruct (IH true) as (h & Ah & E). exists h. split; [exact Ah|].
      rewrite E. destruct b; reflexivity.
    + destruct (IH false) as (h & Ah & E). exists h. split; [exact Ah|].
      rewrite E. reflexivity.
Qed.

Lemma dropWhile_all (q : codeunit -> bool) (h : jsstring) :
  forallb q h = true -> Spec.dropWhile q h = [].
Proof.
  induction h as [|c h IH]; [auto|].
  cbn [forallb Spec.dropWhile]. intros A. apply andb_true_iff in A.
  destruct A as [-> A]. auto.
Qed.

Lemma dropWhileEnd_app_all (q : codeunit -> bool) (y h : jsstring) :
  forallb q h = true ->
  Spec.dropWhileEnd q (y ++ h) = Spec.dropWhileEnd q y.
Proof.
  intros A. induction y as [|c y IH].
  - apply RegexFacts.dropWhileEnd_all. exact A.
  - cbn [app Spec.dropWhileEnd]. rewrite IH. reflexivity.
Qed.

Lemma stripSeparators_app_hyphens (x h : jsstring) :
  forallb isHyphen h = true ->
  Spec.stripSeparators (x ++ h) = Spec.stripSeparators x.
Proof.
  intros A. unfold Spec.stripSeparators. induction x as [|c x IH].
  - cbn [app]. rewrite dropWhile_all by exact A. reflexivity.
  - cbn [app Spec.dropWhile]. destruct (isHyphen c); [exact IH|].
    exact (dropWhileEnd_app_all isHyphen (c :: x) h A).
Qed.

Lemma strip_collapse_trim (t : jsstring) :
  Spec.stripSeparators (Spec.collapseRuns nonAlnum [HYPHEN] false (trim t))
  = Spec.stripSeparators (Spec.collapseRuns nonAlnum [HYPHEN] false t).
Proof.
  unfold trim.
  transitivity
    (Spec.stripSeparators
       (Spec.collapseRuns nonAlnum [HYPHEN] false (trimStart t))).
  - destruct (trimEnd_split (trimStart t)) as (sp & A & E).
    rewrite E at 2.
    destruct (collapse_app_spaces sp (trimEnd (trimStart t)) false A)
      as (h & Ah & Eh).
    rewrite Eh. symmetry. apply stripSeparators_app_hyphens. exact Ah.
  - unfold Spec.stripSeparators.
    rewrite dropWhile_collapse_trimStart. reflexivity.
Qed.

Lemma asciiLower_plain (s : jsstring) :
  plainName s = true -> forallb plainLower (map asciiLower s) = true.
Proof.
  unfold plainName. induction s as [|c s IH]; [reflexivity|].
  cbn [forallb map]. intros A. apply andb_true_iff in A.
  destruct A as [Ac A]. rewrite IH by exact A. rewrite andb_true_r.
  unfold asciiLower, plainLower.
  destruct (isUpperAscii c) eqn:U.
  - assert (L : isLowerAlnum (c + 32)%N = true) by classes.
    rewrite L. reflexivity.
  - exact Ac.
Qed.

Lemma plainName_ascii (s : jsstring) :
  plainName s = true ->
  forallb (fun c => isAscii c || isSpace c) s = true.
Proof.
  apply forallb_impl. intros c H.
  destruct (isSpace c); [apply orb_true_r|]. rewrite orb_false_r.
  classes.
Qed.

Section WithCaseMapping.
Context {CM : CaseMapping}.

Lemma slug_normalize (s : jsstring) :
  plainName s = true -> Spec.slug s = Spec.normalize s.
Proof.
  intros P. unfold Spec.slug, Spec.normalize.
  rewrite (toLowerCase_plain s (plainName_ascii s P)).
  pose proof (asciiLower_plain s P) as Q.
  set (t := map asciiLower s) in *.
  assert (Qt : forallb plainLower (trim t) = true)
    by (apply forallb_trim; exact Q).
  rewrite filter_all.
  2:{ revert Qt. apply forallb_impl. intros c. unfold plainLower.
      rewrite !orb_true_iff. intros [[H|H]|H]; auto.
      left. left. classes. }
  rewrite (collapse_twice (trim t) Qt false false) by discriminate.
  apply strip_collapse_trim.
Qed.

End WithCaseMapping.

End AgreementFacts.

(** X7.  On a name written with ASCII letters, digits, white space and
    hyphens only, [createSlug] and [makeUrlFriendly] give the same
    result. *)
Theorem createSlug_makeUrlFriendly_agree {CM : CaseMapping} :
  forall s : jsstring,
    Shape.plainName s = true ->
    Normalizer.createSlug s = Normalizer.makeUrlFriendly s.
Proof.
  intros s P.
  rewrite NormalizerFacts.createSlug_slug,
    NormalizerFacts.makeUrlFriendly_normalize.
  apply AgreementFacts.slug_normalize. exact P.
Qed.

Lemma createSlug_makeUrlFriendly_agree_witness :
  Normalizer.createSlug (js " Bad  Ice-Cream - 2 ")
  = Normalizer.makeUrlFriendly (js " Bad  Ice-Cream - 2 ").
Proof.
  apply (@createSlug_makeUrlFriendly_agree asciiCase).
  vm_compute. reflexivity.
Defined.

(* ------------------------------------------------------------------ *)
(** ** From the address bar to a game and back *)
(* ------------------------------------------------------------------ *)

Module LinkFacts.

Import Catalog UrlHost Loader NormalizerFacts.

Lemma splitFrom_slash_cons (c : codeunit) (s : jsstring) :
  splitFrom SLASH 0 (c :: s)
  = if N.eqb c 47 then [] :: splitFrom SLASH 0 s
    else match splitFrom SLASH 0 s with
         | piece :: pieces => (c :: piece) :: pieces
         | [] => [[c]]
         end.
Proof.
  change SLASH with [47%N]. cbn [splitFrom length Nat.sub].
  assert (E : startsWith (c :: s) [47%N] = N.eqb c 47).
  { simpl. rewrite N.eqb_sym. destruct s; apply andb_true_r. }
  rewrite E. reflexivity.
Qed.

(** The pieces of a path: the first is a prefix, every piece is free
    of [/] and occurs in the path. *)
Lemma splitFrom_slash_shape (s : jsstring) :
  exists p0 ps,
    splitFrom SLASH 0 s = p0 :: ps
    /\ (exists rest, s = p0 ++ rest)
    /\ noSlash p0 = true
    /\ forall p, In p ps -> noSlash p = true /\ occursIn p s.
Proof.
  induction s as [|c s (p0 & ps & E & (rest & R) & N0 & A)].
  - exists [], []. split; [reflexivity|].
    split; [exists []; reflexivity|]. split; [reflexivity|].
    intros p [].
  - rewrite splitFrom_slash_cons, E. destruct (N.eqb c 47) eqn:C.
    + exists [], (p0 :: ps). split; [reflexivity|].
      split; [exists (c :: s); reflexivity|]. split; [reflexivity|].
      intros p [<-|I].
      * split; [exact N0|]. exists [c], rest. simpl. f_equal. exact R.
      * destruct (A p I) as [Np (a & b & O)]. split; [exact Np|].
        exists (c :: a), b. simpl. f_equal. exact O.
    + exists (c :: p0), ps. split; [reflexivity|].
      split; [exists rest; simpl; f_equal; exact R|].
      split; [unfold noSlash in *; cbn [forallb]; rewrite C, N0; reflexivity|].
      intros p I. destruct (A p I) as [Np (a & b & O)]. split; [exact Np|].
      exists (c :: a), b. simpl. f_equal. exact O.
Qed.

Lemma split_slash_pieces (path p : jsstring) :
  In p (split path SLASH) -> noSlash p = true /\ occursIn p path.
Proof.
  change (split path SLASH) with (splitFrom SLASH 0 path).
  destruct (splitFrom_slash_shape path) as (p0 & ps & E & (rest & R) & N0 & A).
  rewrite E. intros [<-|I]; [|exact (A p I)].
  split; [exact N0|]. exists [], rest. exact R.
Qed.

Lemma splitFrom_segment (seg : jsstring) :
  noSlash seg = true ->
  splitFrom SLASH 0 seg = [seg]
  /\ forall rest,
      splitFrom SLASH 0 (seg ++ SLASH ++ rest) = seg :: splitFrom SLASH 0 rest.
Proof.
  unfold noSlash. induction seg as [|c seg IH]; intros N.
  - split; [reflexivity|]. intros rest.
    change ([] ++ SLASH ++ rest) with (47%N :: rest).
    rewrite splitFrom_slash_cons. reflexivity.
  - cbn [forallb] in N. apply andb_true_iff in N. destruct N as [C N].
    apply negb_true_iff in C. destruct (IH N) as [E1 E2]. split.
    + rewrite splitFrom_slash_cons, C, E1. reflexivity.
    + intros rest. cbn [app]. rewrite splitFrom_slash_cons, C, E2.
      reflexivity.
Qed.

Lemma hd_filter_In {A : Type} (f : A -> bool) (l r : list A) (x : A) :
  filter f l = x :: r -> In x l /\ f x = true.
Proof.
  intros E. apply filter_In. rewrite E. left. reflexivity.
Qed.

Lemma getGameNameFromUrl_cases (path : jsstring) :
  getGameNameFromUrl path = []
  \/ (In (getGameNameFromUrl path) (split path SLASH)
      /\ trim (getGameNameFromUrl path) <> []).
Proof.
  unfold getGameNameFromUrl.
  destruct (filter _ (split path SLASH)) as [|g r] eqn:E; [left; reflexivity|].
  destruct (hd_filter_In _ _ _ _ E) as [I T].
  destruct g as [|c g]; [left; reflexivity|]. right. cbn [truthy].
  split; [exact I|]. apply negb_true_iff, eqb_neq in T. exact T.
Qed.

Lemma getGameNameFromUrl_first (seg tail : jsstring)
      (pieces : list jsstring) :
  trim seg <> [] ->
  split tail SLASH = seg :: pieces ->
  getGameNameFromUrl (SLASH ++ tail) = seg.
Proof.
  intros T E. unfold getGameNameFromUrl.
  change (split (SLASH ++ tail) SLASH)
    with (splitFrom SLASH 0 (47%N :: tail)).
  rewrite splitFrom_slash_cons. cbn [N.eqb Pos.eqb].
  change (splitFrom SLASH 0 tail) with (split tail SLASH). rewrite E.
  cbn [filter]. change (trim []) with (@nil codeunit).
  cbn [eqb negb].
  apply eqb_neq in T. rewrite T. cbn [negb].
  destruct seg as [|c seg]; [exfalso; apply eqb_neq in T; auto|].
  reflexivity.
Qed.





End LinkFacts.

(** X8.  [getGameNameFromUrl] returns a piece of the path that holds no
    [/] and is either empty (the default game) or not blank; the path
    is not decoded.  It is the first segment of the path that is not
    blank: for a path [/seg] or [/seg/...] with such a segment, it is
    [seg]. *)
Theorem getGameNameFromUrl_first_segment :
  (forall path,
      Loader.noSlash (Loader.getGameNameFromUrl path) = true
      /\ occursIn (Loader.getGameNameFromUrl path) path
      /\ (Loader.getGameNameFromUrl path = []
          \/ trim (Loader.getGameNameFromUrl path) <> []))
  /\ (forall seg rest,
         Loader.noSlash seg = true ->
         trim seg <> [] ->
         Loader.getGameNameFromUrl (Loader.SLASH ++ seg) = seg
         /\ Loader.getGameNameFromUrl
              (Loader.SLASH ++ seg ++ Loader.SLASH ++ rest) = seg).
Proof.
  split.
  - intros path.
    destruct (LinkFacts.getGameNameFromUrl_cases path) as [E|[I T]].
    + rewrite E. split; [reflexivity|]. split; [|left; reflexivity].
      exists [], path. reflexivity.
    + destruct (LinkFacts.split_slash_pieces path _ I) as [N O].
      split; [exact N|]. split; [exact O|]. right. exact T.
  - intros seg rest N T.
    destruct (LinkFacts.splitFrom_segment seg N) as [E1 E2]. split.
    + apply (LinkFacts.getGameNameFromUrl_first seg seg [] T). exact E1.
    + apply (LinkFacts.getGameNameFromUrl_first
               seg (seg ++ Loader.SLASH ++ rest)
               (UrlHost.splitFrom Loader.SLASH 0 rest) T).
      exact (E2 rest).
Qed.

Module ShareFacts.

Import Catalog UrlHost Loader NormalizerFacts.


Section WithCaseMapping.
Context {CM : CaseMapping}.


End WithCaseMapping.

End ShareFacts.


(** X10.  For a key that lower-cases to a name every object inherits
    ([constructor] or [__proto__], in any capitalization) and a catalog
    with no game of that id, [getGameUrl] does not return [null]: the
    resolver hands it the inherited value, whose [id] is undefined, and
    the link ends in [/undefined]. *)
Theorem getGameUrl_inherited_name {CM : CaseMapping} :
  forall (origin : jsstring) (t : Catalog.table) (gameId : jsstring),
    Catalog.proto t = None ->
    gameId <> [] ->
    Catalog.lookup (toLowerCase gameId) (Catalog.own t) = None ->
    Catalog.inherited (toLowerCase gameId) = true ->
    Loader.getGameUrl origin (Some t) gameId
    = Loader.Link (origin ++ js "/undefined").
Proof.
  intros origin t gameId P N L M.
  unfold Loader.getGameUrl, Catalog.findGameByUrlName.
  destruct gameId as [|c r]; [congruence|]. cbn [truthy negb].
  unfold Catalog.tableGet. rewrite L, P.
  unfold Catalog.objectPrototypeGet. unfold Catalog.inherited in M.
  destruct (eqb (toLowerCase (c :: r)) Catalog.PROTO); [reflexivity|].
  cbn [orb] in M. rewrite M. reflexivity.
Qed.

Lemma getGameNameFromUrl_first_segment_witness :
  Loader.getGameNameFromUrl (js "/Bad-Ice-Cream/play") = js "Bad-Ice-Cream".
Proof.
  apply (proj2 (proj2 getGameNameFromUrl_first_segment
                  (js "Bad-Ice-Cream") (js "play") eq_refl
                  ltac:(vm_compute; discriminate))).
Defined.


Lemma getGameUrl_inherited_name_witness :
  Loader.getGameUrl (js "https://games.example")
    (Some (Catalog.processGames Sample.gamesJson)) (js "Constructor")
  = Loader.Link (js "https://games.example/undefined").
Proof.
  apply (@getGameUrl_inherited_name asciiCase
           (js "https://games.example")
           (Catalog.processGames Sample.gamesJson) (js "Constructor")).
  - vm_compute. reflexivity.
  - discriminate.
  - vm_compute. reflexivity.
  - vm_compute. reflexivity.
Defined.

(* ------------------------------------------------------------------ *)
(** ** Every catalogued game can be reached by its id *)
(* ------------------------------------------------------------------ *)

Module ReachFacts.

Import Catalog.

Section WithCaseMapping.
Context {CM : CaseMapping}.

Lemma lastWithKey_In (k : jsstring) (gs : list game) (g : game) :
  lastWithKey k gs = Some g -> In g gs /\ hasKey k g = true.
Proof.
  induction gs as [|x gs IH] using rev_ind; [discriminate|].
  rewrite CatalogFacts.lastWithKey_snoc.
  destruct (hasKey k x) eqn:E.
  - intros H. injection H as <-. split; [|exact E].
    apply in_or_app. right. left. reflexivity.
  - intros H. destruct (IH H) as [I K]. split; [|exact K].
    apply in_or_app. left. exact I.
Qed.

Lemma lastWithKey_exists (k : jsstring) (gs : list game) (g : game) :
  In g gs -> hasKey k g = true -> exists g', lastWithKey k gs = Some g'.
Proof.
  intros I K. destruct (lastWithKey k gs) as [g'|] eqn:E.
  - exists g'. reflexivity.
  - rewrite (LoaderFacts.lastWithKey_none k gs E g I) in K. discriminate.
Qed.

(** A key that is an own property of the table resolves to it. *)
Lemma findGameByUrlName_tableGet (t : table) (key : jsstring) (g : game) :
  key <> [] ->
  tableGet t (toLowerCase key) = VGame g ->
  findGameByUrlName (Some t) key = VGame g.
Proof.
  intros N E. unfold findGameByUrlName.
  destruct key as [|c key]; [congruence|]. cbn [truthy negb].
  rewrite E. reflexivity.
Qed.

(** In the loaded table, the last game of the document with a key is
    what the key yields. *)
Lemma loaded_tableGet (jsonData : document) (t : table) (k : jsstring)
      (g : game) :
  loadGamesData (Ok jsonData) = Some t ->
  lookup PROTO g = None ->
  lastWithKey k (arrayGames jsonData) = Some g ->
  tableGet t k = VGame g.
Proof.
  intros H P L. unfold loadGamesData in H.
  destruct (length (own (processGames jsonData))); [discriminate|].
  injection H as <-.
  rewrite CatalogFacts.processGames_arrayGames.
  apply CatalogFacts.filed_tableGet; [exact P|].
  apply CatalogFacts.addGames_filed. exact L.
Qed.

Lemma truthyProp_hasKey (g : game) (i : jsstring) :
  truthyProp g ID = Some i -> hasKey (toLowerCase i) g = true.
Proof.
  intros T. apply CatalogFacts.hasKey_keyOf. unfold keyOf.
  rewrite T. reflexivity.
Qed.

End WithCaseMapping.

End ReachFacts.

(** X11.  Once the catalog is loaded, every game of one of its arrays
    that has a non-empty id is reached through that id, written in
    any capitalization: [findGameByUrlName] returns the last game of
    the document with that id up to case, which is the game itself
    when no other has it.  (No game is assumed to have a property
    called [__proto__].) *)
Theorem loaded_game_is_found_by_id {CM : CaseMapping} :
  forall (jsonData : Catalog.document) (t : Catalog.table)
         (g : Catalog.game) (i key : jsstring),
    Catalog.loadGamesData (Catalog.Ok jsonData) = Some t ->
    (forall g', In g' (Catalog.arrayGames jsonData) ->
                Catalog.lookup Catalog.PROTO g' = None) ->
    In g (Catalog.arrayGames jsonData) ->
    Catalog.truthyProp g Catalog.ID = Some i ->
    key <> [] ->
    toLowerCase key = toLowerCase i ->
    exists g',
      Catalog.lastWithKey (toLowerCase i) (Catalog.arrayGames jsonData)
      = Some g'
      /\ Catalog.findGameByUrlName (Some t) key = Catalog.VGame g'
      /\ ((forall g2, In g2 (Catalog.arrayGames jsonData) ->
                      Catalog.hasKey (toLowerCase i) g2 = true -> g2 = g) ->
          g' = g).
Proof.
  intros jsonData t g i key H P I T N E.
  pose proof (ReachFacts.truthyProp_hasKey g i T) as K.
  destruct (ReachFacts.lastWithKey_exists _ _ g I K) as (g' & L).
  destruct (ReachFacts.lastWithKey_In _ _ _ L) as [I' K'].
  exists g'. split; [exact L|]. split.
  - apply ReachFacts.findGameByUrlName_tableGet; [exact N|].
    rewrite E.
    exact (ReachFacts.loaded_tableGet jsonData t _ g' H (P g' I') L).
  - intros U. exact (U g' I' K').
Qed.

Lemma loaded_game_is_found_by_id_witness :
  Catalog.findGameByUrlName
    (Some (Catalog.processGames Sample.gamesJsonWithDuplicate))
    (js "aquaNAUT")
  = Catalog.VGame Sample.aquanautAgain.
Proof.
  destruct (@loaded_game_is_found_by_id asciiCase
              Sample.gamesJsonWithDuplicate
              (Catalog.processGames Sample.gamesJsonWithDuplicate)
              Sample.aquanaut (js "Aquanaut") (js "aquaNAUT"))
    as (g' & L & F & _).
  - vm_compute. reflexivity.
  - intros g' I. vm_compute in I.
    repeat (destruct I as [<-|I]; [vm_compute; reflexivity|]).
    destruct I.
  - vm_compute. auto.
  - vm_compute. reflexivity.
  - discriminate.
  - vm_compute. reflexivity.
  - rewrite F. vm_compute in L. injection L as <-. reflexivity.
Defined.

(* ------------------------------------------------------------------ *)
(** ** When a catalog is refused *)
(* ------------------------------------------------------------------ *)

Module RefusalFacts.

Import Catalog.



Section WithCaseMapping.
Context {CM : CaseMapping}.








End WithCaseMapping.

End RefusalFacts.



(* ------------------------------------------------------------------ *)
(** ** The recently played list over a whole session *)
(* ------------------------------------------------------------------ *)

Module SessionFacts.

Import Enhancer EnhancerMore.

Lemma filter_absent (x : jsstring) (l : list jsstring) :
  ~ In x l -> filter (fun id => negb (eqb id x)) l = l.
Proof.
  induction l as [|y l IH]; [reflexivity|].
  intros N. cbn [filter].
  destruct (eqb y x) eqn:E.
  - exfalso. apply N. left. apply eqb_eq. exact E.
  - cbn [negb]. f_equal. apply IH. intros I. apply N. right. exact I.
Qed.

Lemma distinct_NoDup (l : list jsstring) : NoDup (distinct l).
Proof.
  induction l as [|x l IH]; cbn [distinct]; constructor.
  - apply RecentFacts.not_In_filter.
  - apply NoDup_filter. exact IH.
Qed.

Lemma distinct_fixed (l : list jsstring) : NoDup l -> distinct l = l.
Proof.
  induction 1 as [|x l N _ IH]; [reflexivity|].
  cbn [distinct]. rewrite IH, (filter_absent x l N). reflexivity.
Qed.

Lemma In_firstn (x : jsstring) (n : nat) (l : list jsstring) :
  In x (firstn n l) -> In x l.
Proof.
  intros I. rewrite <- (firstn_skipn n l). apply in_or_app. left. exact I.
Qed.

(** Cutting a list without repetition before or after taking [x] out
    of it gives the same first [n] ids. *)
Lemma firstn_filter_firstn (x : jsstring) (d : list jsstring) :
  NoDup d ->
  forall n,
    firstn n (filter (fun id => negb (eqb id x)) (firstn (S n) d))
    = firstn n (filter (fun id => negb (eqb id x)) d).
Proof.
  induction 1 as [|y d N _ IH]; intros n; [reflexivity|].
  destruct n as [|n]; [reflexivity|].
  rewrite (firstn_cons (S n) y d). cbn [filter].
  destruct (eqb y x) eqn:E; cbn [negb].
  - apply eqb_eq in E. subst y.
    rewrite (filter_absent x d N).
    rewrite filter_absent.
    + rewrite firstn_firstn, Nat.min_id. reflexivity.
    + intros I. apply N. exact (In_firstn _ _ _ I).
  - rewrite !firstn_cons. f_equal. apply IH.
Qed.

Lemma removelast_firstn_10 (l : list jsstring) :
  length l <= 11 ->
  (if Nat.ltb 10 (length l) then pop l else l) = firstn 10 l.
Proof.
  intros L. destruct (Nat.ltb 10 (length l)) eqn:E.
  - apply Nat.ltb_lt in E. unfold pop.
    rewrite removelast_firstn_len. f_equal. lia.
  - apply Nat.ltb_ge in E. symmetry. apply firstn_all2. exact E.
Qed.

Lemma addToRecentlyPlayed_firstn (gameId : jsstring) (ls : storage) :
  length (recentlyPlayed ls) <= 10 ->
  recentlyPlayed (addToRecentlyPlayed gameId ls)
  = firstn 10 (gameId :: filter (fun id => negb (eqb id gameId))
                                (recentlyPlayed ls)).
Proof.
  intros L. unfold addToRecentlyPlayed, recentlyPlayed at 1.
  cbn [recentlyPlayedItem]. fold (recentlyPlayed ls).
  apply removelast_firstn_10. cbn [length].
  pose proof (RecentFacts.filter_length_le
                (fun id => negb (eqb id gameId)) (recentlyPlayed ls)).
  lia.
Qed.

Lemma play_snoc (ls : storage) (plays : list jsstring) (x : jsstring) :
  play ls (plays ++ [x]) = addToRecentlyPlayed x (play ls plays).
Proof. unfold play. rewrite fold_left_app. reflexivity. Qed.

Lemma play_lastPlayed (ls : storage) (plays : list jsstring) :
  NoDup (recentlyPlayed ls) ->
  length (recentlyPlayed ls) <= 10 ->
  recentlyPlayed (play ls plays) = lastPlayed (recentlyPlayed ls) plays.
Proof.
  intros N L. induction plays as [|x plays IH] using rev_ind.
  - unfold lastPlayed, play. cbn [fold_left rev app].
    rewrite (distinct_fixed _ N). symmetry. apply firstn_all2. exact L.
  - rewrite play_snoc, addToRecentlyPlayed_firstn.
    + rewrite IH. unfold lastPlayed.
      rewrite rev_app_distr. cbn [rev app distinct firstn]. f_equal.
      apply (firstn_filter_firstn x _ (distinct_NoDup _) 9).
    + rewrite IH. unfold lastPlayed. apply firstn_le_length.
Qed.

Lemma play_other_items (ls : storage) (plays : list jsstring) :
  gamesDataItem (play ls plays) = gamesDataItem ls
  /\ cacheTimestampItem (play ls plays) = cacheTimestampItem ls.
Proof.
  induction plays as [|x plays IH] using rev_ind; [split; reflexivity|].
  rewrite play_snoc. exact IH.
Qed.

End SessionFacts.

(** X13.  Starting from a stored list without repetition of at most
    ten ids (or from none), after any number of games played the
    stored list is exactly the ten ids met last, the latest first,
    each once: those played, latest first, then those stored before.
    So it never repeats an id, never exceeds ten, and begins with the
    game played last.  The cached catalog and its time stamp are not
    touched. *)
Theorem recently_played_is_last_ten_distinct :
  forall (ls : Enhancer.storage) (plays : list jsstring),
    NoDup (EnhancerMore.recentlyPlayed ls) ->
    length (EnhancerMore.recentlyPlayed ls) <= 10 ->
    let after := EnhancerMore.play ls plays in
    EnhancerMore.recentlyPlayed after
    = EnhancerMore.lastPlayed (EnhancerMore.recentlyPlayed ls) plays
    /\ NoDup (EnhancerMore.recentlyPlayed after)
    /\ length (EnhancerMore.recentlyPlayed after) <= 10
    /\ (forall before last,
           plays = before ++ [last] ->
           hd_error (EnhancerMore.recentlyPlayed after) = Some last)
    /\ Enhancer.gamesDataItem after = Enhancer.gamesDataItem ls
    /\ Enhancer.cacheTimestampItem after = Enhancer.cacheTimestampItem ls.
Proof.
  intros ls plays N L after.
  pose proof (SessionFacts.play_lastPlayed ls plays N L) as E.
  fold after in E. split; [exact E|]. rewrite E.
  unfold EnhancerMore.lastPlayed. split; [|split; [|split]].
  - generalize (SessionFacts.distinct_NoDup
                  (rev plays ++ EnhancerMore.recentlyPlayed ls)).
    generalize (EnhancerMore.distinct
                  (rev plays ++ EnhancerMore.recentlyPlayed ls)).
    intros d Nd. rewrite <- (firstn_skipn 10 d) in Nd.
    exact (NoDup_app_remove_r _ _ Nd).
  - apply firstn_le_length.
  - intros before last ->. rewrite rev_app_distr. reflexivity.
  - exact (SessionFacts.play_other_items ls plays).
Qed.

Lemma recently_played_is_last_ten_distinct_witness :
  EnhancerMore.recentlyPlayed
    (EnhancerMore.play Sample.storageWithCache
       [js "Aquanaut"; js "faq"; js "Aquanaut"])
  = [js "Aquanaut"; js "faq"; js "bic"].
Proof.
  destruct (recently_played_is_last_ten_distinct
              Sample.storageWithCache
              [js "Aquanaut"; js "faq"; js "Aquanaut"]) as [E _].
  - repeat constructor; simpl; intuition discriminate.
  - simpl. lia.
  - rewrite E. vm_compute. reflexivity.
Defined.

(* ------------------------------------------------------------------ *)
(** ** Finding a game by its slug *)
(* ------------------------------------------------------------------ *)

Module SlugFacts.

Import Catalog Enhancer EnhancerMore.

(** What [find] returns comes first among what satisfies the test. *)
Lemma find_first {A : Type} (f : A -> bool) (l : list A) (x : A) :
  find f l = Some x ->
  exists l1 l2,
    l = l1 ++ x :: l2 /\ f x = true /\ forall y, In y l1 -> f y = false.
Proof.
  induction l as [|a l IH]; [discriminate|].
  cbn [find]. destruct (f a) eqn:E.
  - intros H. injection H as <-. exists [], l.
    split; [reflexivity|]. split; [exact E|]. intros y [].
  - intros H. destruct (IH H) as (l1 & l2 & -> & Fx & N).
    exists (a :: l1), l2. split; [reflexivity|]. split; [exact Fx|].
    intros y [<-|I]; [exact E | exact (N y I)].
Qed.

Lemma insertIndexed_In {A : Type} (i : N) (e : A) (y : N * A) l :
  y = (i, e) \/ In y l -> In y (insertIndexed i e l).
Proof.
  induction l as [|[j e'] l IH]; cbn [insertIndexed].
  - intros [->|[]]. left. reflexivity.
  - destruct (N.leb i j).
    + intros [->|I]; [left; reflexivity | right; exact I].
    + intros [->|[<-|I]].
      * right. apply IH. left. reflexivity.
      * left. reflexivity.
      * right. apply IH. right. exact I.
Qed.

Lemma indexedEntries_In {A : Type} (e : jsstring * A) (i : N) l :
  In e l -> arrayIndex (fst e) = Some i -> In (i, e) (indexedEntries l).
Proof.
  induction l as [|[k v] l IH]; [intros []|].
  intros [<-|I] E; cbn [indexedEntries].
  - cbn [fst] in E. rewrite E. apply insertIndexed_In. left. reflexivity.
  - destruct (arrayIndex k).
    + apply insertIndexed_In. right. apply IH; assumption.
    + apply IH; assumption.
Qed.

(** [Object.entries] lists every own property. *)
Lemma entries_In {A : Type} (e : jsstring * A) l :
  In e l -> In e (entries l).
Proof.
  intros I. unfold entries. apply in_or_app.
  destruct (arrayIndex (fst e)) as [i|] eqn:E.
  - left. apply in_map_iff. exists (i, e). split; [reflexivity|].
    apply indexedEntries_In; assumption.
  - right. apply filter_In. split; [exact I|]. rewrite E. reflexivity.
Qed.

Section WithCaseMapping.
Context {CM : CaseMapping}.

Lemma createSlug_idem (s : jsstring) :
  Normalizer.createSlug (Normalizer.createSlug s) = Normalizer.createSlug s.
Proof.
  rewrite !NormalizerFacts.createSlug_slug. apply NormalizerFacts.slug_idem.
Qed.

Lemma slugOf_idem (g : game) :
  Normalizer.createSlug (slugOf g) = slugOf g.
Proof.
  unfold slugOf. destruct (label g); [apply createSlug_idem | reflexivity].
Qed.

End WithCaseMapping.

End SlugFacts.

(** X14.  [findGameBySlug] depends on the slug only through its
    normal form, so a slug may be given normalized or not.  What it
    returns is a game of the catalog whose name (or id, for want of a
    name) has the same normal form as the slug, and the first such game
    in enumeration order: no entry before it matches; and it returns
    [null] only if there is none.  In particular the slug of a game of
    the catalog leads to a game with that slug, which is the game
    itself when no other shares it. *)
Theorem findGameBySlug_sound_and_complete {CM : CaseMapping} :
  forall (props : list (jsstring * Catalog.game)) (slug : jsstring),
    EnhancerMore.findGameBySlug (Some props) (Normalizer.createSlug slug)
    = EnhancerMore.findGameBySlug (Some props) slug
    /\ (forall g,
           EnhancerMore.findGameBySlug (Some props) slug = Some g ->
           (exists k, In (k, g) props)
           /\ EnhancerMore.slugOf g = Normalizer.createSlug slug
           /\ exists before k after,
               Catalog.entries props = before ++ (k, g) :: after
               /\ forall e, In e before ->
                            EnhancerMore.slugOf (snd e)
                            <> Normalizer.createSlug slug)
    /\ (EnhancerMore.findGameBySlug (Some props) slug = None ->
        forall k g, In (k, g) props ->
                    EnhancerMore.slugOf g <> Normalizer.createSlug slug)
    /\ (forall k g,
           In (k, g) props ->
           exists g',
             EnhancerMore.findGameBySlug (Some props) (EnhancerMore.slugOf g)
             = Some g'
             /\ EnhancerMore.slugOf g' = EnhancerMore.slugOf g
             /\ ((forall k2 g2, In (k2, g2) props ->
                                EnhancerMore.slugOf g2 = EnhancerMore.slugOf g ->
                                g2 = g) ->
                 g' = g)).
Proof.
  intros props slug.
  assert (S : forall s g,
             EnhancerMore.findGameBySlug (Some props) s = Some g ->
             (exists k, In (k, g) props)
             /\ EnhancerMore.slugOf g = Normalizer.createSlug s
             /\ exists before k after,
                 Catalog.entries props = before ++ (k, g) :: after
                 /\ forall e, In e before ->
                              EnhancerMore.slugOf (snd e)
                              <> Normalizer.createSlug s).
  { intros s g. unfold EnhancerMore.findGameBySlug.
    destruct (find _ (Catalog.entries props)) as [[k g']|] eqn:F;
      [|discriminate].
    cbn [option_map snd]. intros H. injection H as <-.
    destruct (SlugFacts.find_first _ _ _ F) as (l1 & l2 & El & E & N).
    cbn [snd] in E. apply eqb_eq in E.
    split; [|split; [exact E|]].
    - exists k. apply CatalogFacts.In_entries. rewrite El.
      apply in_or_app. right. left. reflexivity.
    - exists l1, k, l2. split; [exact El|].
      intros e I. apply eqb_neq. exact (N e I). }
  assert (C : forall s,
             EnhancerMore.findGameBySlug (Some props) s = None ->
             forall k g, In (k, g) props ->
                         EnhancerMore.slugOf g <> Normalizer.createSlug s).
  { intros s. unfold EnhancerMore.findGameBySlug.
    destruct (find _ (Catalog.entries props)) eqn:F; [discriminate|].
    intros _ k g I E.
    pose proof (find_none _ _ F (k, g) (SlugFacts.entries_In _ _ I)) as K.
    cbn [snd] in K. apply eqb_neq in K. auto. }
  split; [|split; [|split]].
  - unfold EnhancerMore.findGameBySlug.
    rewrite SlugFacts.createSlug_idem. reflexivity.
  - exact (S slug).
  - exact (C slug).
  - intros k g I.
    destruct (EnhancerMore.findGameBySlug (Some props) (EnhancerMore.slugOf g))
      as [g'|] eqn:F.
    + destruct (S _ _ F) as [(k' & I') [E _]].
      rewrite SlugFacts.slugOf_idem in E.
      exists g'. split; [reflexivity|]. split; [exact E|].
      intros U. exact (U k' g' I' E).
    + exfalso. apply (C _ F k g I).
      symmetry. apply SlugFacts.slugOf_idem.
Qed.

Lemma findGameBySlug_sound_and_complete_witness :
  exists g',
    EnhancerMore.findGameBySlug
      (Some [(js "aquanaut", Sample.aquanaut); (js "bic", Sample.badIceCream)])
      (EnhancerMore.slugOf Sample.badIceCream)
    = Some g'
    /\ EnhancerMore.slugOf g' = js "bad-ice-cream".
Proof.
  destruct (proj2 (proj2 (proj2
              (@findGameBySlug_sound_and_complete asciiCase
                 [(js "aquanaut", Sample.aquanaut);
                  (js "bic", Sample.badIceCream)] [])))
              (js "bic") Sample.badIceCream)
    as (g' & F & E & _).
  - simpl. auto.
  - exists g'. split; [exact F|]. rewrite E. vm_compute. reflexivity.
Defined.

(* ------------------------------------------------------------------ *)
(** ** The cached catalog *)
(* ------------------------------------------------------------------ *)

(** X15.  A catalog that [cacheGamesData] has stored at time [now] is
    what [getCachedGamesData] returns at every time up to 24 hours
    later, that bound included, and at no later time.  If the second
    write fails (the quota is exceeded after the catalog has been
    stored), the new catalog is served under the time stamp stored
    before, if there is one; if the first write fails, or there is
    nothing to store, nothing changes.  A cache that is fresh at some
    time was fresh, with the same content, at any earlier time.  The
    recently played list is never touched. *)
Theorem cached_catalog_is_fresh_for_a_day :
  forall (data : list (jsstring * Catalog.game)) (now : Z)
         (ls : Enhancer.storage),
    (forall later,
        (later - now <= Enhancer.CACHE_EXPIRATION)%Z ->
        Enhancer.getCachedGamesData
          (EnhancerMore.cacheGamesData (Some data) now 2 ls) later
        = Some (EnhancerMore.throughJson data))
    /\ (forall later,
           (Enhancer.CACHE_EXPIRATION < later - now)%Z ->
           Enhancer.getCachedGamesData
             (EnhancerMore.cacheGamesData (Some data) now 2 ls) later
           = None)
    /\ (forall later,
           Enhancer.getCachedGamesData
             (EnhancerMore.cacheGamesData (Some data) now 1 ls) later
           = match Enhancer.cacheTimestampItem ls with
             | Some stored =>
                 if Z.ltb Enhancer.CACHE_EXPIRATION (later - stored) then None
                 else Some (EnhancerMore.throughJson data)
             | None => None
             end)
    /\ EnhancerMore.cacheGamesData (Some data) now 0 ls = ls
    /\ (forall writes, EnhancerMore.cacheGamesData None now writes ls = ls)
    /\ (forall earlier later,
           (earlier <= later)%Z ->
           Enhancer.getCachedGamesData ls later <> None ->
           Enhancer.getCachedGamesData ls earlier
           = Enhancer.getCachedGamesData ls later)
    /\ (forall writes,
           Enhancer.recentlyPlayedItem
             (EnhancerMore.cacheGamesData (Some data) now writes ls)
           = Enhancer.recentlyPlayedItem ls).
Proof.
  intros data now ls.
  unfold Enhancer.getCachedGamesData, EnhancerMore.cacheGamesData.
  cbn [Enhancer.cacheTimestampItem Enhancer.gamesDataItem
       Enhancer.recentlyPlayedItem].
  split; [|split; [|split; [|split; [|split; [|split]]]]].
  - intros later H. apply Z.ltb_ge in H. rewrite H. reflexivity.
  - intros later H. apply Z.ltb_lt in H. rewrite H. reflexivity.
  - intros later. reflexivity.
  - reflexivity.
  - reflexivity.
  - intros earlier later H.
    destruct (Enhancer.cacheTimestampItem ls) as [stored|]; [|reflexivity].
    destruct (Z.ltb Enhancer.CACHE_EXPIRATION (later - stored)) eqn:E;
      [congruence|].
    intros _. apply Z.ltb_ge in E.
    assert (E' : Z.ltb Enhancer.CACHE_EXPIRATION (earlier - stored) = false)
      by (apply Z.ltb_ge; lia).
    rewrite E'. reflexivity.
  - intros [|[|writes]]; reflexivity.
Qed.

Lemma cached_catalog_is_fresh_for_a_day_witness :
  Enhancer.getCachedGamesData
    (EnhancerMore.cacheGamesData
       (Some [(js "aquanaut", Sample.aquanaut)]) 5000 2
       Sample.storageWithCache)
    86405000
  = Some [(js "aquanaut", Sample.aquanaut)].
Proof.
  refine (proj1 (cached_catalog_is_fresh_for_a_day
                   [(js "aquanaut", Sample.aquanaut)] 5000
                   Sample.storageWithCache) 86405000%Z _).
  vm_compute. discriminate.
Defined.

(* ------------------------------------------------------------------ *)
(** ** What the page can show *)
(* ------------------------------------------------------------------ *)

Module ShownFacts.

Import Catalog Page PageMore.

Lemma In_clear (x : suspended) (l : list (option suspended)) (n : nat) :
  In (Some x) (clear l n) -> In (Some x) l.
Proof.
  revert n. induction l as [|y l IH]; intros n; [intros []|].
  destruct n as [|n]; cbn [clear].
  - intros [E|I]; [discriminate | right; exact I].
  - intros [E|I]; [left; exact E | right; exact (IH n I)].
Qed.

Lemma findGame_In (games : list game) (id : jsstring) (g : game) :
  findGame games id = Some g -> In g games.
Proof.
  unfold findGame. intros F. apply find_some in F. exact (proj1 F).
Qed.

Lemma fromList_listed (games : list game) (k : suspended) :
  fromList games k -> listed games (gamePath k).
Proof.
  intros (g & F & _ & P). exists g. split; [|exact P].
  exact (findGame_In _ _ _ F).
Qed.

Lemma updateInfoPanel_path (id : jsstring) (path name : option jsstring)
      (d : jsstring) (path' : option jsstring) :
  updateInfoPanel id path name = GameInfo d path' -> path' = path.
Proof.
  unfold updateInfoPanel. destruct (negb (truthy id)); [discriminate|].
  intros E. injection E as _ E. auto.
Qed.

Lemma step_consistent (w : world) (e : event) :
  consistent w ->
  consistent (step w e)
  /\ nitromeGames (shown (step w e)) = nitromeGames (shown w).
Proof.
  intros (C1 & C2 & C3 & C4 & C5). destruct e as [id|n r].
  - cbn [step]. unfold loadGameStart.
    destruct (findGame (nitromeGames (shown w)) id) as [game|] eqn:F.
    + split; [|reflexivity].
      unfold consistent. cbn [shown inflight nitromeGames currentGame
                               currentPlayer rufflePlayer infoPanel].
      split; [|split; [|split; [|split]]]; auto.
      * intros id' E. injection E as <-. congruence.
      * intros k I. apply in_app_or in I. destruct I as [I|[E|[]]]; auto.
        injection E as <-. exists game.
        cbn [gameId gameName gamePath]. auto.
    + split; [|reflexivity].
      unfold consistent. cbn [shown inflight nitromeGames currentGame
                               currentPlayer rufflePlayer infoPanel].
      split; [|split; [|split; [|split]]]; auto.
      * discriminate.
      * intros k I. apply in_app_or in I.
        destruct I as [I|[E|[]]]; [auto | discriminate].
  - cbn [step].
    destruct (nth_error (inflight w) n) as [[k|]|] eqn:E;
      try (split; [repeat split; assumption | reflexivity]).
    assert (K : fromList (nitromeGames (shown w)) k)
      by (apply C5; exact (nth_error_In _ _ E)).
    assert (I5 : forall k', In (Some k') (clear (inflight w) n) ->
                            fromList (nitromeGames (shown w)) k')
      by (intros k' I; apply C5; exact (In_clear _ _ _ I)).
    split; [|apply PageFacts.loadGameResume_nitromeGames].
    unfold consistent. cbn [shown inflight].
    rewrite PageFacts.loadGameResume_nitromeGames.
    destruct r as [[|]| |];
      cbn [loadGameResume nitromeGames currentGame currentPlayer
           rufflePlayer infoPanel];
      (split; [|split; [|split; [|split]]]); auto; try discriminate.
    + intros url U. injection U as <-. right. exact (fromList_listed _ _ K).
    + intros path U. injection U as <-. right. exact (fromList_listed _ _ K).
    + intros name path U. apply updateInfoPanel_path in U. subst path.
      exact (fromList_listed _ _ K).
Qed.

Lemma updatePageLanguage_consistent (w : world) :
  consistent w ->
  consistent {| shown := updatePageLanguage (shown w);
                inflight := inflight w |}.
Proof.
  intros (C1 & C2 & C3 & C4 & C5).
  unfold consistent, updatePageLanguage.
  cbn [shown inflight nitromeGames currentGame currentPlayer rufflePlayer
       infoPanel].
  split; [|split; [|split; [|split]]]; auto.
  intros name path.
  destruct (currentGame (shown w)) as [id|] eqn:G; [|discriminate].
  destruct (truthy id); [|discriminate].
  destruct (findGame (nitromeGames (shown w)) id) as [game|] eqn:F.
  - intros U. apply updateInfoPanel_path in U. subst path.
    exists game. split; [exact (findGame_In _ _ _ F) | reflexivity].
  - exfalso. exact (C1 id eq_refl F).
Qed.

Lemma perform_consistent (w : world) (a : action) :
  consistent w ->
  consistent (perform w a)
  /\ nitromeGames (shown (perform w a)) = nitromeGames (shown w).
Proof.
  intros C. destruct a as [e|]; cbn [perform].
  - exact (step_consistent w e C).
  - split; [exact (updatePageLanguage_consistent w C) | reflexivity].
Qed.

Lemma session_consistent (acts : list action) :
  forall w,
    consistent w ->
    consistent (session w acts)
    /\ nitromeGames (shown (session w acts)) = nitromeGames (shown w).
Proof.
  induction acts as [|a acts IH]; intros w C;
    [split; [exact C | reflexivity]|].
  destruct (perform_consistent w a C) as [C' G].
  destruct (IH (perform w a) C') as [C'' G'].
  change (session w (a :: acts)) with (session (perform w a) acts).
  split; [exact C''|]. congruence.
Qed.

Lemma domContentLoaded_consistent (playerCreated : bool) :
  consistent {| shown := domContentLoaded playerCreated; inflight := [] |}.
Proof.
  unfold consistent, domContentLoaded.
  cbn [shown inflight nitromeGames currentGame currentPlayer rufflePlayer
       infoPanel].
  split; [discriminate|].
  split; [destruct playerCreated; [|discriminate];
          intros url E; injection E as <-; left; reflexivity|].
  split; [destruct playerCreated; [|discriminate];
          intros url E; injection E as <-; left; reflexivity|].
  split; [discriminate|]. intros k [].
Qed.

(** While the list is empty, a consistent page has no current game, no
    call in flight, and nothing but the logo animation in a player. *)
Lemma consistent_empty (w : world) :
  consistent w ->
  nitromeGames (shown w) = [] ->
  currentGame (shown w) = None
  /\ (forall path, currentPlayer (shown w) = Some path -> path = Some LOGO)
  /\ forall k, ~ In (Some k) (inflight w).
Proof.
  intros (C1 & _ & C3 & _ & C5) E. rewrite E in *. split; [|split].
  - destruct (currentGame (shown w)) as [id|]; [|reflexivity].
    exfalso. exact (C1 id eq_refl eq_refl).
  - intros path P. destruct (C3 path P) as [L|(g & [] & _)]. exact L.
  - intros k I. destruct (C5 k I) as (g & F & _). discriminate.
Qed.

Lemma loadGamesFromJSON_consistent (w : world) (r : response)
      (message : jsstring) (playerCreated : bool) (p' : page) :
  consistent w ->
  nitromeGames (shown w) = [] ->
  loadGamesFromJSON r message playerCreated (shown w) = Some p' ->
  consistent {| shown := p'; inflight := inflight w |}.
Proof.
  intros C E H. destruct (consistent_empty w C E) as (G & P & I).
  destruct C as (C1 & C2 & C3 & C4 & C5).
  unfold loadGamesFromJSON in H. destruct r as [|data].
  - injection H as <-. unfold consistent.
    cbn [shown inflight nitromeGames currentGame currentPlayer rufflePlayer
         infoPanel].
    split; [|split; [|split; [|split]]]; auto. discriminate.
  - destruct (listOf data) as [games|]; [|discriminate].
    injection H as <-. unfold consistent.
    cbn [shown inflight nitromeGames currentGame currentPlayer rufflePlayer
         infoPanel].
    split; [rewrite G; discriminate|].
    split; [destruct playerCreated; [|discriminate];
            intros url U; injection U as <-; left; reflexivity|].
    split.
    + destruct playerCreated.
      * intros path U. injection U as <-. left. reflexivity.
      * intros path U. left. exact (P path U).
    + split; [discriminate|]. intros k Ik. exfalso. exact (I k Ik).
Qed.

End ShownFacts.

(** X16.  From the page as the startup code leaves it, with the logo
    animation or the static image, through the arrival of the catalog
    and after it, whatever games are chosen, however the checks of
    their files end and in whatever order, and whenever the language
    is changed, the page never shows a game that is not in the list:
    [currentGame] is unset or the id of a listed game, the player
    element and the saved player hold the logo animation or the path of
    a listed game whenever they hold a player, and the info panel,
    when it shows a game, shows the path of a listed game.  The same
    holds from any page of which it is true, in-flight calls included;
    and none of this changes the list. *)
Theorem page_shows_listed_games_only :
  (forall (playerCreated : bool) (before : list PageMore.action)
          (r : Catalog.response) (message : jsstring)
          (playerCreated' : bool) (p' : Page.page)
          (after : list PageMore.action),
      let w :=
        PageMore.session
          {| Page.shown := PageMore.domContentLoaded playerCreated;
             Page.inflight := [] |} before in
      PageMore.consistent w
      /\ (PageMore.loadGamesFromJSON r message playerCreated' (Page.shown w)
          = Some p' ->
          PageMore.consistent
            (PageMore.session
               {| Page.shown := p'; Page.inflight := Page.inflight w |}
               after)))
  /\ (forall (w : Page.world) (acts : list PageMore.action),
         PageMore.consistent w ->
         PageMore.consistent (PageMore.session w acts)
         /\ Page.nitromeGames (Page.shown (PageMore.session w acts))
            = Page.nitromeGames (Page.shown w)).
Proof.
  split.
  - intros playerCreated before r message playerCreated' p' after w.
    destruct (ShownFacts.session_consistent before _
                (ShownFacts.domContentLoaded_consistent playerCreated))
      as [C G].
    fold w in C, G. split; [exact C|]. intros H.
    apply ShownFacts.session_consistent.
    exact (ShownFacts.loadGamesFromJSON_consistent
             w r message playerCreated' p' C G H).
  - intros w acts. apply ShownFacts.session_consistent.
Qed.

Lemma page_shows_listed_games_only_witness :
  PageMore.consistent
    (PageMore.session
       {| Page.shown :=
            {| Page.nitromeGames := [Sample.aquanaut; Sample.badIceCream];
               Page.currentGame := None;
               Page.currentPlayer := Some (Some PageMore.LOGO);
               Page.rufflePlayer := Page.PlayerElement (Some PageMore.LOGO);
               Page.infoPanel := Page.DefaultInfo |};
          Page.inflight := [] |}
       [PageMore.Act (Page.Navigate (js "bic"));
        PageMore.Act (Page.Navigate (js "Aquanaut"));
        PageMore.SwitchLanguage;
        PageMore.Act (Page.Complete 1 (Page.HeadOk true));
        PageMore.Act (Page.Complete 0 Page.HeadNotOk)]).
Proof.
  refine (proj2 (proj1 page_shows_listed_games_only
                   true [] (Catalog.Ok Sample.gamesJson) [] true _ _) _).
  reflexivity.
Defined.

(** X17.  When a listed game is chosen on a page with no call in
    flight and its load fails (the file is missing, the check cannot
    be made, or the player cannot be created), the page shows the
    error, but [currentGame] is already the id of that game, while the
    saved player and the info panel are those of before.  A change of
    language then rewrites the info panel for the game that failed. *)
Theorem failed_load_leaves_currentGame_set :
  forall (p : Page.page) (id : jsstring) (game : Catalog.game)
         (r : Page.outcome),
    Page.findGame (Page.nitromeGames p) id = Some game ->
    r <> Page.HeadOk true ->
    let after :=
      Page.shown
        (Page.run {| Page.shown := p; Page.inflight := [] |}
                  [Page.Navigate id; Page.Complete 0 r]) in
    Page.currentGame after = Some id
    /\ (exists key detail,
           Page.rufflePlayer after = Page.ErrorMessage key detail)
    /\ Page.currentPlayer after = Page.currentPlayer p
    /\ Page.infoPanel after = Page.infoPanel p
    /\ Page.infoPanel (PageMore.updatePageLanguage after)
       = Page.updateInfoPanel id (Catalog.lookup Page.PATH game)
                              (Catalog.lookup Catalog.NAME game).
Proof.
  intros p id game r F R after.
  assert (E : after
              = Page.loadGameResume
                  {| Page.gameId := id;
                     Page.gameName := Catalog.lookup Catalog.NAME game;
                     Page.gamePath := Catalog.lookup Page.PATH game |}
                  r
                  {| Page.nitromeGames := Page.nitromeGames p;
                     Page.currentGame := Some id;
                     Page.currentPlayer := Page.currentPlayer p;
                     Page.rufflePlayer := Page.rufflePlayer p;
                     Page.infoPanel := Page.infoPanel p |}).
  { unfold after, Page.run. cbn [fold_left].
    unfold Page.step at 2. cbn [Page.shown Page.inflight].
    unfold Page.loadGameStart. rewrite F. cbn [app].
    unfold Page.step. cbn [Page.shown Page.inflight nth_error].
    reflexivity. }
  assert (L : Page.infoPanel (PageMore.updatePageLanguage after)
              = Page.updateInfoPanel id (Catalog.lookup Page.PATH game)
                                     (Catalog.lookup Catalog.NAME game)).
  { unfold PageMore.updatePageLanguage. cbn [Page.infoPanel].
    rewrite E, PageFacts.loadGameResume_currentGame,
      PageFacts.loadGameResume_nitromeGames.
    cbn [Page.currentGame Page.nitromeGames]. rewrite F.
    destruct id as [|c id]; reflexivity. }
  split; [|split; [|split; [|split]]]; try exact L;
    rewrite E; destruct r as [[|]| |]; try congruence;
    cbn [Page.loadGameResume Page.currentGame Page.rufflePlayer
         Page.currentPlayer Page.infoPanel]; eauto.
Qed.

Lemma failed_load_leaves_currentGame_set_witness :
  Page.currentGame
    (Page.shown
       (Page.run {| Page.shown := Sample.pageWithTwoGames;
                    Page.inflight := [] |}
                 [Page.Navigate (js "bic"); Page.Complete 0 Page.HeadNotOk]))
  = Some (js "bic").
Proof.
  refine (proj1 (failed_load_leaves_currentGame_set
                   Sample.pageWithTwoGames (js "bic") Sample.badIceCream
                   Page.HeadNotOk _ _)).
  - vm_compute. reflexivity.
  - discriminate.
Defined.

(* ------------------------------------------------------------------ *)
(** ** From the address bar to the game that is loaded *)
(* ------------------------------------------------------------------ *)

(** X18.  With a catalog in which a game has the non-empty id [i], a
    page address whose first segment is that id in any capitalization,
    [/seg] or [/seg/...], makes [loadGameFromUrl] hand to [loadGame]
    the last game of the catalog with that id up to case, whether the
    catalog was loaded before or is downloaded by the call.  An
    address without a segment that is not blank loads nothing and
    downloads nothing. *)
Theorem loadGameFromUrl_loads_game_of_first_segment {CM : CaseMapping} :
  forall (jsonData : Catalog.document) (t : Catalog.table)
         (g : Catalog.game) (i seg : jsstring),
    Catalog.loadGamesData (Catalog.Ok jsonData) = Some t ->
    (forall g', In g' (Catalog.arrayGames jsonData) ->
                Catalog.lookup Catalog.PROTO g' = None) ->
    In g (Catalog.arrayGames jsonData) ->
    Catalog.truthyProp g Catalog.ID = Some i ->
    Loader.noSlash seg = true ->
    trim seg <> [] ->
    toLowerCase seg = toLowerCase i ->
    exists g',
      Catalog.lastWithKey (toLowerCase i) (Catalog.arrayGames jsonData)
      = Some g'
      /\ (forall path gamesData r,
             path = Loader.SLASH ++ seg
             \/ (exists rest, path = Loader.SLASH ++ seg ++ Loader.SLASH ++ rest) ->
             gamesData = Some t
             \/ (gamesData = None /\ r = Catalog.Ok jsonData) ->
             Loader.loadGameFromUrl path gamesData r
             = (Some t, Some (Catalog.VGame g')))
      /\ (forall path gamesData r,
             Loader.getGameNameFromUrl path = [] ->
             Loader.loadGameFromUrl path gamesData r = (gamesData, None)).
Proof.
  intros jsonData t g i seg H P I T S B E.
  pose proof (ReachFacts.truthyProp_hasKey g i T) as K.
  destruct (ReachFacts.lastWithKey_exists _ _ g I K) as (g' & L).
  destruct (ReachFacts.lastWithKey_In _ _ _ L) as [I' _].
  assert (N : seg <> []) by (intros ->; apply B; reflexivity).
  assert (F : Catalog.findGameByUrlName (Some t) seg = Catalog.VGame g').
  { apply ReachFacts.findGameByUrlName_tableGet; [exact N|].
    rewrite E.
    exact (ReachFacts.loaded_tableGet jsonData t _ g' H (P g' I') L). }
  exists g'. split; [exact L|]. split.
  - intros path gamesData r Hp Hd.
    assert (G : Loader.getGameNameFromUrl path = seg).
    { destruct (LinkFacts.splitFrom_segment seg S) as [E1 E2].
      destruct Hp as [->|(rest & ->)].
      - exact (LinkFacts.getGameNameFromUrl_first seg seg [] B E1).
      - exact (LinkFacts.getGameNameFromUrl_first
                 seg (seg ++ Loader.SLASH ++ rest)
                 (UrlHost.splitFrom Loader.SLASH 0 rest) B (E2 rest)). }
    unfold Loader.loadGameFromUrl. rewrite G.
    destruct seg as [|c seg]; [congruence|]. cbn [truthy negb].
    destruct Hd as [->|[-> ->]]; rewrite ?H, F; reflexivity.
  - intros path gamesData r G. unfold Loader.loadGameFromUrl.
    rewrite G. reflexivity.
Qed.

Lemma loadGameFromUrl_loads_game_of_first_segment_witness :
  Loader.loadGameFromUrl (js "/AQUANAUT/") None
    (Catalog.Ok Sample.gamesJson)
  = (Some (Catalog.processGames Sample.gamesJson),
     Some (Catalog.VGame Sample.aquanaut)).
Proof.
  destruct (@loadGameFromUrl_loads_game_of_first_segment asciiCase
              Sample.gamesJson (Catalog.processGames Sample.gamesJson)
              Sample.aquanaut (js "Aquanaut") (js "AQUANAUT"))
    as (g' & L & F & _).
  - vm_compute. reflexivity.
  - intros g' I. vm_compute in I.
    repeat (destruct I as [<-|I]; [vm_compute; reflexivity|]).
    destruct I.
  - vm_compute. auto.
  - vm_compute. reflexivity.
  - vm_compute. reflexivity.
  - vm_compute. discriminate.
  - vm_compute. reflexivity.
  - vm_compute in L. injection L as <-.
    apply F.
    + right. exists []. reflexivity.
    + right. split; reflexivity.
Defined.

(* ------------------------------------------------------------------ *)
(** ** From the address bar to the page *)
(* ------------------------------------------------------------------ *)

Module BridgeFacts.

Import Catalog Page PageMore.

Section WithCaseMapping.
Context {CM : CaseMapping}.

Lemma listOf_arrayGames (data : document) (games : list game) (g : game) :
  listOf data = Some games -> In g games -> In g (arrayGames data).
Proof.
  destruct data as [gs|ms]; cbn [listOf arrayGames].
  - intros E. injection E as <-. intros [].
  - destruct (lookup NITROME_GAMES ms) as [[gs|g0| |b]|];
      try (intros E; injection E as <-; intros []);
      try (destruct (memberTruthy _); [discriminate|];
           intros E; injection E as <-; intros []).
    intros E. injection E as <-. intros I. apply in_or_app. left. exact I.
Qed.

(** In a list where [g] alone has the id [i] up to case, the page
    finds [g] under [i]. *)
Lemma findGame_unique (games : list game) (g : game) (i : jsstring) :
  In g games ->
  truthyProp g ID = Some i ->
  (forall g2, In g2 games -> hasKey (toLowerCase i) g2 = true -> g2 = g) ->
  findGame games i = Some g.
Proof.
  intros I T U.
  assert (Li : lookup ID g = Some i /\ truthy i = true).
  { unfold truthyProp in T. destruct (lookup ID g) as [x|]; [|discriminate].
    destruct (truthy x) eqn:X; [|discriminate]. injection T as <-. auto. }
  destruct Li as [Li Ti].
  destruct (findGame games i) as [g'|] eqn:F; unfold findGame in F.
  - apply find_some in F. destruct F as [I' E].
    destruct (lookup ID g') as [i'|] eqn:L'; [|discriminate].
    apply eqb_eq in E. subst i'. f_equal. apply U; [exact I'|].
    apply ReachFacts.truthyProp_hasKey. unfold truthyProp.
    rewrite L', Ti. reflexivity.
  - pose proof (find_none _ _ F g I) as K. cbn beta in K.
    rewrite Li, eqb_refl in K. discriminate.
Qed.

End WithCaseMapping.

End BridgeFacts.

(** X19.  Both scripts read the same catalog.  When a game of its
    [nitromeGames] array has a non-empty id that no other game of the
    catalog shares, in any capitalization, a page address whose first
    segment is that id in any capitalization goes all the way: the
    loader resolves it to that game, and the page's [loadGame], called
    with the game's id, finds that same game, makes its id the current
    game and starts the check of its file. *)
Theorem address_reaches_the_page {CM : CaseMapping} :
  forall (data : Catalog.document) (games : list Catalog.game)
         (t : Catalog.table) (g : Catalog.game) (i seg : jsstring)
         (p : Page.page),
    PageMore.listOf data = Some games ->
    Page.nitromeGames p = games ->
    Catalog.loadGamesData (Catalog.Ok data) = Some t ->
    (forall g', In g' (Catalog.arrayGames data) ->
                Catalog.lookup Catalog.PROTO g' = None) ->
    In g games ->
    Catalog.truthyProp g Catalog.ID = Some i ->
    (forall g2, In g2 (Catalog.arrayGames data) ->
                Catalog.hasKey (toLowerCase i) g2 = true -> g2 = g) ->
    Loader.noSlash seg = true ->
    trim seg <> [] ->
    toLowerCase seg = toLowerCase i ->
    Loader.loadGameFromUrl (Loader.SLASH ++ seg) None (Catalog.Ok data)
    = (Some t, Some (Catalog.VGame g))
    /\ PageMore.mainPageLoad g p
       = Some ({| Page.nitromeGames := Page.nitromeGames p;
                  Page.currentGame := Some i;
                  Page.currentPlayer := Page.currentPlayer p;
                  Page.rufflePlayer := Page.rufflePlayer p;
                  Page.infoPanel := Page.infoPanel p |},
               Some {| Page.gameId := i;
                       Page.gameName := Catalog.lookup Catalog.NAME g;
                       Page.gamePath := Catalog.lookup Page.PATH g |}).
Proof.
  intros data games t g i seg p Hl Hp H P I T U S B E.
  pose proof (BridgeFacts.listOf_arrayGames data games g Hl I) as Ia.
  split.
  - pose proof (ReachFacts.truthyProp_hasKey g i T) as K.
    destruct (ReachFacts.lastWithKey_exists _ _ g Ia K) as (g' & L).
    destruct (ReachFacts.lastWithKey_In _ _ _ L) as [I' K'].
    assert (Eg : g' = g) by exact (U g' I' K'). subst g'.
    assert (N : seg <> []) by (intros ->; apply B; reflexivity).
    assert (G : Loader.getGameNameFromUrl (Loader.SLASH ++ seg) = seg).
    { apply (LinkFacts.getGameNameFromUrl_first seg seg [] B).
      exact (proj1 (LinkFacts.splitFrom_segment seg S)). }
    unfold Loader.loadGameFromUrl. rewrite G.
    destruct seg as [|c seg]; [congruence|]. cbn [truthy negb].
    rewrite H.
    rewrite (ReachFacts.findGameByUrlName_tableGet t (c :: seg) g N).
    + reflexivity.
    + rewrite E.
      exact (ReachFacts.loaded_tableGet data t _ g H (P g Ia) L).
  - assert (F : Page.findGame (Page.nitromeGames p) i = Some g).
    { rewrite Hp. apply BridgeFacts.findGame_unique; auto.
      intros g2 I2. apply U.
      exact (BridgeFacts.listOf_arrayGames data games g2 Hl I2). }
    unfold PageMore.mainPageLoad.
    assert (Li : Catalog.lookup Catalog.ID g = Some i).
    { unfold Catalog.truthyProp in T.
      destruct (Catalog.lookup Catalog.ID g) as [x|]; [|discriminate].
      destruct (truthy x); [|discriminate]. exact T. }
    rewrite Li. unfold Page.loadGameStart. rewrite F. reflexivity.
Qed.

Lemma address_reaches_the_page_witness :
  Loader.loadGameFromUrl (js "/BIC") None (Catalog.Ok Sample.gamesJson)
  = (Some (Catalog.processGames Sample.gamesJson),
     Some (Catalog.VGame Sample.badIceCream)).
Proof.
  refine (proj1 (@address_reaches_the_page asciiCase
                   Sample.gamesJson [Sample.aquanaut; Sample.badIceCream]
                   (Catalog.processGames Sample.gamesJson)
                   Sample.badIceCream (js "bic") (js "BIC")
                   Sample.pageWithTwoGames _ _ _ _ _ _ _ _ _ _)).
  - reflexivity.
  - reflexivity.
  - vm_compute. reflexivity.
  - intros g' I. vm_compute in I.
    repeat (destruct I as [<-|I]; [vm_compute; reflexivity|]).
    destruct I.
  - simpl. auto.
  - vm_compute. reflexivity.
  - intros g2 I. vm_compute in I.
    repeat (destruct I as [<-|I];
            [vm_compute; intros K; (reflexivity || discriminate)|]).
    destruct I.
  - vm_compute. reflexivity.
  - vm_compute. discriminate.
  - vm_compute. reflexivity.
Defined.

(* ------------------------------------------------------------------ *)
(** ** The page title *)
(* ------------------------------------------------------------------ *)

Module TitleFacts.

Import Catalog UrlHost Loader Shape.

Lemma splitFrom_skip (sep : jsstring) (s : jsstring) :
  forall n, splitFrom sep n s = splitFrom sep 0 (skipn n s).
Proof.
  induction s as [|c s IH]; intros n.
  - destruct n; reflexivity.
  - destruct n as [|n]; [reflexivity|]. cbn [splitFrom skipn]. apply IH.
Qed.

Lemma splitFrom_match (sep r : jsstring) :
  sep <> [] ->
  splitFrom sep 0 (sep ++ r) = [] :: splitFrom sep 0 r.
Proof.
  intros N. destruct sep as [|d sep]; [congruence|].
  cbn [app splitFrom].
  assert (E : startsWith (d :: sep ++ r) (d :: sep) = true)
    by (apply startsWith_iff; exists r; reflexivity).
  rewrite E. f_equal. rewrite splitFrom_skip. f_equal.
  replace (length (d :: sep) - 1) with (length sep)
    by (cbn [length]; lia).
  rewrite skipn_app, Nat.sub_diag, skipn_all. reflexivity.
Qed.

Lemma splitFrom_no_match (sep : jsstring) (c : codeunit) (s : jsstring) :
  startsWith (c :: s) sep = false ->
  splitFrom sep 0 (c :: s)
  = match splitFrom sep 0 s with
    | piece :: pieces => (c :: piece) :: pieces
    | [] => [[c]]
    end.
Proof.
  intros E. cbn [splitFrom]. rewrite E. reflexivity.
Qed.

Lemma startsWith_false (s p : jsstring) :
  (forall r, s <> p ++ r) -> startsWith s p = false.
Proof.
  intros N. destruct (startsWith s p) eqn:E; [|reflexivity].
  apply startsWith_iff in E. destruct E as (r & E).
  exfalso. exact (N r E).
Qed.

Lemma firstOccurrence_tail (p : jsstring) (c : codeunit) (a b : jsstring) :
  firstOccurrence p (c :: a ++ p ++ b) (c :: a) b ->
  firstOccurrence p (a ++ p ++ b) a b
  /\ startsWith (c :: a ++ p ++ b) p = false.
Proof.
  intros [_ M]. split.
  - split; [reflexivity|]. intros a' b' E.
    specialize (M (c :: a') b'). cbn [app length] in M.
    rewrite E in M. specialize (M eq_refl). lia.
  - apply startsWith_false. intros r E.
    specialize (M [] r E). cbn [length] in M. lia.
Qed.

(** The first piece ends where the separator first occurs. *)
Lemma splitFrom_first (sep a b : jsstring) :
  sep <> [] ->
  firstOccurrence sep (a ++ sep ++ b) a b ->
  splitFrom sep 0 (a ++ sep ++ b) = a :: splitFrom sep 0 b.
Proof.
  intros N. induction a as [|c a IH]; intros F.
  - exact (splitFrom_match sep b N).
  - destruct (firstOccurrence_tail _ _ _ _ F) as [F' E].
    change ((c :: a) ++ sep ++ b) with (c :: a ++ sep ++ b).
    rewrite (splitFrom_no_match _ _ _ E), (IH F'). reflexivity.
Qed.

Lemma splitFrom_whole (sep s : jsstring) :
  sep <> [] -> ~ occursIn sep s -> splitFrom sep 0 s = [s].
Proof.
  intros Ne. induction s as [|c s IH]; intros N; [reflexivity|].
  rewrite splitFrom_no_match.
  - rewrite IH; [reflexivity|].
    intros (a & b & E). apply N. exists (c :: a), b. rewrite E. reflexivity.
  - apply startsWith_false. intros r E. apply N. exists [], r. exact E.
Qed.

Lemma firstOccurrence_before (p s a b : jsstring) :
  p <> [] -> firstOccurrence p s a b -> ~ occursIn p a.
Proof.
  intros Np [E M] (x & y & Ea).
  specialize (M x (y ++ p ++ b)).
  rewrite E, Ea in M. rewrite <- !app_assoc in M. specialize (M eq_refl).
  rewrite !length_app in M. destruct p; [congruence|]. cbn [length] in M. lia.
Qed.

(** The head of a split holds no separator, and is the text up to
    the first separator. *)
Lemma splitFrom_head (sep s : jsstring) :
  sep <> [] ->
  exists p0 ps, splitFrom sep 0 s = p0 :: ps /\ ~ occursIn sep p0
                /\ (s = p0 \/ exists rest, s = p0 ++ sep ++ rest).
Proof.
  intros Ne. destruct (includes s sep) eqn:I.
  - apply includes_true_iff in I.
    destruct (firstOccurrence_exists _ _ I) as (a & b & F).
    pose proof F as [E _]. rewrite E in F. rewrite E.
    exists a, (splitFrom sep 0 b). split; [|split].
    + apply splitFrom_first; assumption.
    + exact (firstOccurrence_before sep (a ++ sep ++ b) a b Ne F).
    + right. exists b. reflexivity.
  - apply includes_false_iff in I. exists s, []. split; [|split].
    + apply splitFrom_whole; assumption.
    + exact I.
    + left. reflexivity.
Qed.

Lemma separator_not_nil : TITLE_SEPARATOR <> [].
Proof. discriminate. Qed.

Lemma split_title (s : jsstring) :
  split s TITLE_SEPARATOR = splitFrom TITLE_SEPARATOR 0 s.
Proof. reflexivity. Qed.

(** *** White space *)

Lemma endsInSpace_cons (b : bool) (c : codeunit) (x : jsstring) :
  endsInSpace b (c :: x) = endsInSpace (isAsciiWhitespace c) x.
Proof. destruct x; reflexivity. Qed.

Lemma last_app_some (x y : jsstring) (d : codeunit) :
  y <> [] -> last (x ++ y) d = last y d.
Proof.
  intros N. induction x as [|c x IH]; [reflexivity|].
  cbn [app]. destruct (x ++ y) eqn:E.
  - destruct x, y; try discriminate. congruence.
  - rewrite <- IH. reflexivity.
Qed.

Lemma singleSpaces_app (x y : jsstring) :
  forall b, singleSpaces b (x ++ y)
            = singleSpaces b x && singleSpaces (endsInSpace b x) y.
Proof.
  induction x as [|c x IH]; intros b; [reflexivity|].
  rewrite endsInSpace_cons. cbn [app singleSpaces].
  destruct (isAsciiWhitespace c); rewrite IH.
  - rewrite !andb_assoc. reflexivity.
  - reflexivity.
Qed.

Lemma singleSpaces_collapse (s : jsstring) :
  forall b, singleSpaces b (collapseWhitespace b s) = true.
Proof.
  induction s as [|c s IH]; intros b; [reflexivity|].
  cbn [collapseWhitespace]. destruct (isAsciiWhitespace c) eqn:W.
  - destruct b; [apply IH|]. cbn [singleSpaces].
    change (isAsciiWhitespace 32%N) with true. cbn. apply IH.
  - cbn [singleSpaces]. rewrite W. apply IH.
Qed.

Lemma collapse_fixed (s : jsstring) :
  forall b, singleSpaces b s = true -> collapseWhitespace b s = s.
Proof.
  induction s as [|c s IH]; intros b S; [reflexivity|].
  cbn [singleSpaces collapseWhitespace] in *.
  destruct (isAsciiWhitespace c).
  - apply andb_true_iff in S. destruct S as [S S2].
    apply andb_true_iff in S. destruct S as [Nb E].
    apply negb_true_iff in Nb. subst b. apply N.eqb_eq in E. subst c.
    f_equal. apply IH. exact S2.
  - f_equal. apply IH. exact S.
Qed.

Lemma stripTrailing_cons (c : codeunit) (s : jsstring) :
  stripTrailing s <> [] -> stripTrailing (c :: s) = c :: stripTrailing s.
Proof.
  intros N. cbn [stripTrailing]. destruct (stripTrailing s); congruence.
Qed.

(** What is stripped from the end is white space. *)
Lemma stripTrailing_prefix (s : jsstring) :
  exists r, s = stripTrailing s ++ r.
Proof.
  induction s as [|c s [r E]]; [exists []; reflexivity|].
  cbn [stripTrailing]. destruct (stripTrailing s) as [|d t].
  - destruct (isAsciiWhitespace c).
    + exists (c :: s). reflexivity.
    + exists s. reflexivity.
  - exists r. cbn [app] in *. congruence.
Qed.

Lemma last_stripTrailing (s : jsstring) :
  isAsciiWhitespace (last (stripTrailing s) 0%N) = false.
Proof.
  induction s as [|c s IH]; [reflexivity|].
  cbn [stripTrailing]. destruct (stripTrailing s) as [|d t].
  - destruct (isAsciiWhitespace c) eqn:W; [reflexivity | exact W].
  - exact IH.
Qed.

Lemma stripTrailing_fixed (s : jsstring) :
  isAsciiWhitespace (last s 0%N) = false -> stripTrailing s = s.
Proof.
  induction s as [|c s IH]; intros L; [reflexivity|].
  cbn [stripTrailing]. destruct s as [|d s].
  - cbn in *. rewrite L. reflexivity.
  - rewrite IH by exact L. reflexivity.
Qed.

Lemma singleSpaces_stripLeading (s : jsstring) :
  forall b, singleSpaces b s = true -> singleSpaces true (stripLeading s) = true.
Proof.
  induction s as [|c s IH]; intros b S; [reflexivity|].
  cbn [stripLeading]. cbn [singleSpaces] in S.
  destruct (isAsciiWhitespace c) eqn:W.
  - apply andb_true_iff in S. destruct S as [_ S]. exact (IH true S).
  - cbn [singleSpaces]. rewrite W. exact S.
Qed.

Lemma last_stripLeading (s : jsstring) :
  isAsciiWhitespace (last s 0%N) = false ->
  isAsciiWhitespace (last (stripLeading s) 0%N) = false.
Proof.
  induction s as [|c s IH]; intros L; [reflexivity|].
  cbn [stripLeading]. destruct (isAsciiWhitespace c) eqn:W; [|exact L].
  apply IH. destruct s; [cbn in L; congruence | exact L].
Qed.

Lemma stripLeading_app (x y : jsstring) :
  stripLeading x <> [] -> stripLeading (x ++ y) = stripLeading x ++ y.
Proof.
  induction x as [|c x IH]; intros N; [cbn in N; congruence|].
  cbn [app stripLeading] in *.
  destruct (isAsciiWhitespace c); [exact (IH N) | reflexivity].
Qed.

(** What the getter gives is tidy. *)
Lemma stripAndCollapse_tidy (s : jsstring) :
  tidy (stripAndCollapse s) = true.
Proof.
  unfold tidy, stripAndCollapse. apply andb_true_iff. split.
  - apply (singleSpaces_stripLeading _ false).
    pose proof (singleSpaces_collapse s false) as S.
    destruct (stripTrailing_prefix (collapseWhitespace false s)) as [r E].
    rewrite E, singleSpaces_app in S.
    apply andb_true_iff in S. exact (proj1 S).
  - apply negb_true_iff, last_stripLeading, last_stripTrailing.
Qed.

Lemma tidy_fixed (s : jsstring) :
  tidy s = true ->
  (forall b, collapseWhitespace b s = s) /\ stripTrailing s = s.
Proof.
  unfold tidy. intros T. apply andb_true_iff in T. destruct T as [S L].
  apply negb_true_iff in L. split; [|exact (stripTrailing_fixed s L)].
  intros b. apply collapse_fixed. destruct b; [exact S|].
  destruct s as [|c s]; [reflexivity|]. cbn [singleSpaces] in *.
  destruct (isAsciiWhitespace c); [discriminate | exact S].
Qed.

Lemma blank_collapse (m : jsstring) :
  blank m = true ->
  forall b, stripTrailing (collapseWhitespace b m) = []
            /\ collapseWhitespace true m = [].
Proof.
  induction m as [|c m IH]; intros B b; [split; reflexivity|].
  cbn [blank forallb] in B. apply andb_true_iff in B. destruct B as [W B].
  destruct (IH B true) as [T C].
  cbn [collapseWhitespace]. rewrite W. split; [|exact C].
  destruct b; [exact T|]. rewrite C. reflexivity.
Qed.

Lemma not_blank_collapse (m : jsstring) :
  blank m = false ->
  forall b, stripTrailing (collapseWhitespace b m) <> [].
Proof.
  induction m as [|c m IH]; intros B b; [discriminate|].
  cbn [blank forallb] in B. cbn [collapseWhitespace].
  destruct (isAsciiWhitespace c) eqn:W.
  - cbn [andb] in B. destruct b; [exact (IH B true)|].
    rewrite stripTrailing_cons by exact (IH B true). discriminate.
  - cbn [stripTrailing].
    destruct (stripTrailing (collapseWhitespace false m));
      [rewrite W|]; discriminate.
Qed.

(** The getter, on a text that ends in the separator and a tidy site
    name. *)
Lemma collapse_before_site (site m : jsstring) :
  tidy site = true ->
  forall b,
    collapseWhitespace b (m ++ TITLE_SEPARATOR ++ site)
    = stripTrailing (collapseWhitespace b m)
        ++ (if b && blank m then tl TITLE_SEPARATOR else TITLE_SEPARATOR)
        ++ site.
Proof.
  intros T. destruct (tidy_fixed site T) as [C _].
  induction m as [|c m IH]; intros b.
  - cbn [app blank forallb]. rewrite andb_true_r.
    change (TITLE_SEPARATOR ++ site) with (32%N :: 45%N :: 32%N :: site).
    cbn [collapseWhitespace].
    change (isAsciiWhitespace 32%N) with true.
    change (isAsciiWhitespace 45%N) with false. cbn iota.
    rewrite C. destruct b; reflexivity.
  - cbn [app collapseWhitespace blank forallb].
    destruct (isAsciiWhitespace c) eqn:W.
    + fold (blank m). cbn [andb]. destruct b.
      * exact (IH true).
      * rewrite (IH true). cbn [andb].
        destruct (blank m) eqn:B.
        -- destruct (blank_collapse m B true) as [S K].
           rewrite K. reflexivity.
        -- rewrite stripTrailing_cons by exact (not_blank_collapse m B true).
           reflexivity.
    + cbn [andb]. rewrite andb_false_r. rewrite (IH false). cbn [andb].
      cbn [stripTrailing].
      destruct (stripTrailing (collapseWhitespace false m));
        [rewrite W|]; reflexivity.
Qed.

Lemma documentTitle_before_site (name site : jsstring) :
  documentTitle name <> [] -> tidy site = true -> site <> [] ->
  documentTitle (name ++ TITLE_SEPARATOR ++ site)
  = documentTitle name ++ TITLE_SEPARATOR ++ site.
Proof.
  intros Nn T Ns. unfold documentTitle, stripAndCollapse in *.
  rewrite (collapse_before_site site name T false). cbn [andb].
  pose proof T as T'. unfold tidy in T'.
  apply andb_true_iff in T'. destruct T' as [_ L].
  apply negb_true_iff in L.
  rewrite stripTrailing_fixed.
  - apply stripLeading_app. exact Nn.
  - rewrite !last_app_some; [exact L | exact Ns | discriminate].
Qed.

(** *** The site name *)

Lemma siteName_clean (title : jsstring) :
  tidy title = true ->
  siteName title <> [] /\ ~ occursIn TITLE_SEPARATOR (siteName title)
  /\ tidy (siteName title) = true.
Proof.
  intros T.
  assert (D : js "Flash Games" <> []
              /\ ~ occursIn TITLE_SEPARATOR (js "Flash Games")
              /\ tidy (js "Flash Games") = true).
  { split; [discriminate|]. split; [|reflexivity].
    apply includes_false_iff. reflexivity. }
  unfold siteName. rewrite split_title.
  destruct (includes title TITLE_SEPARATOR) eqn:I.
  - apply includes_true_iff in I.
    destruct (firstOccurrence_exists _ _ I) as (a & b & F).
    pose proof F as [E _]. rewrite E in F.
    rewrite E, (splitFrom_first _ _ _ separator_not_nil F).
    destruct (splitFrom_head TITLE_SEPARATOR b separator_not_nil)
      as (p0 & ps & -> & N & P).
    destruct p0 as [|c p0]; [exact D|]. cbn [truthy].
    split; [discriminate|]. split; [exact N|].
    unfold tidy in T. apply andb_true_iff in T. destruct T as [S L].
    apply negb_true_iff in L.
    rewrite E, (app_assoc a), singleSpaces_app in S.
    apply andb_true_iff in S. destruct S as [_ S].
    assert (K : endsInSpace true (a ++ TITLE_SEPARATOR) = true).
    { unfold endsInSpace. destruct (a ++ TITLE_SEPARATOR) eqn:A.
      - reflexivity.
      - rewrite <- A, last_app_some by discriminate. reflexivity. }
    rewrite K in S. clear K.
    unfold tidy. apply andb_true_iff.
    destruct P as [->|(rest & ->)].
    + split; [exact S|]. apply negb_true_iff.
      rewrite E, !last_app_some in L by discriminate. exact L.
    + rewrite singleSpaces_app in S.
      apply andb_true_iff in S. destruct S as [S1 S2]. split; [exact S1|].
      apply negb_true_iff.
      change (TITLE_SEPARATOR ++ rest) with (32%N :: 45%N :: 32%N :: rest) in S2.
      cbn [singleSpaces endsInSpace] in S2.
      change (isAsciiWhitespace 32%N) with true in S2. cbn iota in S2.
      apply andb_true_iff in S2. destruct S2 as [S2 _].
      apply andb_true_iff in S2. destruct S2 as [S2 _].
      apply negb_true_iff in S2. exact S2.
  - apply includes_false_iff in I.
    rewrite (splitFrom_whole _ _ separator_not_nil I).
    exact D.
Qed.

(** In a title made of a clean name, the separator and a site name,
    the separator first occurs after the name. *)
Lemma cleanName_first (name rest : jsstring) :
  includes (name ++ js " -") TITLE_SEPARATOR = false ->
  firstOccurrence TITLE_SEPARATOR (name ++ TITLE_SEPARATOR ++ rest) name rest.
Proof.
  intros C. apply includes_false_iff in C.
  split; [reflexivity|]. intros a' b' E.
  destruct (Nat.le_gt_cases (length name) (length a')) as [|L]; [assumption|].
  exfalso. apply C.
  exists a', (firstn (length name + 2 - length a' - 3) b').
  apply (f_equal (firstn (length name + 2))) in E.
  rewrite firstn_app in E.
  rewrite (firstn_all2 name) in E by lia.
  replace (length name + 2 - length name) with 2 in E by lia.
  change (firstn 2 (TITLE_SEPARATOR ++ rest)) with (js " -") in E.
  rewrite E, firstn_app.
  rewrite (firstn_all2 a') by lia. f_equal.
  rewrite firstn_app.
  assert (L3 : length TITLE_SEPARATOR = 3) by reflexivity.
  rewrite (firstn_all2 TITLE_SEPARATOR) by lia.
  rewrite L3. reflexivity.
Qed.

(** What the getter reads after [loadGame] has shown a game with a
    clean name, and the site name in it. *)
Lemma documentTitle_retitle (text : jsstring) (g : game) (n : jsstring) :
  truthyProp g NAME = Some n -> cleanName n = true ->
  documentTitle (retitle text g)
  = documentTitle n ++ TITLE_SEPARATOR ++ siteName (documentTitle text)
  /\ siteName (documentTitle (retitle text g))
     = siteName (documentTitle text).
Proof.
  intros G C. unfold retitle. rewrite G.
  unfold cleanName in C. apply andb_true_iff in C. destruct C as [Tr C].
  apply negb_true_iff in C.
  assert (Nn : documentTitle n <> [])
    by (destruct (documentTitle n); [discriminate | discriminate]).
  destruct (siteName_clean (documentTitle text)
                           (stripAndCollapse_tidy text)) as (Ne & Nc & T).
  rewrite (documentTitle_before_site n _ Nn T Ne).
  split; [reflexivity|].
  pose proof (cleanName_first (documentTitle n)
                              (siteName (documentTitle text)) C) as F.
  unfold siteName at 1. rewrite split_title.
  rewrite (splitFrom_first _ _ _ separator_not_nil F),
    (splitFrom_whole _ _ separator_not_nil Nc).
  destruct (siteName (documentTitle text)); [congruence | reflexivity].
Qed.

Lemma siteName_retitle (text : jsstring) (g : game) :
  (forall n, truthyProp g NAME = Some n -> cleanName n = true) ->
  siteName (documentTitle (retitle text g)) = siteName (documentTitle text).
Proof.
  intros C. destruct (truthyProp g NAME) as [n|] eqn:G.
  - exact (proj2 (documentTitle_retitle text g n G (C n eq_refl))).
  - unfold retitle. rewrite G. reflexivity.
Qed.

End TitleFacts.

(** X20.  The loader's [loadGame] sets the page title to the name of
    the game, [" - "] and the site name, which is the second piece of
    the title read back ([document.title], whose getter strips and
    collapses the ASCII white space of the text that was set), or
    ["Flash Games"] for want of one.  As long as the names of the
    games are not blank and, with their white space stripped and
    collapsed, neither contain [" - "] nor end in [" -"], the site
    name read from the title stays what it was at the start over any
    number of games loaded, and the title read after a named game is
    its name, stripped and collapsed, followed by [" - "] and that
    site name. *)
Theorem title_keeps_site_name :
  forall (text : jsstring) (games : list Catalog.game),
    (forall g n, In g games ->
                 Catalog.truthyProp g Catalog.NAME = Some n ->
                 Loader.cleanName n = true) ->
    Loader.siteName (Loader.documentTitle (fold_left Loader.retitle games text))
    = Loader.siteName (Loader.documentTitle text)
    /\ (forall before g n,
           games = before ++ [g] ->
           Catalog.truthyProp g Catalog.NAME = Some n ->
           Loader.documentTitle (fold_left Loader.retitle games text)
           = Loader.documentTitle n ++ Loader.TITLE_SEPARATOR
               ++ Loader.siteName (Loader.documentTitle text)).
Proof.
  intros text games.
  assert (S : forall gs t,
             (forall g n, In g gs ->
                          Catalog.truthyProp g Catalog.NAME = Some n ->
                          Loader.cleanName n = true) ->
             Loader.siteName (Loader.documentTitle (fold_left Loader.retitle gs t))
             = Loader.siteName (Loader.documentTitle t)).
  { induction gs as [|g gs IH]; intros t C; [reflexivity|].
    cbn [fold_left]. rewrite IH.
    - apply TitleFacts.siteName_retitle. intros n. apply C. left. reflexivity.
    - intros g' n I. apply C. right. exact I. }
  intros C. split; [exact (S games text C)|].
  intros before g n -> T. rewrite fold_left_app. cbn [fold_left].
  assert (Cn : Loader.cleanName n = true).
  { apply (C g n); [|exact T]. apply in_or_app. right. left. reflexivity. }
  rewrite (proj1 (TitleFacts.documentTitle_retitle _ g n T Cn)).
  do 2 f_equal.
  apply S. intros g' n' I. apply C. apply in_or_app. left. exact I.
Qed.

Lemma title_keeps_site_name_witness :
  Loader.documentTitle
    (fold_left Loader.retitle [Sample.badIceCream; Sample.aquanaut]
               (js "  Jogos  -  Nitrome Archive "))
  = js "Aquanaut - Nitrome Archive".
Proof.
  refine (eq_trans
            (proj2 (title_keeps_site_name
                      (js "  Jogos  -  Nitrome Archive ")
                      [Sample.badIceCream; Sample.aquanaut] _)
                   [Sample.badIceCream] Sample.aquanaut (js "Aquanaut")
                   eq_refl eq_refl) _).
  - intros g n I. simpl in I.
    repeat (destruct I as [<-|I];
            [vm_compute; intros K; injection K as <-; reflexivity|]).
    destruct I.
  - vm_compute. reflexivity.
Defined.

(* ------------------------------------------------------------------ *)
(** ** Reaching a game by its name *)
(* ------------------------------------------------------------------ *)

Module NameFacts.

Import Catalog.

Section WithCaseMapping.
Context {CM : CaseMapping}.

Lemma makeUrlFriendly_lower (n : jsstring) :
  toLowerCase (Normalizer.makeUrlFriendly n) = Normalizer.makeUrlFriendly n.
Proof.
  rewrite NormalizerFacts.makeUrlFriendly_normalize.
  apply NormalizerFacts.toLowerCase_fixed.
  generalize (NormalizerFacts.normalize_units n).
  apply NormalizerFacts.forallb_impl. intros c.
  apply NormalizerFacts.alnum_plain.
Qed.

Lemma nameMatches_own (g : game) (n : jsstring) :
  truthyProp g NAME = Some n ->
  nameMatches g (Normalizer.makeUrlFriendly n) = true.
Proof.
  intros T. unfold nameMatches. rewrite T. apply eqb_refl.
Qed.

End WithCaseMapping.

End NameFacts.

(** X21.  In a catalog in which every game is filed under its
    lower-cased id, the friendly form of a game's name (what
    [makeUrlFriendly] makes of it), if it is not empty and not a name
    that every object inherits, always resolves to a game: to the game
    filed under it, which has it as its lower-cased id, if there is
    one; and otherwise, no game having it as its lower-cased id, to the
    first game, in enumeration order, whose name has that friendly
    form: no entry before it has.  It is the game itself when no other
    game has that id or that friendly name. *)
Theorem game_is_found_by_friendly_name {CM : CaseMapping} :
  forall (t : Catalog.table) (k : jsstring) (g : Catalog.game)
         (n : jsstring),
    Catalog.keyed t = true ->
    In (k, g) (Catalog.own t) ->
    Catalog.truthyProp g Catalog.NAME = Some n ->
    Normalizer.makeUrlFriendly n <> [] ->
    Catalog.inherited (Normalizer.makeUrlFriendly n) = false ->
    exists g',
      Catalog.findGameByUrlName (Some t) (Normalizer.makeUrlFriendly n)
      = Catalog.VGame g'
      /\ (exists k', In (k', g') (Catalog.own t))
      /\ ((Catalog.lookup (Normalizer.makeUrlFriendly n) (Catalog.own t)
           = Some g'
           /\ Catalog.hasKey (Normalizer.makeUrlFriendly n) g' = true)
          \/ ((forall k2 g2, In (k2, g2) (Catalog.own t) ->
                 Catalog.hasKey (Normalizer.makeUrlFriendly n) g2 = false)
              /\ Catalog.nameMatches g' (Normalizer.makeUrlFriendly n) = true
              /\ exists before k' after,
                  Catalog.entries (Catalog.own t)
                  = before ++ (k', g') :: after
                  /\ forall e, In e before ->
                               Catalog.nameMatches
                                 (snd e) (Normalizer.makeUrlFriendly n)
                               = false))
      /\ ((forall k2 g2,
              In (k2, g2) (Catalog.own t) ->
              Catalog.hasKey (Normalizer.makeUrlFriendly n) g2 = true
              \/ Catalog.nameMatches g2 (Normalizer.makeUrlFriendly n) = true ->
              g2 = g) ->
          g' = g).
Proof.
  intros t k g n K I T Ne Ni.
  set (key := Normalizer.makeUrlFriendly n) in *.
  assert (Lk : toLowerCase key = key) by apply NameFacts.makeUrlFriendly_lower.
  pose proof (CatalogFacts.findGameByUrlName_keyed t key K Ne) as F.
  rewrite Lk in F. specialize (F Ni).
  destruct (CatalogFacts.keyed_inv t K) as [_ A].
  destruct (Catalog.lookup key (Catalog.own t)) as [g'|] eqn:L.
  - pose proof (CatalogFacts.lookup_In _ _ _ L) as I'.
    exists g'. split; [exact F|]. split; [exists key; exact I'|].
    split; [left; split; [reflexivity | exact (A key g' I')]|].
    intros U. apply (U key g' I'). left. exact (A key g' I').
  - destruct (find (fun e => Catalog.nameMatches (snd e) key)
                   (Catalog.entries (Catalog.own t))) as [[k' g']|] eqn:Fd.
    + destruct (SlugFacts.find_first _ _ _ Fd) as (l1 & l2 & El & M & N).
      cbn [snd] in M.
      assert (I' : In (k', g') (Catalog.own t)).
      { apply CatalogFacts.In_entries. rewrite El.
        apply in_or_app. right. left. reflexivity. }
      exists g'. split; [exact F|]. split; [exists k'; exact I'|]. split.
      * right. split; [|split; [exact M|]].
        -- intros k2 g2 I2.
           pose proof (proj1 (CatalogFacts.keyed_lookup_none t key K) L
                         k2 g2 I2) as H.
           rewrite CatalogFacts.idMatches_hasKey in H. exact H.
        -- exists l1, k', l2. split; [exact El | exact N].
      * intros U. apply (U k' g' I'). right. exact M.
    + exfalso.
      pose proof (find_none _ _ Fd (k, g) (SlugFacts.entries_In _ _ I)) as M.
      cbn [snd] in M. unfold key in M.
      rewrite (NameFacts.nameMatches_own g n T) in M. discriminate.
Qed.

Lemma game_is_found_by_friendly_name_witness :
  Catalog.findGameByUrlName
    (Some (Catalog.processGames Sample.gamesJson)) (js "bad-ice-cream")
  = Catalog.VGame Sample.badIceCream.
Proof.
  destruct (@game_is_found_by_friendly_name asciiCase
              (Catalog.processGames Sample.gamesJson)
              (js "bic") Sample.badIceCream (js "Bad Ice Cream"))
    as (g' & F & _ & _ & U).
  - vm_compute. reflexivity.
  - vm_compute. auto.
  - vm_compute. reflexivity.
  - vm_compute. discriminate.
  - vm_compute. reflexivity.
  - rewrite <- (U ltac:(intros k2 g2 I2; vm_compute in I2;
                        repeat (destruct I2 as [I2|I2];
                                [injection I2 as <- <-; vm_compute;
                                 intros [H|H];
                                 (reflexivity || discriminate)|]);
                        destruct I2)).
    exact F.
Defined.

(* ------------------------------------------------------------------ *)
(** ** Catalogs that are objects keyed by id *)
(* ------------------------------------------------------------------ *)

Module DirectFacts.

Import Catalog Direct.



Section WithCaseMapping.
Context {CM : CaseMapping}.



End WithCaseMapping.

End DirectFacts.


